(** * acorn-globals: free-reference analysis over an ESTree AST

    A shallow embedding of [index.js].  AST nodes are JavaScript objects:
    their syntactic fields are immutable during the analysis and are kept in
    the [Node] value, while the two fields the analysis attaches ([locals]
    and [parents]) and every array object live in an explicit [heap], keyed
    by object identity. *)

From stdpp Require Import base option list gmap strings sorting.

(** ** Values thrown by the program *)

(** The object [acorn.parse] throws on a syntax error. *)
Record acorn_error := AcornError {
  message : string;
  pos : nat;
  raisedAt : nat;
}.

Inductive exn :=
| ParseError (err : acorn_error)
| TypeError (msg : string)
| Error (msg : string).

Inductive result (A : Type) :=
| Return (a : A)
| Throw (e : exn).
Arguments Return {A} a.
Arguments Throw {A} e.

(** ** AST nodes

    One record for every node kind, as in ESTree: [type] is the tag, the
    other fields are those [index.js] reads; a field a node kind does not
    have is [None] (null or undefined), [[]] or the empty string.  [nid] is
    the identity of the object; [start] is the offset in the source text
    that the parser gives every node, and [index.js] never reads it. *)
Local Unset Elimination Schemes.
Inductive Node : Type := mkNode {
  nid : positive;
  type : string;
  name : string;
  kind : string;
  id : option Node;
  params : list Node;
  declarations : list Node;
  handler : option Node;
  param : option Node;
  local : option Node;
  properties : list Node;
  elements : list (option Node);
  value : option Node;
  argument : option Node;
  left : option Node;
  start : N;
}.
Local Set Elimination Schemes.

(** [a === b] on two node objects. *)
Definition same_object (a b : Node) : bool := Pos.eqb (nid a) (nid b).

(** ** The heap *)
Record heap := Heap {
  h_locals : gmap positive (gset string);   (* [node.locals], a table used as a set *)
  h_parents : gmap positive positive;       (* [node.parents], a reference to an array *)
  h_arrays : gmap positive (list Node);     (* array objects *)
}.

Definition with_locals (f : gmap positive (gset string) → gmap positive (gset string))
    (h : heap) : heap :=
  Heap (f (h_locals h)) (h_parents h) (h_arrays h).
Definition with_parents (f : gmap positive positive → gmap positive positive)
    (h : heap) : heap :=
  Heap (h_locals h) (f (h_parents h)) (h_arrays h).
Definition with_arrays (f : gmap positive (list Node) → gmap positive (list Node))
    (h : heap) : heap :=
  Heap (h_locals h) (h_parents h) (f (h_arrays h)).

(** ** Computations: state passing with exceptions *)
Definition M (A : Type) : Type := heap → result A * heap.

Definition ret {A} (a : A) : M A := λ h, (Return a, h).
Definition throw {A} (e : exn) : M A := λ h, (Throw e, h).
Definition bind {A B} (m : M A) (k : A → M B) : M B :=
  λ h, match m h with
       | (Return a, h') => k a h'
       | (Throw e, h') => (Throw e, h')
       end.

Declare Scope js_scope.
Delimit Scope js_scope with js.
Notation "'let*' x ':=' m 'in' k" := (bind m (λ x, k))
  (at level 10, x name, m at level 100, k at level 200) : js_scope.
Notation "m '>>>' k" := (bind m (λ _, k))
  (at level 90, right associativity) : js_scope.
Local Open Scope js_scope.

(** [l.forEach(f)] *)
Definition forEach {A} (f : A → M unit) : list A → M unit :=
  fix each (l : list A) : M unit :=
    match l with
    | [] => ret tt
    | x :: rest => f x >>> each rest
    end.

(** *** Arrays *)

(** [[]] or [a.slice()]: a new array object holding [l]. *)
Definition new_array (l : list Node) : M positive :=
  λ h, let a := fresh (dom (h_arrays h)) in
       (Return a, with_arrays <[a := l]> h).

Definition array_elems (a : positive) : M (list Node) :=
  λ h, (Return (default [] (h_arrays h !! a)), h).

Definition array_push (a : positive) (x : Node) : M unit :=
  λ h, (Return tt, with_arrays (alter (λ l, l ++ [x]) a) h).

Definition array_pop (a : positive) : M unit :=
  λ h, (Return tt, with_arrays (alter (λ l, removelast l) a) h).

Definition array_slice (a : positive) : M positive :=
  let* l := array_elems a in new_array l.

(** *** The fields the analysis attaches *)

Definition get_locals (n : Node) : M (option (gset string)) :=
  λ h, (Return (h_locals h !! nid n), h).

(** [n.locals = n.locals || Object.create(null)] *)
Definition ensure_locals (n : Node) : M unit :=
  λ h, match h_locals h !! nid n with
       | Some _ => (Return tt, h)
       | None => (Return tt, with_locals <[nid n := ∅]> h)
       end.

(** [n.locals[x] = true]; a [TypeError] when [n.locals] is undefined. *)
Definition set_local (n : Node) (x : string) : M unit :=
  λ h, match h_locals h !! nid n with
       | Some t => (Return tt, with_locals <[nid n := t ∪ {[x]}]> h)
       | None => (Throw (TypeError "Cannot set properties of undefined"), h)
       end.

(** [n.parents = a] *)
Definition set_parents (n : Node) (a : positive) : M unit :=
  λ h, (Return tt, with_parents <[nid n := a]> h).

(** ** index.js *)

Definition isScope (node : Node) : bool :=
  String.eqb (type node) "FunctionExpression"
  || String.eqb (type node) "FunctionDeclaration"
  || String.eqb (type node) "ArrowFunctionExpression"
  || String.eqb (type node) "Program".

Definition isBlockScope (node : Node) : bool :=
  String.eqb (type node) "BlockStatement" || isScope node.

Definition declaresArguments (node : Node) : bool :=
  String.eqb (type node) "FunctionExpression"
  || String.eqb (type node) "FunctionDeclaration".

Definition declaresThis (node : Node) : bool :=
  String.eqb (type node) "FunctionExpression"
  || String.eqb (type node) "FunctionDeclaration".

(** [a || b] on two fields holding a node or nothing. *)
Definition or_else (a b : option Node) : option Node :=
  match a with
  | Some _ => a
  | None => b
  end.

Definition null_type : exn :=
  TypeError "Cannot read properties of null (reading 'type')".

(** [declarePattern] applied to a node object. *)
Fixpoint declarePattern_at (node : Node) (parent : Node) {struct node} : M unit :=
  match node with
  | mkNode _ ty nm _ _ _ _ _ _ _ props elems _ arg lft _ =>
    if String.eqb ty "Identifier" then
      set_local parent nm
    else if String.eqb ty "ObjectPattern" then
      (fix each (l : list Node) : M unit :=
         match l with
         | [] => ret tt
         | mkNode _ _ _ _ _ _ _ _ _ _ _ _ v a _ _ :: rest =>
           match or_else v a with
           | Some q => declarePattern_at q parent
           | None => throw null_type
           end >>> each rest
         end) props
    else if String.eqb ty "ArrayPattern" then
      (fix each (l : list (option Node)) : M unit :=
         match l with
         | [] => ret tt
         | e :: rest =>
           match e with
           | Some q => declarePattern_at q parent
           | None => ret tt
           end >>> each rest
         end) elems
    else if String.eqb ty "RestElement" then
      match arg with
      | Some q => declarePattern_at q parent
      | None => throw null_type
      end
    else if String.eqb ty "AssignmentPattern" then
      match lft with
      | Some q => declarePattern_at q parent
      | None => throw null_type
      end
    else
      throw (Error (String.append "Unrecognized pattern type: " ty))
  end.

(** [declarePattern(node, parent)]; [node] may be null, and reading
    [node.type] then raises. *)
Definition declarePattern (node : option Node) (parent : Node) : M unit :=
  match node with
  | Some n => declarePattern_at n parent
  | None => throw null_type
  end.

(** The loop
    [for (let i = start - 1; i >= 0 && parent === null; i--)
       if (test(parents[i])) parent = parents[i];]
    run from [parent = null]; the result is the final [parent]. *)
Fixpoint nearest_below (test : Node → bool) (parents : list Node) (start : nat)
    : option Node :=
  match start with
  | 0 => None
  | S i =>
    match parents !! i with
    | Some p => if test p then Some p else nearest_below test parents i
    | None => nearest_below test parents i
    end
  end.

Definition null_locals : exn :=
  TypeError "Cannot read properties of null (reading 'locals')".

Definition declareFunction (node : Node) : M unit :=
  let fn := node in
  ensure_locals fn >>>
  forEach (λ node, declarePattern (Some node) fn) (params node) >>>
  match id node with
  | Some i => set_local fn (name i)
  | None => ret tt
  end.

Definition declareClass (node : Node) : M unit :=
  ensure_locals node >>>
  match id node with
  | Some i => set_local node (name i)
  | None => ret tt
  end.

Definition declareModuleSpecifier (ast : Node) (node : Node) : M unit :=
  ensure_locals ast >>>
  match local node with
  | Some l => set_local ast (name l)
  | None => throw (TypeError "Cannot read properties of undefined (reading 'name')")
  end.

(** A visitor receives the node and the walker's array of ancestors. *)
Definition visitor : Type := Node → positive → M unit.

Definition VariableDeclaration_visitor : visitor := λ node parents,
  let* ps := array_elems parents in
  let test := if String.eqb (kind node) "var" then isScope else isBlockScope in
  match nearest_below test ps (length ps) with
  | None => throw null_locals
  | Some parent =>
    ensure_locals parent >>>
    forEach (λ declaration, declarePattern (id declaration) parent)
            (declarations node)
  end.

Definition FunctionDeclaration_visitor : visitor := λ node parents,
  let* ps := array_elems parents in
  match nearest_below isScope ps (length ps - 1) with
  | None => throw null_locals
  | Some parent =>
    ensure_locals parent >>>
    match id node with
    | Some i => set_local parent (name i)
    | None => ret tt
    end >>>
    declareFunction node
  end.

Definition ClassDeclaration_visitor : visitor := λ node parents,
  let* ps := array_elems parents in
  match nearest_below isBlockScope ps (length ps - 1) with
  | None => throw null_locals
  | Some parent =>
    ensure_locals parent >>>
    match id node with
    | Some i => set_local parent (name i)
    | None => ret tt
    end >>>
    declareClass node
  end.

Definition TryStatement_visitor : visitor := λ node _,
  match handler node with
  | None => ret tt
  | Some hd =>
    ensure_locals hd >>>
    declarePattern (param hd) hd
  end.

(** The visitor table of the first walk. *)
Definition scope_visitors (ast : Node) (type : string) : option visitor :=
  if String.eqb type "VariableDeclaration" then Some VariableDeclaration_visitor
  else if String.eqb type "FunctionDeclaration" then Some FunctionDeclaration_visitor
  else if String.eqb type "Function" then Some (λ node _, declareFunction node)
  else if String.eqb type "ClassDeclaration" then Some ClassDeclaration_visitor
  else if String.eqb type "Class" then Some (λ node _, declareClass node)
  else if String.eqb type "TryStatement" then Some TryStatement_visitor
  else if String.eqb type "ImportDefaultSpecifier" then
    Some (λ node _, declareModuleSpecifier ast node)
  else if String.eqb type "ImportSpecifier" then
    Some (λ node _, declareModuleSpecifier ast node)
  else if String.eqb type "ImportNamespaceSpecifier" then
    Some (λ node _, declareModuleSpecifier ast node)
  else None.

(** The loop of [identifier]: [true] when it returns from inside the loop. *)
Fixpoint identifier_loop (name : string) (ps : list Node) : M bool :=
  match ps with
  | [] => ret false
  | p :: rest =>
    if String.eqb name "arguments" && declaresArguments p then ret true
    else
      let* t := get_locals p in
      match t with
      | Some t => if bool_decide (name ∈ t) then ret true
                  else identifier_loop name rest
      | None => identifier_loop name rest
      end
  end.

Definition identifier (globals : positive) : visitor := λ node parents,
  let name := name node in
  if String.eqb name "undefined" then ret tt
  else
    let* ps := array_elems parents in
    let* bound := identifier_loop name ps in
    if bound then ret tt
    else
      let* copy := array_slice parents in
      set_parents node copy >>>
      array_push globals node.

Definition ThisExpression_visitor (globals : positive) : visitor := λ node parents,
  let* ps := array_elems parents in
  if existsb declaresThis ps then ret tt
  else
    let* copy := array_slice parents in
    set_parents node copy >>>
    array_push globals node.

(** The visitor table of the second walk. *)
Definition reference_visitors (globals : positive) (type : string) : option visitor :=
  if String.eqb type "VariablePattern" then Some (identifier globals)
  else if String.eqb type "Identifier" then Some (identifier globals)
  else if String.eqb type "ThisExpression" then Some (ThisExpression_visitor globals)
  else None.

(** ** The tree walk

    Modelled from the spec: the walk of sections 4.2 and 4.3, "visiting every
    node with access to its full ancestor chain", which the program obtains
    from [walk.ancestor] of the acorn-walk package (not among this
    repository's sources).  One [visit] is one call [c(node, st, override)]
    of the walker; [inner] are the calls its base visitor makes in turn, in
    order.  The walker keeps one array of ancestors, pushes the node unless
    it is already on top, runs the base visitor, then calls the visitor
    registered for [override || node.type] with that same array, and pops. *)
Local Unset Elimination Schemes.
Inductive visit : Type :=
| Visit (override : option string) (node : Node) (inner : list visit).
Local Set Elimination Schemes.

(** [node !== ancestors[ancestors.length - 1]] *)
Definition is_new (anc : list Node) (node : Node) : bool :=
  match last anc with
  | Some top => negb (same_object node top)
  | None => true
  end.

Fixpoint walk_c (visitors : string → option visitor) (ancestors : positive)
    (v : visit) {struct v} : M unit :=
  match v with
  | Visit override node inner =>
    let type := default (type node) override in
    let* anc := array_elems ancestors in
    let isNew := is_new anc node in
    (if isNew then array_push ancestors node else ret tt) >>>
    forEach (walk_c visitors ancestors) inner >>>
    match visitors type with
    | Some found => found node ancestors
    | None => ret tt
    end >>>
    (if isNew then array_pop ancestors else ret tt)
  end.

Definition walk_ancestor (root : visit) (visitors : string → option visitor) : M unit :=
  let* ancestors := new_array [] in
  walk_c visitors ancestors root.

(** ** Grouping *)

Record Group := mkGroup {
  group_name : string;
  group_nodes : list Node;
}.

Definition global_name (node : Node) : string :=
  if String.eqb (type node) "ThisExpression" then "this" else name node.

(** One step of [globals.forEach]: the table maps a name to its array. *)
Definition add_global (groupedGlobals : gmap string (list Node)) (node : Node)
    : gmap string (list Node) :=
  let name := global_name node in
  <[name := default [] (groupedGlobals !! name) ++ [node]]> groupedGlobals.

Definition groupedGlobals (globals : list Node) : gmap string (list Node) :=
  foldl add_global ∅ globals.

(** *** The order of strings

    A JS string is a sequence of UTF-16 code units, and
    [Array.prototype.sort] without a comparator orders strings by them.  A
    string is held here as the bytes of its UTF-8 encoding, so the code
    units are computed from the bytes: [code_points] decodes well-formed
    UTF-8 (shortest form, no surrogates, at most U+10FFFF).  Bytes that are
    not well-formed UTF-8 have no counterpart in a JS string; such a byte
    is kept as a unit of its own. *)
Definition continuation (b : N) : bool := (128 <=? b)%N && (b <? 192)%N.

Fixpoint code_points (bytes : list N) : list N :=
  match bytes with
  | [] => []
  | b0 :: r0 =>
    match r0 with
    | b1 :: r1 =>
      let two := ((b0 - 192) * 64 + (b1 - 128))%N in
      if (192 <=? b0)%N && (b0 <? 224)%N && continuation b1 && (128 <=? two)%N then
        two :: code_points r1
      else
        match r1 with
        | b2 :: r2 =>
          let three := ((b0 - 224) * 4096 + (b1 - 128) * 64 + (b2 - 128))%N in
          if (224 <=? b0)%N && (b0 <? 240)%N && continuation b1 && continuation b2
             && (2048 <=? three)%N && negb ((55296 <=? three)%N && (three <? 57344)%N)
          then three :: code_points r2
          else
            match r2 with
            | b3 :: r3 =>
              let four := ((b0 - 240) * 262144 + (b1 - 128) * 4096
                           + (b2 - 128) * 64 + (b3 - 128))%N in
              if (240 <=? b0)%N && (b0 <? 248)%N && continuation b1
                 && continuation b2 && continuation b3
                 && (65536 <=? four)%N && (four <? 1114112)%N
              then four :: code_points r3
              else b0 :: code_points r0
            | [] => b0 :: code_points r0
            end
        | [] => b0 :: code_points r0
        end
    | [] => [b0]
    end
  end.

(** The code units of a code point: itself, or a surrogate pair. *)
Definition utf16 (cp : N) : list N :=
  if (cp <? 65536)%N then [cp]
  else [(55296 + (cp - 65536) / 1024)%N; (56320 + (cp - 65536) mod 1024)%N].

Definition code_units (s : string) : list N :=
  flat_map utf16 (code_points (Ascii.N_of_ascii <$> String.list_ascii_of_string s)).

(** [x < y] or [x === y] on strings: at the first position where they
    differ the unit of [x] is the smaller, or [x] ends first. *)
Fixpoint units_le (x y : list N) : bool :=
  match x, y with
  | [], _ => true
  | _ :: _, [] => false
  | a :: x', b :: y' =>
    if (a <? b)%N then true else if (b <? a)%N then false else units_le x' y'
  end.

Definition string_le (a b : string) : Prop :=
  units_le (code_units a) (code_units b) = true.

Global Instance string_le_dec : RelDecision string_le.
Proof. intros a b. unfold string_le. apply _. Defined.

(** [Object.keys(grouped).sort()]: every key once; the order in which the
    keys are enumerated does not survive the sort. *)
Definition sorted_keys (grouped : gmap string (list Node)) : list string :=
  merge_sort string_le (map fst (map_to_list grouped)).

Definition report (globals : list Node) : list Group :=
  let grouped := groupedGlobals globals in
  map (λ name, mkGroup name (default [] (grouped !! name))) (sorted_keys grouped).

(** ** Parsing and the entry point *)

Inductive jsval :=
| JBool (b : bool)
| JNum (n : Z)
| JStr (s : string).

Record Parsed := mkParsed {
  ast : option Node;
  parsingError : option string;
}.

(** What the caller passes as [source]: a string, an object, or anything
    else. *)
Inductive Source :=
| SourceText (s : string)
| SourceObject (node : Node)
| SourceOther.

Record Output := mkOutput {
  out_ast : Node;
  out_globals : list Group;
  out_parsingError : option string;
}.

Definition forced_options : gmap string jsval :=
  <["allowReturnOutsideFunction" := JBool true]>
  (<["allowImportExportEverywhere" := JBool true]>
  (<["allowHashBang" := JBool true]>
  (<["locations" := JBool true]> ∅))).

Section Analysis.

(** The two parsers and the base visitor of the walker are other packages:
    [acorn_parse] returns the AST or the error it throws,
    [acornLoose_parse] always returns an AST, and [base node] lists the
    calls the walker's base visitor makes below the root [node]. *)
Variable acorn_parse : string → gmap string jsval → acorn_error + Node.
Variable acornLoose_parse : string → gmap string jsval → Node.
Variable base : Node → list visit.

Definition reallyParse (source : string) (options : gmap string jsval)
    (fallbackToLoose : bool) : result Parsed :=
  let parseOptions := forced_options ∪ options in
  match acorn_parse source parseOptions with
  | inr acornParseResult => Return (mkParsed (Some acornParseResult) None)
  | inl err =>
    if fallbackToLoose then
      Return (mkParsed (Some (acornLoose_parse source parseOptions))
                       (Some (message err)))
    else Throw (ParseError err)
  end.

Definition not_a_program : exn :=
  TypeError "Source must be either a string of JavaScript or an acorn AST".

(** The first [walk.ancestor] call: binding tables are attached. *)
Definition build_scopes (ast : Node) : M unit :=
  walk_ancestor (Visit None ast (base ast)) (scope_visitors ast).

(** The second [walk.ancestor] call: references are classified. *)
Definition classify_references (ast : Node) (globals : positive) : M unit :=
  walk_ancestor (Visit None ast (base ast)) (reference_visitors globals).

Definition parseWithGlobals (source : Source) (options : option (gmap string jsval))
    (fallbackToLoose : bool) : M Output :=
  let options := default ∅ options in
  let* globals := new_array [] in
  let* parsed :=
    match source with
    | SourceText s => λ h, (reallyParse s options fallbackToLoose, h)
    | SourceObject node => ret (mkParsed (Some node) None)
    | SourceOther => ret (mkParsed None None)
    end in
  match ast parsed with
  | None => throw not_a_program
  | Some ast =>
    if negb (String.eqb (type ast) "Program") then throw not_a_program
    else
      build_scopes ast >>>
      classify_references ast globals >>>
      let* found := array_elems globals in
      ret (mkOutput ast (report found) (parsingError parsed))
  end.

End Analysis.

(** ** Sample programs *)
Module Sample.

Definition blank (i : positive) (ty : string) : Node :=
  mkNode i ty "" "" None [] [] None None None [] [] None None None 0.

Definition Identifier (i : positive) (x : string) : Node :=
  mkNode i "Identifier" x "" None [] [] None None None [] [] None None None 0.

Definition VariableDeclarator (i : positive) (pattern : Node) : Node :=
  mkNode i "VariableDeclarator" "" "" (Some pattern) [] [] None None None [] [] None None None 0.

Definition VariableDeclaration (i : positive) (kind : string) (ds : list Node) : Node :=
  mkNode i "VariableDeclaration" "" kind None [] ds None None None [] [] None None None 0.

Definition FunctionDeclaration (i : positive) (name : option Node) (ps : list Node) : Node :=
  mkNode i "FunctionDeclaration" "" "" name ps [] None None None [] [] None None None 0.

Definition ClassDeclaration (i : positive) (name : option Node) : Node :=
  mkNode i "ClassDeclaration" "" "" name [] [] None None None [] [] None None None 0.

Definition CatchClause (i : positive) (binding : option Node) : Node :=
  mkNode i "CatchClause" "" "" None [] [] None binding None [] [] None None None 0.

Definition TryStatement (i : positive) (clause : option Node) : Node :=
  mkNode i "TryStatement" "" "" None [] [] clause None None [] [] None None None 0.

(** A node visited through an override and then as itself. *)
Definition through (override : string) (n : Node) (inner : list visit) : visit :=
  Visit (Some override) n [Visit None n inner].

Definition no_parser (_ : string) (_ : gmap string jsval) : acorn_error + Node :=
  inl (AcornError "Unexpected token (1:0)" 0 0).

Definition empty_heap : heap := Heap ∅ ∅ ∅.

(** [x;] *)
Definition x_ref : Node := Identifier 3 "x".
Definition x_stmt : Node := blank 2 "ExpressionStatement".
Definition x_program : Node := blank 1 "Program".
Definition x_base (_ : Node) : list visit :=
  [through "Statement" x_stmt [through "Expression" x_ref []]].
Definition loose_program (_ : string) (_ : gmap string jsval) : Node := x_program.

(** The heap when the visitor of [x] runs in the second walk: array 1 is
    [globals], array 2 the walker's ancestors. *)
Definition x_chain : list Node := [x_program; x_stmt; x_ref].
Definition x_heap : heap := Heap ∅ ∅ (<[1%positive := []]> (<[2%positive := x_chain]> ∅)).

(** [this;] at the top level. *)
Definition this_ref : Node := blank 3 "ThisExpression".
Definition this_chain : list Node := [x_program; x_stmt; this_ref].
Definition this_heap : heap :=
  Heap ∅ ∅ (<[1%positive := []]> (<[2%positive := this_chain]> ∅)).

(** [function f(p) { { var a; } }]: the declaration of [a] in its block. *)
Definition f_decl : Node :=
  FunctionDeclaration 2 (Some (Identifier 3 "f")) [Identifier 4 "p"].
Definition f_body : Node := blank 5 "BlockStatement".
Definition a_block : Node := blank 6 "BlockStatement".
Definition a_decl : Node :=
  VariableDeclaration 7 "var" [VariableDeclarator 8 (Identifier 9 "a")].
Definition a_heap : heap :=
  Heap ∅ ∅ (<[2%positive := [x_program; f_decl; f_body; a_block; a_decl]]> ∅).

(** The heap when the visitor of the declaration of [f] runs. *)
Definition f_heap : heap := Heap ∅ ∅ (<[2%positive := [x_program; f_decl]]> ∅).

(** [class C {}] *)
Definition c_decl : Node := ClassDeclaration 2 (Some (Identifier 3 "C")).
Definition c_heap : heap := Heap ∅ ∅ (<[2%positive := [x_program; c_decl]]> ∅).

(** [export default function (p) {}] and [export default class {}] *)
Definition anon_export : Node := blank 10 "ExportDefaultDeclaration".
Definition anon_f : Node := FunctionDeclaration 2 None [Identifier 4 "p"].
Definition anon_f_heap : heap :=
  Heap ∅ ∅ (<[2%positive := [x_program; anon_export; anon_f]]> ∅).
Definition anon_c : Node := ClassDeclaration 2 None.
Definition anon_c_heap : heap :=
  Heap ∅ ∅ (<[2%positive := [x_program; anon_export; anon_c]]> ∅).

(** [try {} catch {}] *)
Definition try_block : Node := blank 3 "BlockStatement".
Definition try_catch_body : Node := blank 5 "BlockStatement".
Definition try_clause : Node := CatchClause 4 None.
Definition try_stmt : Node := TryStatement 2 (Some try_clause).
Definition try_program : Node := blank 1 "Program".
Definition try_base (_ : Node) : list visit :=
  [through "Statement" try_stmt
     [through "Statement" try_block [];
      Visit None try_clause [through "Statement" try_catch_body []]]].

(** [var a; a; b; this;] *)
Definition var_pattern : Node := Identifier 4 "a".
Definition var_decl : Node :=
  VariableDeclaration 2 "var" [VariableDeclarator 3 var_pattern].
Definition var_a : Node := Identifier 6 "a".
Definition var_b : Node := Identifier 8 "b".
Definition var_this : Node := blank 10 "ThisExpression".
Definition var_program : Node := blank 1 "Program".
Definition var_base (_ : Node) : list visit :=
  [through "Statement" var_decl
     [Visit None (VariableDeclarator 3 var_pattern)
        [Visit (Some "Pattern") var_pattern
           [Visit (Some "VariablePattern") var_pattern []]]];
   through "Statement" (blank 5 "ExpressionStatement") [through "Expression" var_a []];
   through "Statement" (blank 7 "ExpressionStatement") [through "Expression" var_b []];
   through "Statement" (blank 9 "ExpressionStatement") [through "Expression" var_this []]].

(** [function f(p) { p; arguments; q; this; } f;] *)
Definition fn_name : Node := Identifier 3 "f".
Definition fn_param : Node := Identifier 4 "p".
Definition fn_decl : Node := FunctionDeclaration 2 (Some fn_name) [fn_param].
Definition fn_p : Node := Identifier 7 "p".
Definition fn_arguments : Node := Identifier 9 "arguments".
Definition fn_q : Node := Identifier 11 "q".
Definition fn_this : Node := blank 13 "ThisExpression".
Definition fn_f : Node := Identifier 15 "f".
Definition fn_program : Node := blank 1 "Program".
Definition fn_base (_ : Node) : list visit :=
  [through "Statement" fn_decl
     [Visit (Some "Function") fn_decl
        [Visit (Some "Pattern") fn_name [Visit (Some "VariablePattern") fn_name []];
         Visit (Some "Pattern") fn_param [Visit (Some "VariablePattern") fn_param []];
         through "Statement" (blank 5 "BlockStatement")
           [through "Statement" (blank 6 "ExpressionStatement")
              [through "Expression" fn_p []];
            through "Statement" (blank 8 "ExpressionStatement")
              [through "Expression" fn_arguments []];
            through "Statement" (blank 10 "ExpressionStatement")
              [through "Expression" fn_q []];
            through "Statement" (blank 12 "ExpressionStatement")
              [through "Expression" fn_this []]]]];
   through "Statement" (blank 14 "ExpressionStatement") [through "Expression" fn_f []]].

End Sample.

(** * Specification-level notions *)

(** The scope kinds in the words of the specification. *)
Definition function_like (n : Node) : Prop :=
  type n = "Program" ∨ type n = "FunctionDeclaration"
  ∨ type n = "FunctionExpression" ∨ type n = "ArrowFunctionExpression".

Definition block_scope (n : Node) : Prop :=
  type n = "BlockStatement" ∨ function_like n.

Definition plain_function (n : Node) : Prop :=
  type n = "FunctionDeclaration" ∨ type n = "FunctionExpression".

(** Declaring the names [S] into the binding table of the node with identity
    [k]: the table is created when the node has none, and only grows. *)
Definition declare (k : positive) (S : gset string)
    (L : gmap positive (gset string)) : gmap positive (gset string) :=
  <[k := default ∅ (L !! k) ∪ S]> L.

(** The name [x] is in the binding table of the node with identity [k]. *)
Definition declared_in (L : gmap positive (gset string)) (k : positive) (x : string)
    : Prop :=
  ∃ t, L !! k = Some t ∧ x ∈ t.

(** The names a binding pattern introduces, following section 4.1: a plain
    name; the value sub-pattern of each property of an object pattern, or the
    argument of a rest property; the present elements of an array pattern;
    the argument of a rest element; the left-hand target of a default-value
    pattern. *)
Fixpoint bound_names (n : Node) {struct n} : gset string :=
  match n with
  | mkNode _ ty nm _ _ _ _ _ _ _ props elems _ arg lft _ =>
    if String.eqb ty "Identifier" then {[nm]}
    else if String.eqb ty "ObjectPattern" then
      (fix each (l : list Node) : gset string :=
         match l with
         | [] => ∅
         | mkNode _ _ _ _ _ _ _ _ _ _ _ _ v a _ _ :: rest =>
           match or_else v a with
           | Some q => bound_names q
           | None => ∅
           end ∪ each rest
         end) props
    else if String.eqb ty "ArrayPattern" then
      (fix each (l : list (option Node)) : gset string :=
         match l with
         | [] => ∅
         | e :: rest =>
           match e with
           | Some q => bound_names q
           | None => ∅
           end ∪ each rest
         end) elems
    else if String.eqb ty "RestElement" then
      match arg with Some q => bound_names q | None => ∅ end
    else if String.eqb ty "AssignmentPattern" then
      match lft with Some q => bound_names q | None => ∅ end
    else ∅
  end.

(** A pattern made only of the five supported kinds, with every sub-pattern
    present where one is required. *)
Fixpoint supported_pattern (n : Node) {struct n} : bool :=
  match n with
  | mkNode _ ty nm _ _ _ _ _ _ _ props elems _ arg lft _ =>
    if String.eqb ty "Identifier" then true
    else if String.eqb ty "ObjectPattern" then
      (fix each (l : list Node) : bool :=
         match l with
         | [] => true
         | mkNode _ _ _ _ _ _ _ _ _ _ _ _ v a _ _ :: rest =>
           match or_else v a with
           | Some q => supported_pattern q
           | None => false
           end && each rest
         end) props
    else if String.eqb ty "ArrayPattern" then
      (fix each (l : list (option Node)) : bool :=
         match l with
         | [] => true
         | e :: rest =>
           match e with
           | Some q => supported_pattern q
           | None => true
           end && each rest
         end) elems
    else if String.eqb ty "RestElement" then
      match arg with Some q => supported_pattern q | None => false end
    else if String.eqb ty "AssignmentPattern" then
      match lft with Some q => supported_pattern q | None => false end
    else false
  end.

Definition bound_names_list (l : list Node) : gset string :=
  ⋃ (bound_names <$> l).

(** The patterns of the declarators of a variable declaration. *)
Definition declarator_names (ds : list Node) : gset string :=
  ⋃ ((λ d, from_option bound_names ∅ (id d)) <$> ds).

Definition supported_declarators (ds : list Node) : bool :=
  forallb (λ d, from_option supported_pattern false (id d)) ds.

(** * The effect of [declarePattern], statically

    The outcome of [declarePattern] and the names it has added when it
    returns or throws depend on the pattern only. *)
Definition effect : Type := result unit * gset string.

Definition effect_then (e1 e2 : effect) : effect :=
  match e1.1 with
  | Return _ => (e2.1, e1.2 ∪ e2.2)
  | Throw _ => e1
  end.

Fixpoint pattern_effect (n : Node) {struct n} : effect :=
  match n with
  | mkNode _ ty nm _ _ _ _ _ _ _ props elems _ arg lft _ =>
    if String.eqb ty "Identifier" then (Return tt, {[nm]})
    else if String.eqb ty "ObjectPattern" then
      (fix each (l : list Node) : effect :=
         match l with
         | [] => (Return tt, ∅)
         | mkNode _ _ _ _ _ _ _ _ _ _ _ _ v a _ _ :: rest =>
           effect_then
             match or_else v a with
             | Some q => pattern_effect q
             | None => (Throw null_type, ∅)
             end (each rest)
         end) props
    else if String.eqb ty "ArrayPattern" then
      (fix each (l : list (option Node)) : effect :=
         match l with
         | [] => (Return tt, ∅)
         | e :: rest =>
           effect_then
             match e with
             | Some q => pattern_effect q
             | None => (Return tt, ∅)
             end (each rest)
         end) elems
    else if String.eqb ty "RestElement" then
      match arg with Some q => pattern_effect q | None => (Throw null_type, ∅) end
    else if String.eqb ty "AssignmentPattern" then
      match lft with Some q => pattern_effect q | None => (Throw null_type, ∅) end
    else (Throw (Error (String.append "Unrecognized pattern type: " ty)), ∅)
  end.

(** * Static effects of the scope visitors *)

Definition declares_into (k : positive) (m : M unit) (e : effect) : Prop :=
  ∀ h, is_Some (h_locals h !! k) → m h = (e.1, with_locals (declare k e.2) h).

(** [declarePattern] on a field that may be null. *)
Definition pattern_effect_opt (o : option Node) : effect :=
  match o with
  | Some n => pattern_effect n
  | None => (Throw null_type, ∅)
  end.

Definition declarators_effect (ds : list Node) : effect :=
  foldr (λ d, effect_then (pattern_effect_opt (id d))) (Return tt, ∅) ds.

Definition params_effect (ps : list Node) : effect :=
  foldr (λ p, effect_then (pattern_effect p)) (Return tt, ∅) ps.

Definition id_names (o : option Node) : gset string :=
  match o with
  | Some i => {[name i]}
  | None => ∅
  end.

Definition function_effect (node : Node) : effect :=
  effect_then (params_effect (params node)) (Return tt, id_names (id node)).

Definition local_effect (node : Node) : effect :=
  match local node with
  | Some l => (Return tt, {[name l]})
  | None => (Throw (TypeError "Cannot read properties of undefined (reading 'name')"), ∅)
  end.

Definition scope_test (node : Node) : Node → bool :=
  if String.eqb (kind node) "var" then isScope else isBlockScope.


(** * The reference visitors, statically *)

(** [p.locals && x in p.locals] *)
Definition table_has (L : gmap positive (gset string)) (p : Node) (x : string) : bool :=
  match L !! nid p with
  | Some t => bool_decide (x ∈ t)
  | None => false
  end.

(** Some entry of the chain makes the loop of [identifier] return. *)
Definition bound_in (L : gmap positive (gset string)) (x : string) (chain : list Node)
    : bool :=
  existsb (λ p, String.eqb x "arguments" && declaresArguments p || table_has L p x) chain.

(** The heap after [node.parents = parents.slice(); globals.push(node)],
    where [chain] is what the array [parents] holds. *)
Definition record_global (globals : positive) (node : Node) (chain : list Node)
    (h : heap) : heap :=
  let copy := fresh (dom (h_arrays h)) in
  with_arrays (alter (λ l, l ++ [node]) globals)
    (with_parents <[nid node := copy]>
       (with_arrays <[copy := chain]> h)).

(** * The two walks, statically *)

(** What the array of ancestors holds when the visitor of a visit runs. *)
Definition chain_at (anc : list Node) (node : Node) : list Node :=
  if is_new anc node then anc ++ [node] else anc.

(** The visitor registered for [ty] in the second walk records [node]. *)
Definition is_global (L : gmap positive (gset string)) (ty : string) (node : Node)
    (chain : list Node) : bool :=
  if String.eqb ty "VariablePattern" || String.eqb ty "Identifier" then
    negb (String.eqb (name node) "undefined" || bound_in L (name node) chain)
  else if String.eqb ty "ThisExpression" then
    negb (existsb declaresThis chain)
  else false.

(** The nodes the second walk records, in the order of the visitor calls,
    when the binding tables are [L] and the walk of [v] starts below the
    ancestors [anc]. *)
Fixpoint free_references (L : gmap positive (gset string)) (anc : list Node)
    (v : visit) {struct v} : list Node :=
  match v with
  | Visit override node inner =>
    let chain := chain_at anc node in
    flat_map (free_references L chain) inner
    ++ (if is_global L (default (type node) override) node chain then [node] else [])
  end.

(** A sequence of declarations into binding tables. *)
Definition apply_ops (ops : list (positive * gset string))
    (L : gmap positive (gset string)) : gmap positive (gset string) :=
  foldl (λ L op, declare op.1 op.2 L) L ops.

(** The heap [h'] differs from [h] by the declarations [ops], and the array
    of ancestors holds [chain]. *)
Definition scoped (anc : positive) (chain : list Node)
    (ops : list (positive * gset string)) (h h' : heap) : Prop :=
  h_locals h' = apply_ops ops (h_locals h)
  ∧ h_parents h' = h_parents h
  ∧ h_arrays h' !! anc = Some chain
  ∧ ∀ a, a ≠ anc → h_arrays h' !! a = h_arrays h !! a.

(** The heap [h'] differs from [h] by the recording of [refs] into the array
    [g]: tables are the same, only the recorded nodes have a new [parents],
    and the arrays that existed, but [g] and the array of ancestors, are the
    same. *)
Definition classified (g anc : positive) (chain : list Node) (refs : list Node)
    (h h' : heap) : Prop :=
  h_locals h' = h_locals h
  ∧ h_arrays h' !! anc = Some chain
  ∧ (∀ found, h_arrays h !! g = Some found → h_arrays h' !! g = Some (found ++ refs))
  ∧ (∀ k, k ∉ nid <$> refs → h_parents h' !! k = h_parents h !! k)
  ∧ (∀ a, is_Some (h_arrays h !! a) → a ≠ anc → a ≠ g →
          h_arrays h' !! a = h_arrays h !! a).

(** The table [L] already holds what the declaration [op] adds. *)
Definition absorbs (L : gmap positive (gset string)) (op : positive * gset string)
    : Prop :=
  ∃ t, L !! op.1 = Some t ∧ op.2 ⊆ t.

(** The root call [c(ast, undefined, undefined)] of a walk. *)
Definition root_visit (base : Node → list visit) (ast : Node) : visit :=
  Visit None ast (base ast).

(** The visitor calls of a walk, listed in the order in which the walker
    enters the visits (pre-order), each with the type it is made under and
    the chain of ancestors it receives. *)
Fixpoint preorder_calls (anc : list Node) (v : visit) {struct v}
    : list (string * Node * list Node) :=
  match v with
  | Visit override node inner =>
    let chain := chain_at anc node in
    (default (type node) override, node, chain)
    :: flat_map (preorder_calls chain) inner
  end.

Definition is_reference_type (ty : string) : bool :=
  String.eqb ty "VariablePattern" || String.eqb ty "Identifier"
  || String.eqb ty "ThisExpression".

(** The visits made under a type the second walk has a visitor for are
    leaves of the walk, as identifiers and [this] have no children. *)
Fixpoint reference_leaves (v : visit) {struct v} : bool :=
  match v with
  | Visit override node inner =>
    (if is_reference_type (default (type node) override)
     then match inner with [] => true | _ => false end
     else true)
    && forallb reference_leaves inner
  end.

(** The nodes of the calls that record their node. *)
Definition globals_of (L : gmap positive (gset string))
    (calls : list (string * Node * list Node)) : list Node :=
  flat_map (λ c, if is_global L c.1.1 c.1.2 c.2 then [c.1.2] else []) calls.

(** ** Sample patterns *)
Module Patterns.

Definition Property (i : positive) (v : Node) : Node :=
  mkNode i "Property" "" "" None [] [] None None None [] [] (Some v) None None 0.

Definition ObjectPattern (i : positive) (props : list Node) : Node :=
  mkNode i "ObjectPattern" "" "" None [] [] None None None props [] None None None 0.

Definition ArrayPattern (i : positive) (elems : list (option Node)) : Node :=
  mkNode i "ArrayPattern" "" "" None [] [] None None None [] elems None None None 0.

Definition RestElement (i : positive) (arg : Node) : Node :=
  mkNode i "RestElement" "" "" None [] [] None None None [] [] None (Some arg) None 0.

Definition AssignmentPattern (i : positive) (target : Node) : Node :=
  mkNode i "AssignmentPattern" "" "" None [] [] None None None [] [] None None (Some target) 0.

(** [{a, b: [c, , ...d], e = 1}] *)
Definition destructuring : Node :=
  ObjectPattern 20
    [Property 21 (Sample.Identifier 22 "a");
     Property 23
       (ArrayPattern 24
          [Some (Sample.Identifier 25 "c"); None;
           Some (RestElement 26 (Sample.Identifier 27 "d"))]);
     Property 28 (AssignmentPattern 29 (Sample.Identifier 30 "e"))].

(** [[a, o.p]]: a member expression is no binding pattern. *)
Definition with_member : Node :=
  ArrayPattern 20
    [Some (Sample.Identifier 21 "a"); Some (Sample.blank 22 "MemberExpression")].

(** [import fs from "fs"]: the default specifier. *)
Definition import_fs : Node :=
  mkNode 31 "ImportDefaultSpecifier" "" "" None [] [] None None
    (Some (Sample.Identifier 32 "fs")) [] [] None None None 0.

(** [try {} catch (e) {}] *)
Definition catch_e : Node := Sample.CatchClause 41 (Some (Sample.Identifier 42 "e")).
Definition try_e : Node := Sample.TryStatement 40 (Some catch_e).

(** A strict parser that accepts its input. *)
Definition ok_parser (_ : string) (_ : gmap string jsval) : acorn_error + Node :=
  inr Sample.x_program.

(** A heap in which the program node has an empty binding table. *)
Definition table_heap : heap := Heap (<[1%positive := ∅]> ∅) ∅ ∅.

End Patterns.

(** The keys of the options the program sets itself. *)
Definition forced_keys : list string :=
  ["allowReturnOutsideFunction"; "allowImportExportEverywhere"; "allowHashBang";
   "locations"].

(** The node of a visit. *)
Definition visit_node (v : visit) : Node :=
  match v with
  | Visit _ node _ => node
  end.

(** In [h'] the node [n] carries a snapshot: its [parents] is an array that
    did not exist in [h], is neither the array of ancestors nor the array
    of globals, and holds a chain that starts with [start] and ends with
    [n] itself. *)
Definition snapshot_of (g anc : positive) (start : list Node) (h h' : heap)
    (n : Node) : Prop :=
  ∃ a chain top,
    h_parents h' !! nid n = Some a
    ∧ a ≠ anc ∧ a ≠ g
    ∧ h_arrays h !! a = None
    ∧ h_arrays h' !! a = Some chain
    ∧ start `prefix_of` chain
    ∧ last chain = Some top ∧ nid top = nid n.

(** The node [n] carries, in [h'], an array made after [h] that holds a
    chain from the root [ast] down to [n] itself. *)
Definition carries_chain (ast : Node) (h h' : heap) (n : Node) : Prop :=
  ∃ a chain top,
    h_parents h' !! nid n = Some a
    ∧ h_arrays h !! a = None
    ∧ h_arrays h' !! a = Some chain
    ∧ head chain = Some ast
    ∧ last chain = Some top ∧ nid top = nid n.

(** ** Recorded references and their chains *)

(** The references the second walk records, each with the chain of
    ancestors its visitor receives, in the order of the visitor calls. *)
Fixpoint recorded_chains (L : gmap positive (gset string)) (anc : list Node)
    (v : visit) {struct v} : list (Node * list Node) :=
  match v with
  | Visit override node inner =>
    let chain := chain_at anc node in
    flat_map (recorded_chains L chain) inner
    ++ (if is_global L (default (type node) override) node chain
        then [(node, chain)] else [])
  end.

(** [chain] is the chain under which the object [k] was recorded last
    among [calls]. *)
Definition last_chain_of (k : positive) (calls : list (Node * list Node))
    (chain : list Node) : Prop :=
  ∃ before n after,
    calls = before ++ (n, chain) :: after
    ∧ nid n = k
    ∧ Forall (λ c, nid c.1 ≠ k) after.

(** In [h'] the [parents] of the node [n] is an array that did not exist in
    [h], is neither the array of ancestors nor the array of globals, and
    holds the chain under which [n] was recorded last among [calls]. *)
Definition holds_copy (g anc : positive) (calls : list (Node * list Node))
    (h h' : heap) (n : Node) : Prop :=
  ∃ copy chain,
    h_parents h' !! nid n = Some copy
    ∧ copy ≠ anc ∧ copy ≠ g
    ∧ h_arrays h !! copy = None
    ∧ h_arrays h' !! copy = Some chain
    ∧ last_chain_of (nid n) calls chain.

(** ** Positions in the source text *)

(** The node [n], found at the offset [p]. *)
Definition at_start (p : N) (n : Node) : Node :=
  mkNode (nid n) (type n) (name n) (kind n) (id n) (params n) (declarations n)
    (handler n) (param n) (local n) (properties n) (elements n) (value n)
    (argument n) (left n) p.

(** The nodes come in the order of their positions in the source text. *)
Definition in_source_order (l : list Node) : Prop :=
  StronglySorted N.le (start <$> l).

(** ** Sample programs with positions *)
Module Loops.

(** [do { x; } while (x);]: the [x] of the body is at offset 5, the [x] of
    the test at offset 17. *)
Definition body_x : Node := at_start 5 (Sample.Identifier 6 "x").
Definition test_x : Node := at_start 17 (Sample.Identifier 7 "x").
Definition body_stmt : Node := at_start 5 (Sample.blank 5 "ExpressionStatement").
Definition body : Node := at_start 3 (Sample.blank 4 "BlockStatement").
Definition loop : Node := Sample.blank 2 "DoWhileStatement".
Definition program : Node := Sample.blank 1 "Program".

(** The calls of the walker's base visitor: for a do-while statement, as
    for a while statement, acorn-walk walks the test first and the body
    second. *)
Definition walk_base (_ : Node) : list visit :=
  [Sample.through "Statement" loop
     [Sample.through "Expression" test_x [];
      Sample.through "Statement" body
        [Sample.through "Statement" body_stmt
           [Sample.through "Expression" body_x []]]]].

End Loops.

Module Names.

(** [ｘ; 𝑥; ｘ;]: the name U+FF58 is the code unit FF58, the name U+1D465
    is the surrogate pair D835 DC65, so it sorts first. *)
Definition wide_1 : Node := at_start 0 (Sample.Identifier 3 "ｘ").
Definition math : Node := at_start 3 (Sample.Identifier 5 "𝑥").
Definition wide_2 : Node := at_start 7 (Sample.Identifier 7 "ｘ").
Definition program : Node := Sample.blank 1 "Program".
Definition walk_base (_ : Node) : list visit :=
  [Sample.through "Statement" (at_start 0 (Sample.blank 2 "ExpressionStatement"))
     [Sample.through "Expression" wide_1 []];
   Sample.through "Statement" (at_start 3 (Sample.blank 4 "ExpressionStatement"))
     [Sample.through "Expression" math []];
   Sample.through "Statement" (at_start 7 (Sample.blank 6 "ExpressionStatement"))
     [Sample.through "Expression" wide_2 []]].

End Names.
(** * Reasoning principles *)

(** Induction over the sub-patterns [declarePattern] descends into. *)
Lemma Node_pattern_ind (P : Node → Prop) :
  (∀ n,
     Forall (λ p, ∀ q, or_else (value p) (argument p) = Some q → P q) (properties n) →
     Forall (λ e, ∀ q, e = Some q → P q) (elements n) →
     (∀ q, argument n = Some q → P q) →
     (∀ q, left n = Some q → P q) →
     P n) →
  ∀ n, P n.
Proof.
  intros H. fix IH 1. intros n. apply H;
    destruct n as [i ty nm kd fid ps ds hd pm lc props elems v arg lft]; simpl.
  - induction props as [|p rest IHrest]; constructor; [|exact IHrest].
    destruct p as [i' ty' nm' kd' fid' ps' ds' hd' pm' lc' props' elems' v' arg' lft'].
    simpl. destruct v' as [q'|]; simpl.
    + intros q [= <-]. apply IH.
    + destruct arg' as [q'|]; intros q [= <-]. apply IH.
  - induction elems as [|e rest IHrest]; constructor; [|exact IHrest].
    destruct e as [q'|]; intros q [= <-]. apply IH.
  - destruct arg as [q'|]; intros q [= <-]. apply IH.
  - destruct lft as [q'|]; intros q [= <-]. apply IH.
Qed.

Lemma heap_eta h : Heap (h_locals h) (h_parents h) (h_arrays h) = h.
Proof. by destruct h. Qed.

Lemma with_locals_id f h : f (h_locals h) = h_locals h → with_locals f h = h.
Proof. unfold with_locals. intros ->. apply heap_eta. Qed.

Lemma with_locals_compose f g h :
  with_locals f (with_locals g h) = with_locals (f ∘ g) h.
Proof. done. Qed.

Lemma bind_assoc {A B C} (m : M A) (f : A → M B) (g : B → M C) h :
  bind (bind m f) g h = bind m (λ a, bind (f a) g) h.
Proof. unfold bind. by destruct (m h) as [[a|e] h']. Qed.

Lemma bind_return {A B} (m : M A) (k : A → M B) h a h' :
  m h = (Return a, h') → bind m k h = k a h'.
Proof. unfold bind. by intros ->. Qed.

Lemma bind_throw {A B} (m : M A) (k : A → M B) h e h' :
  m h = (Throw e, h') → bind m k h = (Throw e, h').
Proof. unfold bind. by intros ->. Qed.

(** ** Binding tables *)
Section declare.
Implicit Types (L : gmap positive (gset string)) (S : gset string) (k : positive).

Lemma lookup_declare_eq k S L :
  declare k S L !! k = Some (default ∅ (L !! k) ∪ S).
Proof. apply lookup_insert_eq. Qed.

Lemma lookup_declare_ne k k' S L : k ≠ k' → declare k S L !! k' = L !! k'.
Proof. intros. by apply lookup_insert_ne. Qed.

Lemma lookup_declare_is_Some k k' S L :
  is_Some (L !! k') → is_Some (declare k S L !! k').
Proof.
  intros HL. destruct (decide (k = k')) as [->|Hne].
  - rewrite lookup_declare_eq. eauto.
  - by rewrite lookup_declare_ne.
Qed.

Lemma declare_empty k L : is_Some (L !! k) → declare k ∅ L = L.
Proof.
  intros [t Ht]. unfold declare. rewrite Ht. simpl.
  rewrite (right_id_L ∅ (∪)). by apply insert_id.
Qed.

Lemma declare_declare k S1 S2 L :
  declare k S2 (declare k S1 L) = declare k (S1 ∪ S2) L.
Proof.
  unfold declare. rewrite lookup_insert_eq. simpl.
  rewrite insert_insert_eq. by rewrite (assoc_L (∪)).
Qed.

Lemma declare_subseteq k S L t :
  L !! k = Some t → S ⊆ t → declare k S L = L.
Proof.
  intros Ht HS. unfold declare. rewrite Ht. simpl.
  rewrite (comm_L (∪)), (subseteq_union_1_L _ _ HS). by apply insert_id.
Qed.
End declare.

(** ** Computations that declare into one table *)

Lemma declares_ret k : declares_into k (ret tt) (Return tt, ∅).
Proof.
  intros h Hk. unfold ret. simpl. f_equal. symmetry.
  apply with_locals_id. by apply declare_empty.
Qed.

Lemma declares_throw k x : declares_into k (throw x) (Throw x, ∅).
Proof.
  intros h Hk. unfold throw. simpl. f_equal. symmetry.
  apply with_locals_id. by apply declare_empty.
Qed.

Lemma declares_set_local n x : declares_into (nid n) (set_local n x) (Return tt, {[x]}).
Proof.
  intros h [t Ht]. unfold set_local, with_locals, declare. by rewrite Ht.
Qed.

Lemma declares_bind k m1 m2 e1 e2 :
  declares_into k m1 e1 → declares_into k m2 e2 →
  declares_into k (m1 >>> m2) (effect_then e1 e2).
Proof.
  intros H1 H2 h Hk. unfold bind, effect_then. rewrite (H1 h Hk).
  destruct e1 as [[[]|x] S1]; simpl; [|done].
  rewrite H2; simpl.
  - unfold with_locals. simpl. by rewrite declare_declare.
  - by apply lookup_declare_is_Some.
Qed.

Lemma declares_forEach {A} k (f : A → M unit) (g : A → effect) l :
  (∀ x, declares_into k (f x) (g x)) →
  declares_into k (forEach f l) (foldr (λ x, effect_then (g x)) (Return tt, ∅) l).
Proof.
  intros Hf. induction l as [|x l IH]; simpl.
  - apply declares_ret.
  - by apply declares_bind.
Qed.

Lemma declares_pattern n parent :
  declares_into (nid parent) (declarePattern_at n parent) (pattern_effect n).
Proof.
  induction n as [n Hprops Helems Harg Hleft] using Node_pattern_ind.
  destruct n as [i ty nm kd fid ps ds hd pm lc props elems v arg lft].
  simpl in *.
  repeat case_match; try apply declares_throw.
  - apply declares_set_local.
  - clear Helems Harg Hleft. induction props as [|p rest IH].
    + apply declares_ret.
    + destruct p. simpl in *. apply Forall_cons in Hprops as [Hp Hrest].
      apply declares_bind; [|by apply IH].
      destruct (or_else _ _) as [q|]; [by apply Hp | apply declares_throw].
  - clear Hprops Harg Hleft. induction elems as [|e rest IH].
    + apply declares_ret.
    + apply Forall_cons in Helems as [He Hrest].
      apply declares_bind; [|by apply IH].
      destruct e as [q|]; [by apply He | apply declares_ret].
  - by apply Harg.
  - by apply Hleft.
Qed.

Lemma declares_pattern_opt o parent :
  declares_into (nid parent) (declarePattern o parent) (pattern_effect_opt o).
Proof. destruct o; [apply declares_pattern | apply declares_throw]. Qed.

Lemma ensure_locals_run n h :
  ensure_locals n h = (Return tt, with_locals (declare (nid n) ∅) h).
Proof.
  unfold ensure_locals, with_locals, declare.
  destruct (h_locals h !! nid n) as [t|] eqn:Ht; simpl.
  - f_equal. rewrite (right_id_L ∅ (∪)). rewrite insert_id by done. by destruct h.
  - by rewrite (right_id_L ∅ (∪)).
Qed.

(** After [n.locals = n.locals || Object.create(null)], a computation that
    declares into [n]'s table runs whatever the heap. *)
Lemma ensure_then n m e h :
  declares_into (nid n) m e →
  (ensure_locals n >>> m) h = (e.1, with_locals (declare (nid n) e.2) h).
Proof.
  intros Hm. unfold bind. rewrite ensure_locals_run, Hm.
  - unfold with_locals. simpl. by rewrite declare_declare, (left_id_L ∅ (∪)).
  - simpl. rewrite lookup_declare_eq. eauto.
Qed.

Lemma isScope_function_like n : isScope n = true ↔ function_like n.
Proof.
  unfold isScope, function_like.
  rewrite !orb_true_iff, !String.eqb_eq. tauto.
Qed.

Lemma isBlockScope_block_scope n : isBlockScope n = true ↔ block_scope n.
Proof.
  unfold isBlockScope, block_scope.
  rewrite orb_true_iff, String.eqb_eq, isScope_function_like. tauto.
Qed.

Lemma declaresArguments_plain n : declaresArguments n = true ↔ plain_function n.
Proof.
  unfold declaresArguments, plain_function.
  rewrite orb_true_iff, !String.eqb_eq. tauto.
Qed.

Lemma declaresThis_plain n : declaresThis n = true ↔ plain_function n.
Proof.
  unfold declaresThis, plain_function.
  rewrite orb_true_iff, !String.eqb_eq. tauto.
Qed.

(** ** The search for the owning scope *)

Lemma nearest_below_take test l r n :
  n ≤ length l → nearest_below test (l ++ r) n = nearest_below test l n.
Proof.
  induction n as [|n IH]; intros Hn; simpl; [done|].
  rewrite lookup_app_l by lia. rewrite IH by lia. done.
Qed.

Lemma nearest_below_skip test l r :
  Forall (λ q, test q = false) r →
  nearest_below test (l ++ r) (length (l ++ r)) = nearest_below test l (length l).
Proof.
  induction r as [|x r IH] using rev_ind; intros Hr.
  - by rewrite (right_id_L [] (++)).
  - apply Forall_app in Hr as [Hr Hx]. apply Forall_inv in Hx. simpl in Hx.
    rewrite (assoc_L (++)), length_app. simpl.
    rewrite Nat.add_1_r. simpl.
    rewrite lookup_app_r by lia. rewrite Nat.sub_diag. simpl. rewrite Hx.
    rewrite nearest_below_take by lia. by apply IH.
Qed.

Lemma nearest_below_found test l p r :
  test p = true → Forall (λ q, test q = false) r →
  nearest_below test (l ++ p :: r) (length (l ++ p :: r)) = Some p.
Proof.
  intros Hp Hr.
  change (l ++ p :: r) with (l ++ [p] ++ r). rewrite (assoc_L (++)).
  rewrite nearest_below_skip by done.
  rewrite length_app. simpl. rewrite Nat.add_1_r. simpl.
  rewrite lookup_app_r by lia. rewrite Nat.sub_diag. simpl. by rewrite Hp.
Qed.

Lemma nearest_below_none test l :
  Forall (λ q, test q = false) l → nearest_below test l (length l) = None.
Proof.
  intros Hl. exact (nearest_below_skip test [] l Hl).
Qed.

(** The search that starts at [parents.length - 2] skips the last entry. *)
Lemma nearest_below_strict test l x :
  nearest_below test (l ++ [x]) (length (l ++ [x]) - 1) = nearest_below test l (length l).
Proof.
  rewrite length_app. simpl. rewrite Nat.add_sub.
  by apply nearest_below_take.
Qed.

(** ** Supported patterns declare exactly their names *)
Lemma supported_pattern_effect n :
  supported_pattern n = true → pattern_effect n = (Return tt, bound_names n).
Proof.
  induction n as [n Hprops Helems Harg Hleft] using Node_pattern_ind.
  destruct n as [i ty nm kd fid ps ds hd pm lc props elems v arg lft].
  simpl in *.
  repeat case_match; try done.
  - clear Helems Harg Hleft. induction props as [|p rest IH]; [done|].
    destruct p. simpl in *. apply Forall_cons in Hprops as [Hp Hrest].
    intros [Hq Hr]%andb_true_iff.
    destruct (or_else _ _) as [q|]; [|done].
    rewrite (Hp q eq_refl Hq), (IH Hrest Hr). done.
  - clear Hprops Harg Hleft. induction elems as [|e rest IH]; [done|].
    apply Forall_cons in Helems as [He Hrest].
    intros [Hq Hr]%andb_true_iff.
    destruct e as [q|].
    + rewrite (He q eq_refl Hq), (IH Hrest Hr). done.
    + rewrite (IH Hrest Hr). done.
  - by apply Harg.
  - by apply Hleft.
Qed.

(** ** What each scope visitor does to the heap *)

Lemma declares_id n o :
  declares_into (nid n)
    match o with Some i => set_local n (name i) | None => ret tt end
    (Return tt, id_names o).
Proof. destruct o; [apply declares_set_local | apply declares_ret]. Qed.

Lemma declareFunction_run node h :
  declareFunction node h =
    ((function_effect node).1, with_locals (declare (nid node) (function_effect node).2) h).
Proof.
  unfold declareFunction. apply ensure_then.
  apply declares_bind; [|apply declares_id].
  apply (declares_forEach _ _ pattern_effect). intros x. apply declares_pattern.
Qed.

Lemma declareClass_run node h :
  declareClass node h =
    (Return tt, with_locals (declare (nid node) (id_names (id node))) h).
Proof. unfold declareClass. apply (ensure_then _ _ (Return tt, _)), declares_id. Qed.

Lemma declareModuleSpecifier_run ast node h :
  declareModuleSpecifier ast node h =
    ((local_effect node).1, with_locals (declare (nid ast) (local_effect node).2) h).
Proof.
  unfold declareModuleSpecifier, local_effect. apply ensure_then.
  destruct (local node); [apply declares_set_local | apply declares_throw].
Qed.

Lemma array_elems_run a l h :
  h_arrays h !! a = Some l → array_elems a h = (Return l, h).
Proof. unfold array_elems. by intros ->. Qed.

Lemma VariableDeclaration_run node parents ps h :
  h_arrays h !! parents = Some ps →
  VariableDeclaration_visitor node parents h =
    match nearest_below (scope_test node) ps (length ps) with
    | None => (Throw null_locals, h)
    | Some p =>
      ((declarators_effect (declarations node)).1,
       with_locals (declare (nid p) (declarators_effect (declarations node)).2) h)
    end.
Proof.
  intros Hps. unfold VariableDeclaration_visitor.
  rewrite (bind_return _ _ _ _ _ (array_elems_run _ _ _ Hps)).
  fold (scope_test node).
  destruct (nearest_below _ _ _) as [p|]; [|done].
  apply ensure_then.
  apply (declares_forEach _ _ (λ d, pattern_effect_opt (id d))).
  intros d. apply declares_pattern_opt.
Qed.

(** A declaration that names itself in the enclosing scope [parent] and
    then fills its own table. *)
Lemma named_in_parent_run parent o (m : M unit) r F h :
  (∀ h, m h = (r, with_locals F h)) →
  (ensure_locals parent >>>
   match o with Some i => set_local parent (name i) | None => ret tt end >>>
   m) h
  = (r, with_locals (F ∘ declare (nid parent) (id_names o)) h).
Proof.
  intros Hm. rewrite <- bind_assoc.
  rewrite (bind_return _ _ _ _ _ (ensure_then _ _ _ _ (declares_id parent o))).
  by rewrite Hm.
Qed.

Lemma FunctionDeclaration_run node parents ps h :
  h_arrays h !! parents = Some ps →
  FunctionDeclaration_visitor node parents h =
    match nearest_below isScope ps (length ps - 1) with
    | None => (Throw null_locals, h)
    | Some p =>
      ((function_effect node).1,
       with_locals (declare (nid node) (function_effect node).2
                    ∘ declare (nid p) (id_names (id node))) h)
    end.
Proof.
  intros Hps. unfold FunctionDeclaration_visitor.
  rewrite (bind_return _ _ _ _ _ (array_elems_run _ _ _ Hps)).
  destruct (nearest_below _ _ _) as [p|]; [|done].
  apply named_in_parent_run. intros h'. apply declareFunction_run.
Qed.

Lemma ClassDeclaration_run node parents ps h :
  h_arrays h !! parents = Some ps →
  ClassDeclaration_visitor node parents h =
    match nearest_below isBlockScope ps (length ps - 1) with
    | None => (Throw null_locals, h)
    | Some p =>
      (Return tt,
       with_locals (declare (nid node) (id_names (id node))
                    ∘ declare (nid p) (id_names (id node))) h)
    end.
Proof.
  intros Hps. unfold ClassDeclaration_visitor.
  rewrite (bind_return _ _ _ _ _ (array_elems_run _ _ _ Hps)).
  destruct (nearest_below _ _ _) as [p|]; [|done].
  apply named_in_parent_run. intros h'. apply declareClass_run.
Qed.

Lemma TryStatement_run node parents h :
  TryStatement_visitor node parents h =
    match handler node with
    | None => (Return tt, h)
    | Some hd =>
      ((pattern_effect_opt (param hd)).1,
       with_locals (declare (nid hd) (pattern_effect_opt (param hd)).2) h)
    end.
Proof.
  unfold TryStatement_visitor. destruct (handler node) as [hd|]; [|done].
  apply ensure_then, declares_pattern_opt.
Qed.

(** ** Lists of supported patterns *)

Lemma supported_params_effect ps :
  forallb supported_pattern ps = true →
  params_effect ps = (Return tt, bound_names_list ps).
Proof.
  induction ps as [|p ps IH]; [done|].
  intros [Hp Hps]%andb_true_iff. unfold params_effect in *. simpl.
  by rewrite (supported_pattern_effect _ Hp), (IH Hps).
Qed.

Lemma supported_declarators_effect ds :
  supported_declarators ds = true →
  declarators_effect ds = (Return tt, declarator_names ds).
Proof.
  induction ds as [|d ds IH]; [done|].
  unfold supported_declarators, declarators_effect, declarator_names in *. simpl.
  intros [Hd Hds]%andb_true_iff.
  destruct (id d) as [pat|]; [|done]. simpl in *.
  by rewrite (supported_pattern_effect _ Hd), (IH Hds).
Qed.

(** ** What each reference visitor does to the heap *)

Lemma identifier_loop_run x chain h :
  identifier_loop x chain h = (Return (bound_in (h_locals h) x chain), h).
Proof.
  induction chain as [|p chain IH]; simpl; [done|].
  destruct (String.eqb x "arguments" && declaresArguments p); simpl; [done|].
  unfold bind, get_locals, table_has.
  destruct (h_locals h !! nid p) as [t|]; [|done].
  by destruct (bool_decide (x ∈ t)).
Qed.

Lemma bound_in_spec L x chain :
  bound_in L x chain = true ↔
    (∃ p t, p ∈ chain ∧ L !! nid p = Some t ∧ x ∈ t)
    ∨ (x = "arguments" ∧ ∃ p, p ∈ chain ∧ plain_function p).
Proof.
  unfold bound_in. rewrite existsb_exists. split.
  - intros (p & Hp%list_elem_of_In & [[Hx Ha]%andb_true_iff|Ht]%orb_true_iff).
    + right. apply String.eqb_eq in Hx. apply declaresArguments_plain in Ha. eauto.
    + left. unfold table_has in Ht. destruct (L !! nid p) as [t|] eqn:HL; [|done].
      apply bool_decide_eq_true in Ht. eauto.
  - intros [(p & t & Hp & HL & Hx)|(-> & p & Hp & Ha)];
      exists p; (split; [by apply list_elem_of_In|]); apply orb_true_iff.
    + right. unfold table_has. rewrite HL. by apply bool_decide_eq_true.
    + left. simpl. by apply declaresArguments_plain.
Qed.

Lemma record_run globals node parents chain h :
  h_arrays h !! parents = Some chain →
  (let* copy := array_slice parents in
   set_parents node copy >>> array_push globals node) h
  = (Return tt, record_global globals node chain h).
Proof.
  intros Hps. unfold array_slice.
  rewrite bind_assoc.
  rewrite (bind_return _ _ _ _ _ (array_elems_run _ _ _ Hps)).
  done.
Qed.

Lemma identifier_run globals node parents chain h :
  h_arrays h !! parents = Some chain →
  identifier globals node parents h =
    (Return tt,
     if String.eqb (name node) "undefined" || bound_in (h_locals h) (name node) chain
     then h else record_global globals node chain h).
Proof.
  intros Hps. unfold identifier.
  destruct (String.eqb (name node) "undefined"); [done|]. simpl.
  rewrite (bind_return _ _ _ _ _ (array_elems_run _ _ _ Hps)).
  rewrite (bind_return _ _ _ _ _ (identifier_loop_run _ _ _)).
  destruct (bound_in _ _ _); [done|].
  by apply record_run.
Qed.

Lemma ThisExpression_run globals node parents chain h :
  h_arrays h !! parents = Some chain →
  ThisExpression_visitor globals node parents h =
    (Return tt,
     if existsb declaresThis chain then h else record_global globals node chain h).
Proof.
  intros Hps. unfold ThisExpression_visitor.
  rewrite (bind_return _ _ _ _ _ (array_elems_run _ _ _ Hps)).
  destruct (existsb _ _); [done|].
  by apply record_run.
Qed.

(** ** The recorded heap *)
Section record_global.
Context (globals : positive) (node : Node) (chain : list Node) (h : heap).

Lemma fresh_array_None : h_arrays h !! fresh (dom (h_arrays h)) = None.
Proof. apply not_elem_of_dom, is_fresh. Qed.

Lemma fresh_array_ne a : is_Some (h_arrays h !! a) → a ≠ fresh (dom (h_arrays h)).
Proof. intros [l Hl] ->. by rewrite fresh_array_None in Hl. Qed.

Lemma record_global_locals :
  h_locals (record_global globals node chain h) = h_locals h.
Proof. done. Qed.

Lemma record_global_parents :
  h_parents (record_global globals node chain h)
  = <[nid node := fresh (dom (h_arrays h))]> (h_parents h).
Proof. done. Qed.

Lemma record_global_globals found :
  h_arrays h !! globals = Some found →
  h_arrays (record_global globals node chain h) !! globals = Some (found ++ [node]).
Proof.
  intros Hg. unfold record_global. simpl.
  rewrite lookup_alter_eq, lookup_insert_ne; [by rewrite Hg|].
  apply not_eq_sym, fresh_array_ne. eauto.
Qed.

Lemma record_global_copy :
  is_Some (h_arrays h !! globals) →
  h_arrays (record_global globals node chain h) !! fresh (dom (h_arrays h)) = Some chain.
Proof.
  intros Hg. unfold record_global. simpl.
  rewrite lookup_alter_ne by by apply fresh_array_ne.
  by rewrite lookup_insert_eq.
Qed.

Lemma record_global_other a :
  a ≠ globals → is_Some (h_arrays h !! a) →
  h_arrays (record_global globals node chain h) !! a = h_arrays h !! a.
Proof.
  intros Hne Ha. unfold record_global. simpl.
  rewrite lookup_alter_ne by done.
  rewrite lookup_insert_ne; [done|]. by apply not_eq_sym, fresh_array_ne.
Qed.
End record_global.

(** ** The order of the report *)

Lemma units_le_total x y : units_le x y = true ∨ units_le y x = true.
Proof.
  revert y. induction x as [|a x IH]; intros [|b y]; simpl; auto.
  destruct (N.ltb_spec a b), (N.ltb_spec b a); auto; lia.
Qed.

Lemma units_le_trans x y z :
  units_le x y = true → units_le y z = true → units_le x z = true.
Proof.
  revert y z. induction x as [|a x IH]; intros [|b y] [|c z]; simpl; try done.
  destruct (N.ltb_spec a b), (N.ltb_spec b a), (N.ltb_spec b c), (N.ltb_spec c b),
    (N.ltb_spec a c), (N.ltb_spec c a); try done; try lia.
  apply IH.
Qed.

(** Two sequences of code units that come before each other are the same
    sequence. *)
Lemma units_le_antisym x y :
  units_le x y = true → units_le y x = true → x = y.
Proof.
  revert y. induction x as [|a x IH]; intros [|b y]; simpl; try done.
  destruct (N.ltb_spec a b), (N.ltb_spec b a); try done; try lia.
  intros Hxy Hyx. f_equal; [lia|by apply IH].
Qed.

Global Instance string_le_trans : Transitive string_le.
Proof. intros a b c. apply units_le_trans. Qed.

Global Instance string_le_total : Total string_le.
Proof. intros a b. apply units_le_total. Qed.

Lemma sorted_keys_perm grouped : sorted_keys grouped ≡ₚ (map_to_list grouped).*1.
Proof. apply merge_sort_Permutation. Qed.

Lemma sorted_keys_elem grouped k : k ∈ sorted_keys grouped ↔ is_Some (grouped !! k).
Proof.
  rewrite sorted_keys_perm. rewrite list_elem_of_fmap. split.
  - intros ([k' v] & -> & Hkv). apply elem_of_map_to_list in Hkv. eauto.
  - intros [v Hv]. exists (k, v). split; [done|]. by apply elem_of_map_to_list.
Qed.

Lemma sorted_keys_sorted grouped : StronglySorted string_le (sorted_keys grouped).
Proof. apply StronglySorted_merge_sort; apply _. Qed.

Lemma sorted_keys_NoDup grouped : NoDup (sorted_keys grouped).
Proof. rewrite sorted_keys_perm. apply NoDup_fst_map_to_list. Qed.

(** ** The groups *)

Lemma groupedGlobals_snoc globals node :
  groupedGlobals (globals ++ [node]) = add_global (groupedGlobals globals) node.
Proof. unfold groupedGlobals. by rewrite foldl_app. Qed.

Lemma groupedGlobals_lookup globals x :
  groupedGlobals globals !! x =
    match filter (λ n, global_name n = x) globals with
    | [] => None
    | l => Some l
    end.
Proof.
  induction globals as [|node globals IH] using rev_ind; [done|].
  rewrite groupedGlobals_snoc, filter_app. unfold add_global.
  destruct (decide (global_name node = x)) as [<-|Hne].
  - rewrite lookup_insert_eq, IH. rewrite filter_cons_True by done.
    rewrite filter_nil. by destruct (filter _ globals).
  - rewrite lookup_insert_ne by done. rewrite IH.
    rewrite filter_cons_False by done. by rewrite filter_nil, (right_id_L [] (++)).
Qed.

Lemma report_names globals :
  group_name <$> report globals = sorted_keys (groupedGlobals globals).
Proof.
  unfold report. rewrite <- list_fmap_compose.
  rewrite <- (list_fmap_id (sorted_keys _)) at 2. by apply list_fmap_ext.
Qed.

Lemma report_elem globals g :
  g ∈ report globals ↔
    group_nodes g = filter (λ n, global_name n = group_name g) globals
    ∧ group_nodes g ≠ [].
Proof.
  unfold report. rewrite list_elem_of_fmap. split.
  - intros (x & -> & [l Hl]%sorted_keys_elem). simpl. rewrite Hl. simpl.
    rewrite groupedGlobals_lookup in Hl.
    destruct (filter _ globals) eqn:Hf; [done|]. by injection Hl as <-.
  - intros [Hn Hne]. destruct g as [x l]. simpl in *. exists x.
    pose proof (groupedGlobals_lookup globals x) as Hl. rewrite <- Hn in Hl.
    destruct l; [done|]. rewrite Hl. split; [done|].
    apply sorted_keys_elem. by rewrite Hl.
Qed.

(** * Reference classification *)

(** C1: an identifier named [undefined] is never recorded; any other
    identifier is recorded as global exactly when no entry of its ancestor
    chain has a binding table containing its name and it is not [arguments]
    below a function declaration or function expression; a recorded node
    gets, as its [parents], a new array holding the whole chain. *)
Theorem identifier_records_iff_free (globals : positive) (node : Node)
    (parents : positive) (h : heap) (chain found : list Node) :
  h_arrays h !! parents = Some chain →
  h_arrays h !! globals = Some found →
  globals ≠ parents →
  let bound :=
    (∃ p t, p ∈ chain ∧ h_locals h !! nid p = Some t ∧ name node ∈ t)
    ∨ (name node = "arguments" ∧ ∃ p, p ∈ chain ∧ plain_function p) in
  ∃ h',
    identifier globals node parents h = (Return tt, h')
    ∧ (name node = "undefined" → h' = h)
    ∧ (h_arrays h' !! globals = Some (found ++ [node])
       ↔ name node ≠ "undefined" ∧ ¬ bound)
    ∧ (h_arrays h' !! globals ≠ Some (found ++ [node]) → h' = h)
    ∧ (h_arrays h' !! globals = Some (found ++ [node]) →
       ∃ copy,
         h_parents h' !! nid node = Some copy
         ∧ h_arrays h !! copy = None
         ∧ h_arrays h' !! copy = Some chain
         ∧ h_arrays h' !! parents = Some chain
         ∧ h_locals h' = h_locals h
         ∧ ∀ k, k ≠ nid node → h_parents h' !! k = h_parents h !! k).
Proof.
  intros Hps Hg Hne bound.
  rewrite (identifier_run _ _ _ _ _ Hps).
  assert (bound_in (h_locals h) (name node) chain = true ↔ bound) as Hbound
    by apply bound_in_spec.
  assert (Some found ≠ Some (found ++ [node])) as Hlen.
  { intros [= H]. apply (f_equal length) in H.
    rewrite length_app in H. simpl in H. lia. }
  assert (∀ Q : Prop, (name node ≠ "undefined" ∧ ¬ bound → False) →
    (name node = "undefined" → h = h)
    ∧ (h_arrays h !! globals = Some (found ++ [node])
       ↔ name node ≠ "undefined" ∧ ¬ bound)
    ∧ (h_arrays h !! globals ≠ Some (found ++ [node]) → h = h)
    ∧ (h_arrays h !! globals = Some (found ++ [node]) → Q)) as Hsame.
  { intros Q Hno. rewrite Hg. split; [done|]. split; [|split]; [|done|done].
    split; [done|]. intros H. by destruct (Hno H). }
  destruct (String.eqb_spec (name node) "undefined") as [Hu|Hu]; simpl.
  { exists h. split; [done|]. apply Hsame. by intros []. }
  destruct (bound_in _ _ _) eqn:Hb.
  { exists h. split; [done|]. apply Hsame. intros [_ Hnb].
    apply Hnb. by apply Hbound. }
  eexists. split; [done|].
  pose proof (record_global_globals globals node chain h found Hg) as Hrec.
  split; [done|]. split; [|split].
  - split; [|done]. intros _. split; [done|].
    intros Hnb%Hbound. congruence.
  - done.
  - intros _. exists (fresh (dom (h_arrays h))).
    split; [by rewrite record_global_parents, lookup_insert_eq|].
    split; [apply fresh_array_None|].
    split; [apply record_global_copy; eauto|].
    split; [rewrite record_global_other; eauto|].
    split; [done|].
    intros k Hk. rewrite record_global_parents. by rewrite lookup_insert_ne.
Qed.

Lemma existsb_declaresThis chain :
  existsb declaresThis chain = true ↔ ∃ p, p ∈ chain ∧ plain_function p.
Proof.
  rewrite existsb_exists. split.
  - intros (p & Hp%list_elem_of_In & Hd%declaresThis_plain). eauto.
  - intros (p & Hp%list_elem_of_In & Hd%declaresThis_plain). eauto.
Qed.

(** C4: a [this] expression is recorded as global exactly when no entry of
    its ancestor chain is a function declaration or function expression, and
    every recorded [this] expression is in the group named [this] of the
    report. *)
Theorem this_recorded_iff_no_function (globals : positive) (node : Node)
    (parents : positive) (h : heap) (chain found : list Node) :
  h_arrays h !! parents = Some chain →
  h_arrays h !! globals = Some found →
  ∃ h',
    ThisExpression_visitor globals node parents h = (Return tt, h')
    ∧ (h_arrays h' !! globals = Some (found ++ [node])
       ↔ ¬ ∃ p, p ∈ chain ∧ plain_function p)
    ∧ (h_arrays h' !! globals ≠ Some (found ++ [node]) → h' = h)
    ∧ ∀ recorded : list Node,
        type node = "ThisExpression" → node ∈ recorded →
        ∃ g, g ∈ report recorded ∧ group_name g = "this" ∧ node ∈ group_nodes g.
Proof.
  intros Hps Hg.
  rewrite (ThisExpression_run _ _ _ _ _ Hps).
  pose proof (existsb_declaresThis chain) as Hthis.
  assert (Some found ≠ Some (found ++ [node])) as Hlen.
  { intros [= H]. apply (f_equal length) in H.
    rewrite length_app in H. simpl in H. lia. }
  eexists. split; [done|]. split; [|split].
  - destruct (existsb declaresThis chain).
    + rewrite Hg. split; [done|]. intros Hn. destruct Hn. by apply Hthis.
    + rewrite (record_global_globals _ _ _ _ _ Hg). split; [|done].
      intros _ Hn%Hthis. done.
  - destruct (existsb declaresThis chain); [done|].
    by rewrite (record_global_globals _ _ _ _ _ Hg).
  - intros recorded Hty Hin.
    assert (global_name node = "this") as Hname.
    { unfold global_name. by rewrite Hty. }
    exists (mkGroup "this" (filter (λ n, global_name n = "this") recorded)).
    assert (node ∈ filter (λ n, global_name n = "this") recorded) as Hf
      by by apply list_elem_of_filter.
    split; [|done]. apply report_elem. simpl. split; [done|].
    intros Hnil. rewrite Hnil in Hf. by apply not_elem_of_nil in Hf.
Qed.

(** The report: the groups come in ascending order of their names, and the
    nodes of a group are the recorded nodes of that name in the order in
    which they were recorded. *)
Lemma report_sorted_in_discovery_order (recorded : list Node) :
  StronglySorted string_le (group_name <$> report recorded)
  ∧ (∀ g, g ∈ report recorded →
       group_nodes g = filter (λ n, global_name n = group_name g) recorded)
  ∧ (∀ n, n ∈ recorded → ∃ g, g ∈ report recorded ∧ group_name g = global_name n).
Proof.
  split; [|split].
  - rewrite report_names. apply sorted_keys_sorted.
  - intros g Hg. by apply report_elem in Hg as [].
  - intros n Hn.
    exists (mkGroup (global_name n) (filter (λ m, global_name m = global_name n) recorded)).
    split; [|done]. apply report_elem. simpl. split; [done|].
    intros Hnil.
    assert (n ∈ filter (λ m, global_name m = global_name n) recorded) as Hf
      by by apply list_elem_of_filter.
    rewrite Hnil in Hf. by apply not_elem_of_nil in Hf.
Qed.

(** * Scope construction *)

Lemma declared_in_declare L k S x :
  declared_in (declare k S L) k x ↔ declared_in L k x ∨ x ∈ S.
Proof.
  unfold declared_in. rewrite lookup_declare_eq. split.
  - intros (t & [= <-] & [Hx|Hx]%elem_of_union); [|by right].
    left. destruct (L !! k) as [t|]; [eauto | set_solver].
  - intros [(t & Ht & Hx)|Hx]; eexists; (split; [done|]).
    + rewrite Ht. set_solver.
    + set_solver.
Qed.

Lemma declared_in_declare_empty L k x :
  declared_in (declare k ∅ L) k x ↔ declared_in L k x.
Proof.
  rewrite declared_in_declare. split; [|by left].
  intros [H|H]; [done|]. by apply not_elem_of_empty in H.
Qed.

Lemma declared_in_declare_ne L k k' S x :
  k ≠ k' → declared_in (declare k S L) k' x ↔ declared_in L k' x.
Proof. intros Hne. unfold declared_in. by rewrite lookup_declare_ne. Qed.

Lemma declared_in_declare_mono L k k' S x :
  declared_in L k' x → declared_in (declare k S L) k' x.
Proof.
  intros H. destruct (decide (k = k')) as [->|Hne].
  - apply declared_in_declare. by left.
  - by apply declared_in_declare_ne.
Qed.

Lemma table_has_declared L p x : table_has L p x = true ↔ declared_in L (nid p) x.
Proof.
  unfold table_has, declared_in. destruct (L !! nid p) as [t|].
  - rewrite bool_decide_eq_true. split; [eauto|]. by intros (? & [= <-] & ?).
  - split; [done|]. by intros (? & ? & ?).
Qed.

Lemma not_function_like_isScope l :
  Forall (λ q, ¬ function_like q) l → Forall (λ q, isScope q = false) l.
Proof.
  intros H. eapply Forall_impl; [done|]. intros q Hq. apply not_true_is_false.
  by rewrite isScope_function_like.
Qed.

Lemma not_block_scope_isBlockScope l :
  Forall (λ q, ¬ block_scope q) l → Forall (λ q, isBlockScope q = false) l.
Proof.
  intros H. eapply Forall_impl; [done|]. intros q Hq. apply not_true_is_false.
  by rewrite isBlockScope_block_scope.
Qed.

Lemma bound_in_outside L L' x chain :
  (∀ q, q ∈ chain → L' !! nid q = L !! nid q) →
  bound_in L' x chain = bound_in L x chain.
Proof.
  intros Hsame. unfold bound_in. induction chain as [|p chain IH]; [done|].
  simpl. rewrite IH.
  - unfold table_has. rewrite (Hsame p) by left. done.
  - intros q Hq. apply Hsame. by right.
Qed.

(** C2: a [var] declaration declares the names of its declarator patterns
    into the nearest entry of the ancestor chain that is function-like, a
    [let] or [const] declaration into the nearest entry that is a block
    scope; the names are then bound for every reference whose chain contains
    that scope, and the classification of references whose chain does not
    contain it is unchanged. *)
Theorem VariableDeclaration_declares_in_nearest_scope (node : Node)
    (parents : positive) (h : heap) (outer : list Node) (scope : Node)
    (inner : list Node) :
  h_arrays h !! parents = Some (outer ++ scope :: inner) →
  supported_declarators (declarations node) = true →
  (kind node = "var" ∧ function_like scope ∧ Forall (λ q, ¬ function_like q) inner)
  ∨ ((kind node = "let" ∨ kind node = "const")
     ∧ block_scope scope ∧ Forall (λ q, ¬ block_scope q) inner) →
  let names := declarator_names (declarations node) in
  ∃ h',
    VariableDeclaration_visitor node parents h = (Return tt, h')
    ∧ h_locals h' = declare (nid scope) names (h_locals h)
    ∧ h_parents h' = h_parents h
    ∧ h_arrays h' = h_arrays h
    ∧ (∀ x, x ∈ names → declared_in (h_locals h') (nid scope) x)
    ∧ (∀ x chain, x ∈ names → (∃ q, q ∈ chain ∧ nid q = nid scope) →
         identifier_loop x chain h' = (Return true, h'))
    ∧ (∀ x chain, (∀ q, q ∈ chain → nid q ≠ nid scope) →
         (identifier_loop x chain h').1 = (identifier_loop x chain h).1).
Proof.
  intros Hps Hsup Hkind names.
  rewrite (VariableDeclaration_run _ _ _ _ Hps).
  assert (nearest_below (scope_test node) (outer ++ scope :: inner)
            (length (outer ++ scope :: inner)) = Some scope) as ->.
  { unfold scope_test.
    destruct Hkind as [(-> & Hs & Hin)|(Hk & Hs & Hin)].
    - simpl. apply nearest_below_found; [by apply isScope_function_like|].
      by apply not_function_like_isScope.
    - assert (String.eqb (kind node) "var" = false) as ->.
      { apply String.eqb_neq. by destruct Hk as [-> | ->]. }
      apply nearest_below_found; [by apply isBlockScope_block_scope|].
      by apply not_block_scope_isBlockScope. }
  rewrite (supported_declarators_effect _ Hsup). simpl.
  eexists. split; [done|]. simpl.
  assert (∀ x, x ∈ names → declared_in (declare (nid scope) names (h_locals h)) (nid scope) x)
    as Hdecl.
  { intros x Hx. apply declared_in_declare. by right. }
  repeat split; try done.
  - intros x chain Hx (q & Hq & Hid).
    rewrite identifier_loop_run. do 2 f_equal. simpl.
    apply bound_in_spec. left. destruct (Hdecl x Hx) as (t & Ht & Hxt).
    exists q, t. by rewrite Hid.
  - intros x chain Hout. rewrite !identifier_loop_run. simpl. f_equal.
    apply bound_in_outside. intros q Hq.
    apply lookup_declare_ne, not_eq_sym. by apply Hout.
Qed.

(** C3: a named function declaration declares its name into the nearest
    function-like entry of the chain strictly above it, and its parameters
    and its name into its own table; a named class declaration declares its
    name into the nearest block-scope entry strictly above it and into its
    own table.  The declaration itself is the last entry of the chain its
    visitor receives, and is skipped. *)
Theorem declaration_named_in_enclosing_scope :
  (∀ (node : Node) (parents : positive) (h : heap) (outer : list Node) (scope : Node)
     (inner : list Node) (i : Node),
     h_arrays h !! parents = Some (outer ++ scope :: inner ++ [node]) →
     function_like scope → Forall (λ q, ¬ function_like q) inner →
     id node = Some i →
     forallb supported_pattern (params node) = true →
     ∃ h',
       FunctionDeclaration_visitor node parents h = (Return tt, h')
       ∧ h_locals h' =
           declare (nid node) (bound_names_list (params node) ∪ {[name i]})
             (declare (nid scope) {[name i]} (h_locals h))
       ∧ h_parents h' = h_parents h ∧ h_arrays h' = h_arrays h
       ∧ declared_in (h_locals h') (nid scope) (name i)
       ∧ declared_in (h_locals h') (nid node) (name i)
       ∧ ∀ x, x ∈ bound_names_list (params node) →
              declared_in (h_locals h') (nid node) x)
  ∧ (∀ (node : Node) (parents : positive) (h : heap) (outer : list Node) (scope : Node)
       (inner : list Node) (i : Node),
       h_arrays h !! parents = Some (outer ++ scope :: inner ++ [node]) →
       block_scope scope → Forall (λ q, ¬ block_scope q) inner →
       id node = Some i →
       ∃ h',
         ClassDeclaration_visitor node parents h = (Return tt, h')
         ∧ h_locals h' =
             declare (nid node) {[name i]} (declare (nid scope) {[name i]} (h_locals h))
         ∧ h_parents h' = h_parents h ∧ h_arrays h' = h_arrays h
         ∧ declared_in (h_locals h') (nid scope) (name i)
         ∧ declared_in (h_locals h') (nid node) (name i)).
Proof.
  split.
  - intros node parents h outer scope inner i Hps Hs Hin Hid Hsup.
    rewrite (FunctionDeclaration_run _ _ _ _ Hps).
    replace (outer ++ scope :: inner ++ [node])
      with ((outer ++ scope :: inner) ++ [node]) by by rewrite <- (assoc_L (++)).
    rewrite nearest_below_strict.
    rewrite nearest_below_found;
      [|by apply isScope_function_like|by apply not_function_like_isScope].
    unfold function_effect. rewrite (supported_params_effect _ Hsup), Hid. simpl.
    eexists. split; [done|]. simpl. repeat split.
    + apply declared_in_declare_mono, declared_in_declare. right. set_solver.
    + apply declared_in_declare. right. set_solver.
    + intros x Hx. apply declared_in_declare. right. set_solver.
  - intros node parents h outer scope inner i Hps Hs Hin Hid.
    rewrite (ClassDeclaration_run _ _ _ _ Hps).
    replace (outer ++ scope :: inner ++ [node])
      with ((outer ++ scope :: inner) ++ [node]) by by rewrite <- (assoc_L (++)).
    rewrite nearest_below_strict.
    rewrite nearest_below_found;
      [|by apply isBlockScope_block_scope|by apply not_block_scope_isBlockScope].
    rewrite Hid. simpl.
    eexists. split; [done|]. simpl. repeat split.
    + apply declared_in_declare_mono, declared_in_declare. right. set_solver.
    + apply declared_in_declare. right. set_solver.
Qed.

(** C10: a function or class declaration without a name completes, and adds
    no name to the table of the enclosing scope; the parameters of the
    function are declared into its own table. *)
Theorem anonymous_declaration_declares_no_name :
  (∀ (node : Node) (parents : positive) (h : heap) (outer : list Node) (scope : Node)
     (inner : list Node),
     h_arrays h !! parents = Some (outer ++ scope :: inner ++ [node]) →
     function_like scope → Forall (λ q, ¬ function_like q) inner →
     id node = None →
     forallb supported_pattern (params node) = true →
     ∃ h',
       FunctionDeclaration_visitor node parents h = (Return tt, h')
       ∧ h_locals h' =
           declare (nid node) (bound_names_list (params node))
             (declare (nid scope) ∅ (h_locals h))
       ∧ (nid scope ≠ nid node →
          ∀ x, declared_in (h_locals h') (nid scope) x
               ↔ declared_in (h_locals h) (nid scope) x)
       ∧ ∀ x, x ∈ bound_names_list (params node) →
              declared_in (h_locals h') (nid node) x)
  ∧ (∀ (node : Node) (parents : positive) (h : heap) (outer : list Node) (scope : Node)
       (inner : list Node),
       h_arrays h !! parents = Some (outer ++ scope :: inner ++ [node]) →
       block_scope scope → Forall (λ q, ¬ block_scope q) inner →
       id node = None →
       ∃ h',
         ClassDeclaration_visitor node parents h = (Return tt, h')
         ∧ h_locals h' = declare (nid node) ∅ (declare (nid scope) ∅ (h_locals h))
         ∧ ∀ k x, declared_in (h_locals h') k x ↔ declared_in (h_locals h) k x).
Proof.
  split.
  - intros node parents h outer scope inner Hps Hs Hin Hid Hsup.
    rewrite (FunctionDeclaration_run _ _ _ _ Hps).
    replace (outer ++ scope :: inner ++ [node])
      with ((outer ++ scope :: inner) ++ [node]) by by rewrite <- (assoc_L (++)).
    rewrite nearest_below_strict.
    rewrite nearest_below_found;
      [|by apply isScope_function_like|by apply not_function_like_isScope].
    unfold function_effect. rewrite (supported_params_effect _ Hsup), Hid. simpl.
    rewrite (right_id_L ∅ (∪)).
    eexists. split; [done|]. simpl. split; [done|]. split.
    + intros Hne x. rewrite declared_in_declare_ne by done.
      apply declared_in_declare_empty.
    + intros x Hx. apply declared_in_declare. by right.
  - intros node parents h outer scope inner Hps Hs Hin Hid.
    rewrite (ClassDeclaration_run _ _ _ _ Hps).
    replace (outer ++ scope :: inner ++ [node])
      with ((outer ++ scope :: inner) ++ [node]) by by rewrite <- (assoc_L (++)).
    rewrite nearest_below_strict.
    rewrite nearest_below_found;
      [|by apply isBlockScope_block_scope|by apply not_block_scope_isBlockScope].
    rewrite Hid. simpl.
    eexists. split; [done|]. simpl. split; [done|].
    assert (∀ L k' k x, declared_in (declare k' ∅ L) k x ↔ declared_in L k x) as Hempty.
    { intros L k' k x. destruct (decide (k' = k)) as [->|Hne].
      - apply declared_in_declare_empty.
      - by apply declared_in_declare_ne. }
    intros k x. by rewrite !Hempty.
Qed.

(** * The walks *)

Lemma visit_ind (P : visit → Prop) :
  (∀ override node inner, Forall P inner → P (Visit override node inner)) →
  ∀ v, P v.
Proof.
  intros H. fix IH 1. intros [override node inner]. apply H.
  induction inner as [|v inner IHinner]; constructor; [apply IH | exact IHinner].
Qed.

(** The visitor of a visit finds the visited node on top of the array it
    receives. *)
Lemma chain_at_last anc node :
  ∃ top, last (chain_at anc node) = Some top ∧ same_object node top = true.
Proof.
  unfold chain_at, is_new. destruct (last anc) as [top|] eqn:Hlast.
  - destruct (same_object node top) eqn:Hsame; simpl.
    + eauto.
    + exists node. rewrite last_snoc. split; [done|]. apply Pos.eqb_refl.
  - exists node. rewrite last_snoc. split; [done|]. apply Pos.eqb_refl.
Qed.

(** ** The second walk *)
Section classified.
Context (g anc : positive) (Hne : anc ≠ g).

Lemma classified_refl chain h :
  h_arrays h !! anc = Some chain → classified g anc chain [] h h.
Proof.
  intros Hanc. repeat split; try done.
  intros found Hg. by rewrite (right_id_L [] (++)).
Qed.

Lemma classified_trans c1 c2 r1 r2 h h1 h2 :
  classified g anc c1 r1 h h1 → classified g anc c2 r2 h1 h2 →
  classified g anc c2 (r1 ++ r2) h h2.
Proof.
  intros (HL1 & Ha1 & Hg1 & Hp1 & Ho1) (HL2 & Ha2 & Hg2 & Hp2 & Ho2).
  split; [congruence|]. split; [done|]. split; [|split].
  - intros found Hg. rewrite (assoc_L (++)). by apply Hg2, Hg1.
  - intros k Hk. rewrite fmap_app in Hk. apply not_elem_of_app in Hk as [Hk1 Hk2].
    by rewrite Hp2, Hp1.
  - intros a Ha Haa Hag. rewrite Ho2, Ho1; try done.
    by rewrite Ho1.
Qed.

Lemma classified_push chain x h :
  h_arrays h !! anc = Some chain →
  classified g anc (chain ++ [x]) [] h (with_arrays (alter (λ l, l ++ [x]) anc) h).
Proof.
  intros Hanc. split; [done|]. simpl. split; [|split; [|split]].
  - by rewrite lookup_alter_eq, Hanc.
  - intros found Hg. rewrite lookup_alter_ne by done.
    by rewrite (right_id_L [] (++)).
  - done.
  - intros a _ Ha _. by rewrite lookup_alter_ne.
Qed.

Lemma classified_pop chain h :
  h_arrays h !! anc = Some chain →
  classified g anc (removelast chain) [] h
    (with_arrays (alter (λ l, removelast l) anc) h).
Proof.
  intros Hanc. split; [done|]. simpl. split; [|split; [|split]].
  - by rewrite lookup_alter_eq, Hanc.
  - intros found Hg. rewrite lookup_alter_ne by done.
    by rewrite (right_id_L [] (++)).
  - done.
  - intros a _ Ha _. by rewrite lookup_alter_ne.
Qed.

Lemma classified_record chain node h :
  h_arrays h !! anc = Some chain → is_Some (h_arrays h !! g) →
  classified g anc chain [node] h (record_global g node chain h).
Proof.
  intros Hanc Hg. split; [done|]. split; [|split; [|split]].
  - rewrite record_global_other; eauto.
  - intros found Hfound. by apply record_global_globals.
  - intros k Hk. rewrite record_global_parents.
    apply lookup_insert_ne. intros <-. apply Hk. simpl. by left.
  - intros a Ha _ Hag. by apply record_global_other.
Qed.

Lemma reference_visitor_run ty node chain h :
  h_arrays h !! anc = Some chain →
  match reference_visitors g ty with
  | Some found => found node anc
  | None => ret tt
  end h
  = (Return tt,
     if is_global (h_locals h) ty node chain
     then record_global g node chain h else h).
Proof.
  intros Hanc. unfold reference_visitors, is_global.
  destruct (String.eqb ty "VariablePattern"); simpl.
  { rewrite (identifier_run _ _ _ _ _ Hanc). by destruct (_ || _). }
  destruct (String.eqb ty "Identifier"); simpl.
  { rewrite (identifier_run _ _ _ _ _ Hanc). by destruct (_ || _). }
  destruct (String.eqb ty "ThisExpression"); simpl; [|done].
  rewrite (ThisExpression_run _ _ _ _ _ Hanc). by destruct (existsb _ _).
Qed.

Lemma classified_is_Some chain refs h h' :
  classified g anc chain refs h h' →
  is_Some (h_arrays h !! g) → is_Some (h_arrays h' !! g).
Proof. intros (_ & _ & Hg & _) [found Hfound]. rewrite (Hg _ Hfound). eauto. Qed.

Lemma walk_c_references v :
  ∀ chain h,
    h_arrays h !! anc = Some chain → is_Some (h_arrays h !! g) →
    ∃ h',
      walk_c (reference_visitors g) anc v h = (Return tt, h')
      ∧ classified g anc chain (free_references (h_locals h) chain v) h h'.
Proof.
  induction v as [override node inner IH] using visit_ind.
  intros chain h Hanc Hg. simpl.
  rewrite (bind_return _ _ _ _ _ (array_elems_run _ _ _ Hanc)).
  (* the push *)
  set (h1 := if is_new chain node
             then with_arrays (alter (λ l, l ++ [node]) anc) h else h).
  assert (classified g anc (chain_at chain node) [] h h1) as H1.
  { unfold h1, chain_at. destruct (is_new chain node).
    - by apply classified_push.
    - by apply classified_refl. }
  assert ((if is_new chain node then array_push anc node else ret tt) h
          = (Return tt, h1)) as Hpush.
  { unfold h1. by destruct (is_new chain node). }
  rewrite (bind_return _ _ _ _ _ Hpush).
  (* the inner visits *)
  assert (∃ h2,
    forEach (walk_c (reference_visitors g) anc) inner h1 = (Return tt, h2)
    ∧ classified g anc (chain_at chain node)
        (flat_map (free_references (h_locals h) (chain_at chain node)) inner)
        h h2) as (h2 & Hinner & H2).
  { clear Hpush. revert H1. generalize h1. clear h1.
    replace (flat_map (free_references (h_locals h) (chain_at chain node)) inner)
      with ([] ++ flat_map (free_references (h_locals h) (chain_at chain node)) inner)
      by done.
    generalize (@nil Node) as refs.
    induction inner as [|v inner IHinner]; intros refs h1 H1; simpl.
    - exists h1. split; [done|]. by rewrite (right_id_L [] (++)).
    - apply Forall_cons in IH as [IHv IHrest].
      destruct (IHv (chain_at chain node) h1) as (h2 & Hv & H2).
      { by destruct H1 as (_ & ? & _). }
      { by apply (classified_is_Some _ _ _ _ H1). }
      rewrite (bind_return _ _ _ _ _ Hv).
      assert (h_locals h1 = h_locals h) as HL by by destruct H1.
      rewrite HL in H2.
      destruct (IHinner IHrest (refs ++ free_references (h_locals h) (chain_at chain node) v) h2)
        as (h3 & Hrest & H3).
      { by apply (classified_trans _ _ _ _ _ _ _ H1). }
      exists h3. split; [done|]. by rewrite (assoc_L (++)). }
  rewrite (bind_return _ _ _ _ _ Hinner).
  (* the visitor *)
  assert (h_arrays h2 !! anc = Some (chain_at chain node)) as Hanc2
    by by destruct H2 as (_ & ? & _).
  assert (h_locals h2 = h_locals h) as HL2 by by destruct H2.
  rewrite (bind_return _ _ _ _ _ (reference_visitor_run _ node _ _ Hanc2)).
  rewrite HL2.
  set (ty := default (type node) override).
  set (h3 := if is_global (h_locals h) ty node (chain_at chain node)
             then record_global g node (chain_at chain node) h2 else h2).
  assert (classified g anc (chain_at chain node)
            (if is_global (h_locals h) ty node (chain_at chain node)
             then [node] else []) h2 h3) as H3.
  { unfold h3. destruct (is_global _ _ _ _).
    - apply classified_record; [done|]. by apply (classified_is_Some _ _ _ _ H2).
    - by apply classified_refl. }
  pose proof (classified_trans _ _ _ _ _ _ _ H2 H3) as H23.
  (* the pop *)
  assert (h_arrays h3 !! anc = Some (chain_at chain node)) as Hanc3
    by by destruct H3 as (_ & ? & _).
  unfold chain_at in *. destruct (is_new chain node).
  - eexists. split; [done|].
    pose proof (classified_pop _ _ Hanc3) as H4.
    rewrite removelast_last in H4.
    pose proof (classified_trans _ _ _ _ _ _ _ H23 H4) as H.
    by rewrite (right_id_L [] (++)) in H.
  - exists h3. split; [done|]. done.
Qed.
End classified.

(** ** The first walk *)

Lemma apply_ops_app o1 o2 L : apply_ops (o1 ++ o2) L = apply_ops o2 (apply_ops o1 L).
Proof. unfold apply_ops. by rewrite foldl_app. Qed.

Section scoped.
Context (anc : positive).

Lemma scoped_refl chain h : h_arrays h !! anc = Some chain → scoped anc chain [] h h.
Proof. by intros Hanc. Qed.

Lemma scoped_trans c1 c2 o1 o2 h h1 h2 :
  scoped anc c1 o1 h h1 → scoped anc c2 o2 h1 h2 → scoped anc c2 (o1 ++ o2) h h2.
Proof.
  intros (HL1 & Hp1 & Ha1 & Ho1) (HL2 & Hp2 & Ha2 & Ho2).
  split; [by rewrite apply_ops_app, <- HL1|].
  split; [congruence|]. split; [done|].
  intros a Ha. by rewrite Ho2, Ho1.
Qed.

Lemma scoped_alter f chain h :
  h_arrays h !! anc = Some chain →
  scoped anc (f chain) [] h (with_arrays (alter f anc) h).
Proof.
  intros Hanc. split; [done|]. split; [done|]. simpl. split.
  - by rewrite lookup_alter_eq, Hanc.
  - intros a Ha. by rewrite lookup_alter_ne.
Qed.

Lemma scoped_locals chain ops h :
  h_arrays h !! anc = Some chain →
  scoped anc chain ops h (with_locals (apply_ops ops) h).
Proof. by intros Hanc. Qed.
End scoped.

Lemma with_locals_nil h : with_locals (apply_ops []) h = h.
Proof. by apply with_locals_id. Qed.

(** Given what the array of ancestors holds, the outcome of a scope visitor
    and the declarations it makes do not depend on the heap. *)
Lemma scope_visitor_static ast ty node chain :
  ∃ r ops, ∀ anc h,
    h_arrays h !! anc = Some chain →
    match scope_visitors ast ty with
    | Some found => found node anc
    | None => ret tt
    end h
    = (r, with_locals (apply_ops ops) h).
Proof.
  unfold scope_visitors.
  destruct (String.eqb ty "VariableDeclaration").
  { destruct (nearest_below (scope_test node) chain (length chain)) as [p|] eqn:Hn.
    - exists (declarators_effect (declarations node)).1,
        [(nid p, (declarators_effect (declarations node)).2)].
      intros anc h Hanc. by rewrite (VariableDeclaration_run _ _ _ _ Hanc), Hn.
    - exists (Throw null_locals), []. intros anc h Hanc.
      by rewrite (VariableDeclaration_run _ _ _ _ Hanc), Hn, with_locals_nil. }
  destruct (String.eqb ty "FunctionDeclaration").
  { destruct (nearest_below isScope chain (length chain - 1)) as [p|] eqn:Hn.
    - exists (function_effect node).1,
        [(nid p, id_names (id node)); (nid node, (function_effect node).2)].
      intros anc h Hanc. by rewrite (FunctionDeclaration_run _ _ _ _ Hanc), Hn.
    - exists (Throw null_locals), []. intros anc h Hanc.
      by rewrite (FunctionDeclaration_run _ _ _ _ Hanc), Hn, with_locals_nil. }
  destruct (String.eqb ty "Function").
  { exists (function_effect node).1, [(nid node, (function_effect node).2)].
    intros anc h Hanc. by rewrite declareFunction_run. }
  destruct (String.eqb ty "ClassDeclaration").
  { destruct (nearest_below isBlockScope chain (length chain - 1)) as [p|] eqn:Hn.
    - exists (Return tt),
        [(nid p, id_names (id node)); (nid node, id_names (id node))].
      intros anc h Hanc. by rewrite (ClassDeclaration_run _ _ _ _ Hanc), Hn.
    - exists (Throw null_locals), []. intros anc h Hanc.
      by rewrite (ClassDeclaration_run _ _ _ _ Hanc), Hn, with_locals_nil. }
  destruct (String.eqb ty "Class").
  { exists (Return tt), [(nid node, id_names (id node))].
    intros anc h Hanc. by rewrite declareClass_run. }
  destruct (String.eqb ty "TryStatement").
  { destruct (handler node) as [hd|] eqn:Hh.
    - exists (pattern_effect_opt (param hd)).1,
        [(nid hd, (pattern_effect_opt (param hd)).2)].
      intros anc h Hanc. by rewrite TryStatement_run, Hh.
    - exists (Return tt), []. intros anc h Hanc.
      by rewrite TryStatement_run, Hh, with_locals_nil. }
  assert (∃ r ops, ∀ (anc : positive) h,
    declareModuleSpecifier ast node h = (r, with_locals (apply_ops ops) h)) as Hmod.
  { exists (local_effect node).1, [(nid ast, (local_effect node).2)].
    intros anc h. by rewrite declareModuleSpecifier_run. }
  destruct Hmod as (r & ops & Hmod).
  destruct (String.eqb ty "ImportDefaultSpecifier"); [by exists r, ops; eauto|].
  destruct (String.eqb ty "ImportSpecifier"); [by exists r, ops; eauto|].
  destruct (String.eqb ty "ImportNamespaceSpecifier"); [by exists r, ops; eauto|].
  exists (Return tt), []. intros anc h Hanc. by rewrite with_locals_nil.
Qed.

Lemma forEach_scopes ast inner chain :
  Forall (λ v, ∀ chain, ∃ r ops chain',
    (r = Return tt → chain' = chain)
    ∧ ∀ anc h, h_arrays h !! anc = Some chain →
        ∃ h', walk_c (scope_visitors ast) anc v h = (r, h')
              ∧ scoped anc chain' ops h h') inner →
  ∃ r ops chain',
    (r = Return tt → chain' = chain)
    ∧ ∀ anc h, h_arrays h !! anc = Some chain →
        ∃ h', forEach (walk_c (scope_visitors ast) anc) inner h = (r, h')
              ∧ scoped anc chain' ops h h'.
Proof.
  induction inner as [|v inner IHinner]; intros IH.
  - exists (Return tt), [], chain. split; [done|].
    intros anc h Hanc. exists h. split; [done|]. by apply scoped_refl.
  - apply Forall_cons in IH as [IHv IHrest].
    destruct (IHv chain) as (rv & opsv & cv & Hcv & Hv).
    destruct rv as [[]|e].
    + specialize (Hcv eq_refl) as ->.
      destruct (IHinner IHrest) as (ri & opsi & ci & Hci & Hi).
      exists ri, (opsv ++ opsi), ci. split; [done|].
      intros anc h Hanc. simpl.
      destruct (Hv anc h Hanc) as (h1 & Hrun1 & H1).
      rewrite (bind_return _ _ _ _ _ Hrun1).
      destruct (Hi anc h1) as (h2 & Hrun2 & H2); [by destruct H1 as (_ & _ & ? & _)|].
      exists h2. split; [done|]. by apply (scoped_trans _ _ _ _ _ _ _ _ H1).
    + exists (Throw e), opsv, cv. split; [done|].
      intros anc h Hanc. simpl.
      destruct (Hv anc h Hanc) as (h1 & Hrun1 & H1).
      rewrite (bind_throw _ _ _ _ _ Hrun1). eauto.
Qed.

Lemma walk_c_scopes ast v :
  ∀ chain, ∃ r ops chain',
    (r = Return tt → chain' = chain)
    ∧ ∀ anc h, h_arrays h !! anc = Some chain →
        ∃ h', walk_c (scope_visitors ast) anc v h = (r, h')
              ∧ scoped anc chain' ops h h'.
Proof.
  induction v as [override node inner IH] using visit_ind. intros chain.
  destruct (forEach_scopes ast inner (chain_at chain node) IH)
    as (ri & opsi & ci & Hci & Hi).
  destruct (scope_visitor_static ast (default (type node) override) node
              (chain_at chain node)) as (rv & opsv & Hv).
  assert (∀ anc h, h_arrays h !! anc = Some chain →
    ∃ h1, (if is_new chain node then array_push anc node else ret tt) h = (Return tt, h1)
          ∧ scoped anc (chain_at chain node) [] h h1) as Hpush.
  { intros anc h Hanc. unfold chain_at. destruct (is_new chain node).
    - eexists. split; [done|]. by apply (scoped_alter _ (λ l, l ++ [node])).
    - exists h. split; [done|]. by apply scoped_refl. }
  assert (∀ anc h, h_arrays h !! anc = Some (chain_at chain node) →
    ∃ h1, (if is_new chain node then array_pop anc else ret tt) h = (Return tt, h1)
          ∧ scoped anc chain [] h h1) as Hpop.
  { intros anc h Hanc. unfold chain_at in Hanc. destruct (is_new chain node).
    - eexists. split; [done|].
      pose proof (scoped_alter anc (λ l, removelast l) _ _ Hanc) as H.
      simpl in H. by rewrite removelast_last in H.
    - exists h. split; [done|]. by apply scoped_refl. }
  destruct ri as [[]|e].
  - specialize (Hci eq_refl) as ->. destruct rv as [[]|e].
    + exists (Return tt), (opsi ++ opsv), chain. split; [done|].
      intros anc h Hanc. simpl.
      rewrite (bind_return _ _ _ _ _ (array_elems_run _ _ _ Hanc)).
      destruct (Hpush anc h Hanc) as (h1 & Hrun1 & H1).
      rewrite (bind_return _ _ _ _ _ Hrun1).
      destruct (Hi anc h1) as (h2 & Hrun2 & H2); [by destruct H1 as (_ & _ & ? & _)|].
      rewrite (bind_return _ _ _ _ _ Hrun2).
      assert (h_arrays h2 !! anc = Some (chain_at chain node)) as Hanc2
        by by destruct H2 as (_ & _ & ? & _).
      rewrite (bind_return _ _ _ _ _ (Hv anc h2 Hanc2)).
      destruct (Hpop anc (with_locals (apply_ops opsv) h2) Hanc2) as (h4 & Hrun4 & H4).
      exists h4. split; [done|].
      pose proof (scoped_trans _ _ _ _ _ _ _ _ H1 H2) as H12.
      pose proof (scoped_trans _ _ _ _ _ _ _ _ H12 (scoped_locals anc _ opsv _ Hanc2)) as H123.
      pose proof (scoped_trans _ _ _ _ _ _ _ _ H123 H4) as H.
      by rewrite (right_id_L [] (++)) in H.
    + exists (Throw e), (opsi ++ opsv), (chain_at chain node). split; [done|].
      intros anc h Hanc. simpl.
      rewrite (bind_return _ _ _ _ _ (array_elems_run _ _ _ Hanc)).
      destruct (Hpush anc h Hanc) as (h1 & Hrun1 & H1).
      rewrite (bind_return _ _ _ _ _ Hrun1).
      destruct (Hi anc h1) as (h2 & Hrun2 & H2); [by destruct H1 as (_ & _ & ? & _)|].
      rewrite (bind_return _ _ _ _ _ Hrun2).
      assert (h_arrays h2 !! anc = Some (chain_at chain node)) as Hanc2
        by by destruct H2 as (_ & _ & ? & _).
      rewrite (bind_throw _ _ _ _ _ (Hv anc h2 Hanc2)).
      eexists. split; [done|].
      pose proof (scoped_trans _ _ _ _ _ _ _ _ H1 H2) as H12.
      exact (scoped_trans _ _ _ _ _ _ _ _ H12 (scoped_locals anc _ opsv _ Hanc2)).
  - exists (Throw e), opsi, ci. split; [done|].
    intros anc h Hanc. simpl.
    rewrite (bind_return _ _ _ _ _ (array_elems_run _ _ _ Hanc)).
    destruct (Hpush anc h Hanc) as (h1 & Hrun1 & H1).
    rewrite (bind_return _ _ _ _ _ Hrun1).
    destruct (Hi anc h1) as (h2 & Hrun2 & H2); [by destruct H1 as (_ & _ & ? & _)|].
    rewrite (bind_throw _ _ _ _ _ Hrun2).
    exists h2. split; [done|].
    exact (scoped_trans _ _ _ _ _ _ _ _ H1 H2).
Qed.

(** ** Declaring twice *)

Lemma absorbs_declare L k S op : absorbs L op → absorbs (declare k S L) op.
Proof.
  intros (t & Ht & Hop). unfold absorbs.
  destruct (decide (k = op.1)) as [->|Hne].
  - rewrite lookup_declare_eq, Ht. simpl. eexists. split; [done|].
    by apply union_subseteq_l'.
  - rewrite lookup_declare_ne by done. eauto.
Qed.

Lemma absorbs_own L k S : absorbs (declare k S L) (k, S).
Proof.
  unfold absorbs. simpl. rewrite lookup_declare_eq. eexists. split; [done|].
  apply union_subseteq_r.
Qed.

Lemma apply_ops_absorbs ops L : Forall (absorbs (apply_ops ops L)) ops.
Proof.
  induction ops as [|op ops IH] using rev_ind; [done|].
  rewrite apply_ops_app. simpl. apply Forall_app. split.
  - eapply Forall_impl; [exact IH|]. intros op'. apply absorbs_declare.
  - apply Forall_singleton. destruct op. apply absorbs_own.
Qed.

Lemma apply_ops_absorbed ops L : Forall (absorbs L) ops → apply_ops ops L = L.
Proof.
  induction ops as [|op ops IH]; [done|].
  intros [(t & Ht & Hop) Hops]%Forall_cons. simpl.
  rewrite (declare_subseteq _ _ _ _ Ht Hop). by apply IH.
Qed.

Lemma apply_ops_idemp ops L : apply_ops ops (apply_ops ops L) = apply_ops ops L.
Proof. apply apply_ops_absorbed, apply_ops_absorbs. Qed.

Lemma declared_in_apply_ops ops L k x :
  declared_in L k x → declared_in (apply_ops ops L) k x.
Proof.
  revert L. induction ops as [|op ops IH]; intros L H; [done|].
  simpl. by apply IH, declared_in_declare_mono.
Qed.

(** ** The two passes *)
Section passes.
Context (base : Node → list visit) (ast : Node).

Lemma build_scopes_static :
  ∃ r ops, ∀ h, ∃ h',
    build_scopes base ast h = (r, h')
    ∧ h_locals h' = apply_ops ops (h_locals h)
    ∧ h_parents h' = h_parents h
    ∧ ∀ a, is_Some (h_arrays h !! a) → h_arrays h' !! a = h_arrays h !! a.
Proof.
  destruct (walk_c_scopes ast (Visit None ast (base ast)) []) as (r & ops & c & _ & Hwalk).
  exists r, ops. intros h.
  unfold build_scopes, walk_ancestor, bind, new_array.
  set (anc := fresh (dom (h_arrays h))).
  destruct (Hwalk anc (with_arrays <[anc := []]> h)) as (h' & -> & HL & Hp & _ & Ho).
  { simpl. apply lookup_insert_eq. }
  exists h'. split; [by destruct r|]. split; [done|]. split; [done|].
  intros a Ha. rewrite Ho by by apply fresh_array_ne.
  simpl. apply lookup_insert_ne, not_eq_sym. by apply fresh_array_ne.
Qed.

Lemma classify_references_run g h found :
  h_arrays h !! g = Some found →
  let refs := free_references (h_locals h) [] (root_visit base ast) in
  ∃ h',
    classify_references base ast g h = (Return tt, h')
    ∧ h_locals h' = h_locals h
    ∧ h_arrays h' !! g = Some (found ++ refs)
    ∧ (∀ k, k ∉ nid <$> refs → h_parents h' !! k = h_parents h !! k)
    ∧ (∀ a, is_Some (h_arrays h !! a) → a ≠ g → h_arrays h' !! a = h_arrays h !! a).
Proof.
  intros Hg refs.
  unfold classify_references, walk_ancestor, bind, new_array.
  set (anc := fresh (dom (h_arrays h))).
  assert (anc ≠ g) as Hne by (apply not_eq_sym, fresh_array_ne; eauto).
  destruct (walk_c_references g anc Hne (Visit None ast (base ast)) []
              (with_arrays <[anc := []]> h))
    as (h' & -> & HL & _ & Hfound & Hp & Ho).
  { simpl. apply lookup_insert_eq. }
  { simpl. rewrite lookup_insert_ne by done. eauto. }
  exists h'. split; [done|]. split; [done|]. split; [|split; [done|]].
  - apply Hfound. simpl. by rewrite lookup_insert_ne.
  - intros a Ha Hag.
    assert (a ≠ anc) as Haa by by apply fresh_array_ne.
    rewrite Ho; simpl; rewrite ?lookup_insert_ne; done.
Qed.
End passes.

(** ** Discovery order *)

Lemma is_global_reference_type L ty node chain :
  is_reference_type ty = false → is_global L ty node chain = false.
Proof.
  unfold is_reference_type, is_global.
  intros [[H1 H2]%orb_false_iff H3]%orb_false_iff. by rewrite H1, H2, H3.
Qed.

Lemma globals_of_app L c1 c2 :
  globals_of L (c1 ++ c2) = globals_of L c1 ++ globals_of L c2.
Proof. unfold globals_of. apply flat_map_app. Qed.

Lemma globals_of_flat_map {A} L (f : A → list (string * Node * list Node)) l :
  globals_of L (flat_map f l) = flat_map (λ x, globals_of L (f x)) l.
Proof.
  induction l as [|x l IH]; [done|]. simpl. by rewrite globals_of_app, IH.
Qed.

(** When the visits the second walk has a visitor for are leaves, the nodes
    it records come in pre-order. *)
Lemma free_references_preorder L v :
  reference_leaves v = true →
  ∀ anc, free_references L anc v = globals_of L (preorder_calls anc v).
Proof.
  induction v as [override node inner IH] using visit_ind.
  simpl. intros [Hleaf Hinner]%andb_true_iff anc.
  set (chain := chain_at anc node). set (ty := default (type node) override) in *.
  assert (flat_map (free_references L chain) inner
          = globals_of L (flat_map (preorder_calls chain) inner)) as Hflat.
  { rewrite globals_of_flat_map. clear Hleaf.
    induction inner as [|v inner IHinner]; [done|].
    apply Forall_cons in IH as [IHv IHrest].
    simpl in Hinner. apply andb_true_iff in Hinner as [Hv Hrest].
    simpl. by rewrite (IHv Hv), (IHinner IHrest Hrest). }
  rewrite Hflat. unfold globals_of at 2. simpl. fold (globals_of L).
  destruct (is_reference_type ty) eqn:Hty.
  - destruct inner; [|done]. simpl. by rewrite (right_id_L [] (++)).
  - by rewrite (is_global_reference_type _ _ _ _ Hty), (right_id_L [] (++)).
Qed.

(** * The entry point *)
Section entry.
Context (acorn_parse : string → gmap string jsval → acorn_error + Node)
        (acornLoose_parse : string → gmap string jsval → Node)
        (base : Node → list visit).

Local Abbreviation parseWithGlobals := (parseWithGlobals acorn_parse acornLoose_parse base).
Local Abbreviation reallyParse := (reallyParse acorn_parse acornLoose_parse).

(** The two walks one after the other, on a heap where [g] is the empty
    array of globals. *)
Lemma passes_run ast :
  ∃ r ops, ∀ g h,
    h_arrays h !! g = Some [] →
    let L := apply_ops ops (h_locals h) in
    let refs := free_references L [] (root_visit base ast) in
    ∃ h',
      (build_scopes base ast >>> classify_references base ast g) h = (r, h')
      ∧ h_locals h' = L
      ∧ (r = Return tt →
         h_arrays h' !! g = Some refs
         ∧ ∀ k, k ∉ nid <$> refs → h_parents h' !! k = h_parents h !! k).
Proof.
  destruct (build_scopes_static base ast) as (r & ops & Hbuild).
  exists r, ops. intros g h Hg L refs.
  destruct (Hbuild h) as (h1 & Hrun1 & HL1 & Hp1 & Ho1).
  destruct r as [[]|e].
  - rewrite (bind_return _ _ _ _ _ Hrun1).
    destruct (classify_references_run base ast g h1 [])
      as (h2 & Hrun2 & HL2 & Hg2 & Hp2 & _).
    { rewrite Ho1; eauto. }
    exists h2. split; [done|]. split; [by rewrite HL2, HL1|]. intros _.
    rewrite HL1 in Hg2, Hp2. split; [done|].
    intros k Hk. by rewrite Hp2, Hp1.
  - rewrite (bind_throw _ _ _ _ _ Hrun1). exists h1. by split.
Qed.

Lemma parseWithGlobals_program ast options fallbackToLoose h :
  type ast = "Program" →
  parseWithGlobals (SourceObject ast) options fallbackToLoose h =
    let g := fresh (dom (h_arrays h)) in
    match (build_scopes base ast >>> classify_references base ast g)
            (with_arrays <[g := []]> h) with
    | (Return _, h') =>
      (Return (mkOutput ast (report (default [] (h_arrays h' !! g))) None), h')
    | (Throw e, h') => (Throw e, h')
    end.
Proof.
  intros Hty. unfold parseWithGlobals, bind, new_array, ret. simpl.
  rewrite Hty. simpl.
  destruct (build_scopes base ast _) as [[[]|e] h1]; [|done].
  by destruct (classify_references base ast _ h1) as [[[]|e] h2].
Qed.

(** The result of analysing an AST is a function of the binding tables the
    first walk leaves, and those are the tables before it extended by
    declarations that depend on the AST only. *)
Lemma parseWithGlobals_static ast options fallbackToLoose :
  ∃ (F : gmap positive (gset string) → result Output) ops, ∀ h, ∃ h',
    parseWithGlobals (SourceObject ast) options fallbackToLoose h
      = (F (apply_ops ops (h_locals h)), h')
    ∧ h_locals h' = apply_ops ops (h_locals h).
Proof.
  destruct (String.eqb_spec (type ast) "Program") as [Hty|Hty].
  - destruct (passes_run ast) as (r & ops & Hpasses).
    exists (λ L, match r with
                 | Return _ =>
                   Return (mkOutput ast (report (free_references L [] (root_visit base ast))) None)
                 | Throw e => Throw e
                 end), ops.
    intros h. rewrite (parseWithGlobals_program _ _ _ _ Hty). simpl.
    destruct (Hpasses (fresh (dom (h_arrays h)))
                (with_arrays <[fresh (dom (h_arrays h)) := []]> h))
      as (h' & -> & HL & Hrefs).
    { simpl. apply lookup_insert_eq. }
    exists h'. split; [|done]. destruct r as [[]|e]; [|done].
    destruct (Hrefs eq_refl) as [-> _]. done.
  - exists (λ _, Throw not_a_program), []. intros h.
    unfold parseWithGlobals, bind, new_array, ret, throw. simpl.
    apply String.eqb_neq in Hty. rewrite Hty. simpl. eauto.
Qed.

(** C9: analysing an AST that has already been analysed gives the same
    result as the first analysis did: the same groups in the same order
    (or the same exception), and the binding tables are not changed by
    the second analysis. *)
Theorem analysis_twice_same_groups (ast : Node) (options : option (gmap string jsval))
    (fallbackToLoose : bool) (h : heap) :
  let run := parseWithGlobals (SourceObject ast) options fallbackToLoose in
  (run (run h).2).1 = (run h).1
  ∧ h_locals (run (run h).2).2 = h_locals (run h).2.
Proof.
  intros run.
  destruct (parseWithGlobals_static ast options fallbackToLoose) as (F & ops & Hrun).
  destruct (Hrun h) as (h1 & Hrun1 & HL1).
  destruct (Hrun h1) as (h2 & Hrun2 & HL2).
  unfold run. rewrite Hrun1. simpl. rewrite Hrun2. simpl.
  rewrite HL2, HL1. by rewrite !apply_ops_idemp.
Qed.

(** C7: when the strict parse of a string raises a syntax error, the
    error propagates unchanged if the fallback is disabled; if it is
    enabled, the analysis is that of the AST of the tolerant parser, and
    its result carries the message of the error. *)
Theorem syntax_error_fallback (source : string) (options : option (gmap string jsval))
    (err : acorn_error) (h : heap) :
  acorn_parse source (forced_options ∪ default ∅ options) = inl err →
  let loose := acornLoose_parse source (forced_options ∪ default ∅ options) in
  reallyParse source (default ∅ options) false = Throw (ParseError err)
  ∧ (parseWithGlobals (SourceText source) options false h).1 = Throw (ParseError err)
  ∧ reallyParse source (default ∅ options) true
    = Return (mkParsed (Some loose) (Some (message err)))
  ∧ parseWithGlobals (SourceText source) options true h =
      match parseWithGlobals (SourceObject loose) options true h with
      | (Return out, h') =>
        (Return (mkOutput (out_ast out) (out_globals out) (Some (message err))), h')
      | (Throw e, h') => (Throw e, h')
      end.
Proof.
  intros Herr loose.
  assert (reallyParse source (default ∅ options) false = Throw (ParseError err)) as Hoff.
  { unfold reallyParse. by rewrite Herr. }
  assert (reallyParse source (default ∅ options) true
          = Return (mkParsed (Some loose) (Some (message err)))) as Hon.
  { unfold reallyParse. by rewrite Herr. }
  split; [done|]. split; [|split; [done|]].
  - unfold parseWithGlobals, bind, new_array. by rewrite Hoff.
  - unfold parseWithGlobals, bind, new_array, ret, throw. rewrite Hon. simpl.
    destruct (negb (String.eqb (type loose) "Program")); [done|].
    destruct (build_scopes base loose _) as [[[]|e] h1]; [|done].
    by destruct (classify_references base loose _ h1) as [[[]|e] h2].
Qed.

End entry.

(** * Try statements *)

Lemma TryStatement_declares_param (node hd pat : Node) (parents : positive) (h : heap) :
  handler node = Some hd → param hd = Some pat → supported_pattern pat = true →
  TryStatement_visitor node parents h
  = (Return tt, with_locals (declare (nid hd) (bound_names pat)) h).
Proof.
  intros Hh Hp Hsup. rewrite TryStatement_run, Hh, Hp. simpl.
  by rewrite (supported_pattern_effect _ Hsup).
Qed.

Lemma TryStatement_without_handler (node : Node) (parents : positive) (h : heap) :
  handler node = None → TryStatement_visitor node parents h = (Return tt, h).
Proof. intros Hh. by rewrite TryStatement_run, Hh. Qed.

Lemma TryStatement_without_param (node hd : Node) (parents : positive) (h : heap) :
  handler node = Some hd → param hd = None →
  (TryStatement_visitor node parents h).1 = Throw null_type.
Proof. intros Hh Hp. by rewrite TryStatement_run, Hh, Hp. Qed.

(** C5, at [try {} catch {}]: the visitor of the try statement reads the
    [type] of the absent parameter and throws, and so does the analysis of
    the program. *)
Theorem catch_without_param_throws :
  (TryStatement_visitor Sample.try_stmt 2%positive Sample.empty_heap).1 = Throw null_type
  ∧ (parseWithGlobals Sample.no_parser Sample.loose_program Sample.try_base
       (SourceObject Sample.try_program) None false Sample.empty_heap).1
    = Throw null_type.
Proof. split; by vm_compute. Qed.

(** * Instances *)

Lemma not_function_like_by_type (n : Node) :
  isScope n = false → ¬ function_like n.
Proof. intros H Hn%isScope_function_like. congruence. Qed.

Lemma not_block_scope_by_type (n : Node) :
  isBlockScope n = false → ¬ block_scope n.
Proof. intros H Hn%isBlockScope_block_scope. congruence. Qed.

Lemma identifier_records_iff_free_witness :
  (h_arrays Sample.x_heap !! 2%positive = Some Sample.x_chain
   ∧ h_arrays Sample.x_heap !! 1%positive = Some []
   ∧ 1%positive ≠ 2%positive)
  ∧ ∃ h', identifier 1%positive Sample.x_ref 2%positive Sample.x_heap = (Return tt, h')
          ∧ h_arrays h' !! 1%positive = Some [Sample.x_ref].
Proof.
  assert (h_arrays Sample.x_heap !! 2%positive = Some Sample.x_chain) as H2
    by reflexivity.
  assert (h_arrays Sample.x_heap !! 1%positive = Some []) as H1 by reflexivity.
  assert (1%positive ≠ 2%positive) as Hne by lia.
  split; [done|].
  destruct (identifier_records_iff_free 1%positive Sample.x_ref 2%positive Sample.x_heap
              Sample.x_chain [] H2 H1 Hne) as (h' & Hrun & _ & Hiff & _).
  exists h'. split; [exact Hrun|]. apply Hiff. split; [discriminate|].
  intros [(p & t & _ & Ht & _)|[Hx _]]; [|discriminate Hx].
  simpl in Ht. by rewrite lookup_empty in Ht.
Defined.

Lemma VariableDeclaration_declares_in_nearest_scope_witness :
  ∃ h',
    VariableDeclaration_visitor Sample.a_decl 2%positive Sample.a_heap = (Return tt, h')
    ∧ declared_in (h_locals h') (nid Sample.f_decl) "a".
Proof.
  destruct (VariableDeclaration_declares_in_nearest_scope Sample.a_decl 2%positive
              Sample.a_heap [Sample.x_program] Sample.f_decl
              [Sample.f_body; Sample.a_block; Sample.a_decl])
    as (h' & Hrun & _ & _ & _ & Hdecl & _).
  - reflexivity.
  - reflexivity.
  - left. split; [reflexivity|]. split.
    + right. left. reflexivity.
    + repeat constructor; by apply not_function_like_by_type.
  - exists h'. split; [exact Hrun|]. apply Hdecl. vm_compute. set_solver.
Defined.

Lemma declaration_named_in_enclosing_scope_witness :
  (∃ h',
     FunctionDeclaration_visitor Sample.f_decl 2%positive Sample.f_heap = (Return tt, h')
     ∧ declared_in (h_locals h') (nid Sample.x_program) "f"
     ∧ declared_in (h_locals h') (nid Sample.f_decl) "p")
  ∧ (∃ h',
       ClassDeclaration_visitor Sample.c_decl 2%positive Sample.c_heap = (Return tt, h')
       ∧ declared_in (h_locals h') (nid Sample.x_program) "C").
Proof.
  split.
  - destruct (proj1 declaration_named_in_enclosing_scope Sample.f_decl 2%positive
                Sample.f_heap [] Sample.x_program [] (Sample.Identifier 3 "f"))
      as (h' & Hrun & _ & _ & _ & Hf & _ & Hp).
    + reflexivity.
    + left. reflexivity.
    + constructor.
    + reflexivity.
    + reflexivity.
    + exists h'. split; [exact Hrun|]. split; [exact Hf|].
      apply Hp. vm_compute. set_solver.
  - destruct (proj2 declaration_named_in_enclosing_scope Sample.c_decl 2%positive
                Sample.c_heap [] Sample.x_program [] (Sample.Identifier 3 "C"))
      as (h' & Hrun & _ & _ & _ & Hc & _).
    + reflexivity.
    + right. left. reflexivity.
    + constructor.
    + reflexivity.
    + exists h'. split; [exact Hrun|exact Hc].
Defined.

Lemma this_recorded_iff_no_function_witness :
  ∃ h',
    ThisExpression_visitor 1%positive Sample.this_ref 2%positive Sample.this_heap
      = (Return tt, h')
    ∧ h_arrays h' !! 1%positive = Some [Sample.this_ref]
    ∧ ∃ g, g ∈ report [Sample.this_ref] ∧ group_name g = "this".
Proof.
  destruct (this_recorded_iff_no_function 1%positive Sample.this_ref 2%positive
              Sample.this_heap Sample.this_chain [])
    as (h' & Hrun & Hiff & _ & Hgroup).
  - reflexivity.
  - reflexivity.
  - exists h'. split; [exact Hrun|]. split.
    + apply Hiff. intros (p & Hp & Hf).
      apply declaresThis_plain in Hf.
      repeat (apply elem_of_cons in Hp as [->|Hp]; [discriminate Hf|]).
      by apply not_elem_of_nil in Hp.
    + destruct (Hgroup [Sample.this_ref]) as (g & Hg & Hname & _);
        [reflexivity | by left | eauto].
Defined.

Lemma anonymous_declaration_declares_no_name_witness :
  (∃ h',
     FunctionDeclaration_visitor Sample.anon_f 2%positive Sample.anon_f_heap
       = (Return tt, h')
     ∧ (∀ x, ¬ declared_in (h_locals h') (nid Sample.x_program) x)
     ∧ declared_in (h_locals h') (nid Sample.anon_f) "p")
  ∧ (∃ h',
       ClassDeclaration_visitor Sample.anon_c 2%positive Sample.anon_c_heap
         = (Return tt, h')
       ∧ ∀ k x, ¬ declared_in (h_locals h') k x).
Proof.
  assert (∀ k x, ¬ declared_in (h_locals Sample.empty_heap) k x) as Hnone.
  { intros k x (t & Ht & _). simpl in Ht. by rewrite lookup_empty in Ht. }
  split.
  - destruct (proj1 anonymous_declaration_declares_no_name Sample.anon_f 2%positive
                Sample.anon_f_heap [] Sample.x_program [Sample.anon_export])
      as (h' & Hrun & _ & Hscope & Hp).
    + reflexivity.
    + left. reflexivity.
    + repeat constructor. by apply not_function_like_by_type.
    + reflexivity.
    + reflexivity.
    + exists h'. split; [exact Hrun|]. split.
      * intros x Hx. apply Hscope in Hx; [|simpl; lia]. by apply (Hnone _ _ Hx).
      * apply Hp. vm_compute. set_solver.
  - destruct (proj2 anonymous_declaration_declares_no_name Sample.anon_c 2%positive
                Sample.anon_c_heap [] Sample.x_program [Sample.anon_export])
      as (h' & Hrun & _ & Hsame).
    + reflexivity.
    + right. left. reflexivity.
    + repeat constructor. by apply not_block_scope_by_type.
    + reflexivity.
    + exists h'. split; [exact Hrun|]. intros k x Hx%Hsame. by apply (Hnone _ _ Hx).
Defined.

Lemma syntax_error_fallback_witness :
  (parseWithGlobals Sample.no_parser Sample.loose_program Sample.x_base
     (SourceText "x x") None false Sample.empty_heap).1
  = Throw (ParseError (AcornError "Unexpected token (1:0)" 0 0))
  ∧ reallyParse Sample.no_parser Sample.loose_program "x x" ∅ true
    = Return (mkParsed (Some Sample.x_program) (Some "Unexpected token (1:0)")).
Proof.
  destruct (syntax_error_fallback Sample.no_parser Sample.loose_program Sample.x_base
              "x x" None (AcornError "Unexpected token (1:0)" 0 0) Sample.empty_heap)
    as (_ & Hoff & Hon & _).
  - reflexivity.
  - split; [exact Hoff|exact Hon].
Defined.

(** * Two analyses, evaluated *)

(** In [var a; a; b; this;] the references [b] and [this] are global. *)
Example analysis_of_var_program :
  (parseWithGlobals Sample.no_parser Sample.loose_program Sample.var_base
     (SourceObject Sample.var_program) None false Sample.empty_heap).1
  = Return (mkOutput Sample.var_program
              [mkGroup "b" [Sample.var_b]; mkGroup "this" [Sample.var_this]]
              None).
Proof. by vm_compute. Qed.

(** In [function f(p) { p; arguments; q; this; } f;] only [q] is global. *)
Example analysis_of_function_program :
  (parseWithGlobals Sample.no_parser Sample.loose_program Sample.fn_base
     (SourceObject Sample.fn_program) None false Sample.empty_heap).1
  = Return (mkOutput Sample.fn_program [mkGroup "q" [Sample.fn_q]] None).
Proof. by vm_compute. Qed.

(** * Further properties of the program *)

(** ** Binding patterns *)

Lemma pattern_effect_supported n :
  (pattern_effect n).1 = Return tt → supported_pattern n = true.
Proof.
  induction n as [n Hprops Helems Harg Hleft] using Node_pattern_ind.
  destruct n as [i ty nm kd fid ps ds hd pm lc props elems v arg lft].
  simpl in *.
  repeat case_match; try done.
  - clear Helems Harg Hleft. induction props as [|p rest IH]; [done|].
    destruct p. simpl in *. apply Forall_cons in Hprops as [Hp Hrest].
    unfold effect_then.
    destruct (or_else _ _) as [q|]; [|done].
    destruct (pattern_effect q) as [[[]|e] S] eqn:Hq; simpl; [|done].
    intros Hr. rewrite (Hp q eq_refl) by by rewrite Hq. simpl. by apply IH.
  - clear Hprops Harg Hleft. induction elems as [|e rest IH]; [done|].
    apply Forall_cons in Helems as [He Hrest].
    unfold effect_then. destruct e as [q|]; simpl.
    + destruct (pattern_effect q) as [[[]|e] S] eqn:Hq; simpl; [|done].
      intros Hr. rewrite (He q eq_refl) by by rewrite Hq. simpl. by apply IH.
    + intros Hr. by apply IH.
  - by apply Harg.
  - by apply Hleft.
Qed.

Lemma pattern_effect_Return_iff n :
  (pattern_effect n).1 = Return tt ↔ supported_pattern n = true.
Proof.
  split; [apply pattern_effect_supported|].
  intros H. by rewrite (supported_pattern_effect _ H).
Qed.

(** Without a table on [parent], [declarePattern] changes nothing. *)
Lemma declarePattern_at_no_table n parent h :
  h_locals h !! nid parent = None → (declarePattern_at n parent h).2 = h.
Proof.
  revert h. induction n as [n Hprops Helems Harg Hleft] using Node_pattern_ind.
  intros h Hnone.
  destruct n as [i ty nm kd fid ps ds hd pm lc props elems v arg lft].
  simpl in *.
  repeat case_match; try done.
  - unfold set_local. by rewrite Hnone.
  - clear Helems Harg Hleft. revert h Hnone.
    induction props as [|p rest IH]; intros h Hnone; [done|].
    destruct p. simpl in *. apply Forall_cons in Hprops as [Hp Hrest].
    unfold bind.
    destruct (or_else _ _) as [q|]; [|done].
    specialize (Hp q eq_refl h Hnone).
    destruct (declarePattern_at q parent h) as [[[]|e] h1]; simpl in *; subst h1; [|done].
    by apply IH.
  - clear Hprops Harg Hleft. revert h Hnone.
    induction elems as [|e rest IH]; intros h Hnone; [done|].
    apply Forall_cons in Helems as [He Hrest].
    unfold bind. destruct e as [q|]; simpl.
    + specialize (He q eq_refl h Hnone).
      destruct (declarePattern_at q parent h) as [[[]|e] h1]; simpl in *; subst h1; [|done].
      by apply IH.
    + by apply IH.
  - by apply Harg.
  - by apply Hleft.
Qed.

(** X1: on a pattern made of the supported kinds, [declarePattern] returns
    and adds to the table of [parent] exactly the names the pattern binds;
    no other table, no [parents] field and no array changes. *)
Theorem declarePattern_declares_bound_names (node parent : Node) (h : heap)
    (t : gset string) :
  supported_pattern node = true →
  h_locals h !! nid parent = Some t →
  ∃ h',
    declarePattern (Some node) parent h = (Return tt, h')
    ∧ h_locals h' !! nid parent = Some (t ∪ bound_names node)
    ∧ (∀ k, k ≠ nid parent → h_locals h' !! k = h_locals h !! k)
    ∧ h_parents h' = h_parents h
    ∧ h_arrays h' = h_arrays h.
Proof.
  intros Hsup Ht. simpl.
  rewrite (declares_pattern node parent h) by eauto.
  rewrite (supported_pattern_effect _ Hsup). simpl.
  eexists. split; [done|]. simpl. split; [|split; [|done]].
  - by rewrite lookup_declare_eq, Ht.
  - intros k Hk. by apply lookup_declare_ne.
Qed.

(** X2: whatever the pattern, and also when it throws midway,
    [declarePattern] only adds names to the table of [parent]: every name a
    table holds stays, the other tables are the same, and so are all
    [parents] fields and arrays; when [parent] has no table, nothing
    changes at all. *)
Theorem declarePattern_only_adds (node : option Node) (parent : Node) (h : heap) :
  let h' := (declarePattern node parent h).2 in
  (∀ k x, declared_in (h_locals h) k x → declared_in (h_locals h') k x)
  ∧ (∀ k, k ≠ nid parent → h_locals h' !! k = h_locals h !! k)
  ∧ h_parents h' = h_parents h
  ∧ h_arrays h' = h_arrays h
  ∧ (h_locals h !! nid parent = None → h' = h).
Proof.
  intros h'.
  destruct (h_locals h !! nid parent) as [t|] eqn:Ht.
  - unfold h'. rewrite (declares_pattern_opt node parent h) by eauto. simpl.
    split; [|split; [|done]].
    + intros k x Hx. by apply declared_in_declare_mono.
    + intros k Hk. by apply lookup_declare_ne.
  - assert (h' = h) as ->.
    { unfold h'. destruct node as [n|]; [|done]. by apply declarePattern_at_no_table. }
    done.
Qed.

Lemma declarePattern_only_adds_witness :
  (declarePattern (Some Patterns.with_member) Sample.x_program Patterns.table_heap).1
  = Throw (Error "Unrecognized pattern type: MemberExpression")
  ∧ declared_in
      (h_locals (declarePattern (Some Patterns.with_member) Sample.x_program
                   Patterns.table_heap).2) 1%positive "a"
  ∧ h_arrays (declarePattern (Some Patterns.with_member) Sample.x_program
                Patterns.table_heap).2 = ∅.
Proof.
  split; [reflexivity|]. split.
  - exists {["a"]}. split; [reflexivity|]. by apply elem_of_singleton.
  - exact (proj1 (proj2 (proj2 (proj2
      (declarePattern_only_adds (Some Patterns.with_member) Sample.x_program
         Patterns.table_heap))))).
Defined.

(** X3: [declarePattern] throws exactly on the patterns that are not made
    of the five supported kinds; when the kind of the pattern itself is
    none of the five, what it throws is the error naming that kind, and the
    heap is unchanged. *)
Theorem declarePattern_throws_iff_unsupported (node parent : Node) (h : heap) :
  is_Some (h_locals h !! nid parent) →
  ((declarePattern (Some node) parent h).1 = Return tt ↔ supported_pattern node = true)
  ∧ (type node ≠ "Identifier" → type node ≠ "ObjectPattern" →
     type node ≠ "ArrayPattern" → type node ≠ "RestElement" →
     type node ≠ "AssignmentPattern" →
     declarePattern (Some node) parent h
     = (Throw (Error (String.append "Unrecognized pattern type: " (type node))), h)).
Proof.
  intros Ht. split.
  - simpl. rewrite (declares_pattern node parent h Ht). simpl.
    apply pattern_effect_Return_iff.
  - intros H1 H2 H3 H4 H5. destruct node. simpl in *.
    apply String.eqb_neq in H1, H2, H3, H4, H5.
    by rewrite H1, H2, H3, H4, H5.
Qed.

Lemma declarePattern_declares_bound_names_witness :
  ∃ h',
    declarePattern (Some Patterns.destructuring) Sample.x_program Patterns.table_heap
      = (Return tt, h')
    ∧ h_locals h' !! 1%positive = Some ({["a"]} ∪ ({["c"]} ∪ {["d"]}) ∪ {["e"]}).
Proof.
  destruct (declarePattern_declares_bound_names Patterns.destructuring Sample.x_program
              Patterns.table_heap ∅) as (h' & Hrun & Ht & _).
  - reflexivity.
  - reflexivity.
  - exists h'. split; [exact Hrun|]. etrans; [exact Ht|]. reflexivity.
Defined.

Lemma declarePattern_throws_iff_unsupported_witness :
  (declarePattern (Some Patterns.with_member) Sample.x_program Patterns.table_heap).1
  ≠ Return tt.
Proof.
  destruct (declarePattern_throws_iff_unsupported Patterns.with_member Sample.x_program
              Patterns.table_heap) as [Hiff _].
  - exists ∅. reflexivity.
  - intros Hret. apply Hiff in Hret. discriminate Hret.
Defined.


(** ** Functions, classes and imports *)

(** X4: declaring a function twice, as the walk does for every function
    declaration (once under [Function], once under [FunctionDeclaration]),
    is the same as declaring it once. *)
Theorem declareFunction_twice (node : Node) (h : heap) :
  (declareFunction node >>> declareFunction node) h = declareFunction node h.
Proof.
  unfold bind. rewrite !declareFunction_run.
  destruct (function_effect node) as [[[]|e] S]; simpl; [|done].
  f_equal. unfold with_locals. simpl.
  by rewrite declare_declare, (idemp_L (∪)).
Qed.

(** X5: the visitors registered for [Function] and [Class] declare into
    the node's own table only, whatever the ancestors: a function's
    parameters and name, a class's name.  The names are bound for every
    reference whose chain contains the node, and the classification of the
    references whose chain does not contain it is unchanged. *)
Theorem own_scope_visitors (ast node : Node) (parents : positive) (h : heap) :
  (forallb supported_pattern (params node) = true →
   let names := bound_names_list (params node) ∪ id_names (id node) in
   ∃ found h',
     scope_visitors ast "Function" = Some found
     ∧ found node parents h = (Return tt, h')
     ∧ h_locals h' = declare (nid node) names (h_locals h)
     ∧ h_parents h' = h_parents h ∧ h_arrays h' = h_arrays h
     ∧ (∀ x chain, x ∈ names → (∃ q, q ∈ chain ∧ nid q = nid node) →
          identifier_loop x chain h' = (Return true, h'))
     ∧ (∀ x chain, (∀ q, q ∈ chain → nid q ≠ nid node) →
          (identifier_loop x chain h').1 = (identifier_loop x chain h).1))
  ∧ ∃ found h',
      scope_visitors ast "Class" = Some found
      ∧ found node parents h = (Return tt, h')
      ∧ h_locals h' = declare (nid node) (id_names (id node)) (h_locals h)
      ∧ h_parents h' = h_parents h ∧ h_arrays h' = h_arrays h
      ∧ (∀ x chain, x ∈ id_names (id node) → (∃ q, q ∈ chain ∧ nid q = nid node) →
           identifier_loop x chain h' = (Return true, h'))
      ∧ (∀ x chain, (∀ q, q ∈ chain → nid q ≠ nid node) →
           (identifier_loop x chain h').1 = (identifier_loop x chain h).1).
Proof.
  assert (∀ names h',
    h_locals h' = declare (nid node) names (h_locals h) →
    (∀ x chain, x ∈ names → (∃ q, q ∈ chain ∧ nid q = nid node) →
       identifier_loop x chain h' = (Return true, h'))
    ∧ (∀ x chain, (∀ q, q ∈ chain → nid q ≠ nid node) →
         (identifier_loop x chain h').1 = (identifier_loop x chain h).1)) as Hbound.
  { intros names h' HL. split.
    - intros x chain Hx (q & Hq & Hid).
      rewrite identifier_loop_run. do 2 f_equal.
      apply bound_in_spec. left.
      assert (declared_in (h_locals h') (nid node) x) as (t & Ht & Hxt).
      { rewrite HL. apply declared_in_declare. by right. }
      exists q, t. by rewrite Hid.
    - intros x chain Hout. rewrite !identifier_loop_run. simpl. f_equal.
      apply bound_in_outside. intros q Hq. rewrite HL.
      apply lookup_declare_ne, not_eq_sym. by apply Hout. }
  split.
  - intros Hsup names. eexists _, _. split; [reflexivity|].
    cbv beta. rewrite declareFunction_run. unfold function_effect.
    rewrite (supported_params_effect _ Hsup). simpl.
    split; [done|]. split; [done|]. split; [done|]. split; [done|].
    by apply Hbound.
  - eexists _, _. split; [reflexivity|].
    cbv beta. rewrite declareClass_run.
    split; [done|]. split; [done|]. split; [done|]. split; [done|].
    by apply Hbound.
Qed.

(** X6: the visitor of an import specifier of any of the three kinds
    declares the local name into the table of the program root, whatever
    the ancestors of the specifier; the name is then bound for every
    reference whose chain contains the root. *)
Theorem import_declared_in_root (ast node l : Node) (ty : string)
    (parents : positive) (h : heap) :
  ty = "ImportDefaultSpecifier" ∨ ty = "ImportSpecifier"
  ∨ ty = "ImportNamespaceSpecifier" →
  local node = Some l →
  ∃ found h',
    scope_visitors ast ty = Some found
    ∧ found node parents h = (Return tt, h')
    ∧ h_locals h' = declare (nid ast) {[name l]} (h_locals h)
    ∧ h_parents h' = h_parents h ∧ h_arrays h' = h_arrays h
    ∧ ∀ chain, (∃ q, q ∈ chain ∧ nid q = nid ast) →
        identifier_loop (name l) chain h' = (Return true, h').
Proof.
  intros Hty Hl.
  assert (∃ h',
    declareModuleSpecifier ast node h = (Return tt, h')
    ∧ h_locals h' = declare (nid ast) {[name l]} (h_locals h)
    ∧ h_parents h' = h_parents h ∧ h_arrays h' = h_arrays h
    ∧ ∀ chain, (∃ q, q ∈ chain ∧ nid q = nid ast) →
        identifier_loop (name l) chain h' = (Return true, h'))
    as (h' & Hrun & HL & Hp & Ha & Hbound).
  { rewrite declareModuleSpecifier_run. unfold local_effect. rewrite Hl. simpl.
    eexists. split; [done|]. split; [done|]. split; [done|]. split; [done|].
    intros chain (q & Hq & Hid). rewrite identifier_loop_run. do 2 f_equal. simpl.
    apply bound_in_spec. left. eexists q, _. split; [done|].
    rewrite Hid, lookup_declare_eq. split; [done|].
    apply elem_of_union. right. by apply elem_of_singleton. }
  destruct Hty as [-> | [-> | ->]]; eexists _, h'; (split; [reflexivity|]); by cbv beta.
Qed.

Lemma own_scope_visitors_witness :
  ∃ found h',
    scope_visitors Sample.x_program "Function" = Some found
    ∧ found Sample.f_decl 2%positive Sample.empty_heap = (Return tt, h')
    ∧ h_locals h' !! nid Sample.f_decl = Some ({["p"]} ∪ {["f"]})
    ∧ h_locals h' !! nid Sample.x_program = None.
Proof.
  destruct (proj1 (own_scope_visitors Sample.x_program Sample.f_decl 2%positive
                     Sample.empty_heap))
    as (found & h' & Hfound & Hrun & HL & _).
  - reflexivity.
  - exists found, h'. split; [exact Hfound|]. split; [exact Hrun|].
    rewrite HL. split; reflexivity.
Defined.

Lemma import_declared_in_root_witness :
  ∃ found h',
    scope_visitors Sample.x_program "ImportDefaultSpecifier" = Some found
    ∧ found Patterns.import_fs 2%positive Sample.empty_heap = (Return tt, h')
    ∧ h_locals h' !! nid Sample.x_program = Some {["fs"]}.
Proof.
  destruct (import_declared_in_root Sample.x_program Patterns.import_fs
              (Sample.Identifier 32 "fs") "ImportDefaultSpecifier" 2%positive
              Sample.empty_heap)
    as (found & h' & Hfound & Hrun & HL & _).
  - left. reflexivity.
  - reflexivity.
  - exists found, h'. split; [exact Hfound|]. split; [exact Hrun|].
    rewrite HL. reflexivity.
Defined.

(** ** The search for the owning scope, in full *)

Lemma nearest_below_snoc test l x :
  nearest_below test (l ++ [x]) (length (l ++ [x]))
  = if test x then Some x else nearest_below test l (length l).
Proof.
  rewrite length_app. simpl. rewrite Nat.add_1_r. simpl.
  rewrite lookup_app_r by lia. rewrite Nat.sub_diag. simpl.
  destruct (test x); [done|]. by apply nearest_below_take.
Qed.

Lemma nearest_below_None_inv test chain :
  nearest_below test chain (length chain) = None →
  Forall (λ q, test q = false) chain.
Proof.
  induction chain as [|x chain IH] using rev_ind; [done|].
  rewrite nearest_below_snoc, Forall_app, Forall_singleton.
  destruct (test x) eqn:Hx; [done|]. intros Hn. split; [by apply IH|done].
Qed.

(** X7: the search the declaration visitors run over the chain fails
    exactly when no entry passes the test, and otherwise returns the last
    entry that passes it. *)
Theorem nearest_below_spec (test : Node → bool) (chain : list Node) :
  (nearest_below test chain (length chain) = None
   ↔ Forall (λ q, test q = false) chain)
  ∧ ∀ p, nearest_below test chain (length chain) = Some p
         ↔ ∃ l1 l2, chain = l1 ++ p :: l2 ∧ test p = true
                    ∧ Forall (λ q, test q = false) l2.
Proof.
  split.
  - split; [apply nearest_below_None_inv | apply nearest_below_none].
  - intros p. split; [|by intros (l1 & l2 & -> & Hp & Hl2); apply nearest_below_found].
    induction chain as [|x chain IH] using rev_ind; [done|].
    rewrite nearest_below_snoc. destruct (test x) eqn:Hx.
    + intros [= ->]. by exists chain, [].
    + intros (l1 & l2 & -> & Hp & Hl2)%IH.
      exists l1, (l2 ++ [x]). rewrite <- (assoc_L (++)). split; [done|].
      split; [done|]. apply Forall_app. split; [done|]. by apply Forall_singleton.
Qed.

Lemma nearest_below_spec_witness :
  nearest_below isScope [Sample.x_program; Sample.x_stmt; Sample.x_ref] 3
  = Some Sample.x_program.
Proof.
  apply (proj2 (nearest_below_spec isScope [Sample.x_program; Sample.x_stmt; Sample.x_ref])).
  exists [], [Sample.x_stmt; Sample.x_ref]. split; [reflexivity|].
  split; [reflexivity|]. repeat constructor.
Defined.

Lemma not_block_scope_not_function_like n : ¬ block_scope n → ¬ function_like n.
Proof. intros H Hf. apply H. by right. Qed.

Lemma scope_test_false node chain :
  (kind node = "var" ∧ Forall (λ q, ¬ function_like q) chain)
  ∨ Forall (λ q, ¬ block_scope q) chain →
  Forall (λ q, scope_test node q = false) chain.
Proof.
  unfold scope_test. intros [[-> H]|H]; simpl.
  - by apply not_function_like_isScope.
  - destruct (String.eqb (kind node) "var").
    + apply not_function_like_isScope. eapply Forall_impl; [done|].
      intros q. apply not_block_scope_not_function_like.
    + by apply not_block_scope_isBlockScope.
Qed.

(** X8: a variable declaration whose chain holds no scope of the kind it
    looks for (no function-like entry for [var], no block scope for any
    kind) makes its visitor throw a TypeError and change nothing; when the
    chain holds a Program node and the declarator patterns are supported,
    the visitor returns, whatever the kind of the declaration. *)
Theorem VariableDeclaration_scope_lookup (node : Node) (parents : positive)
    (h : heap) (chain : list Node) :
  h_arrays h !! parents = Some chain →
  ((kind node = "var" ∧ Forall (λ q, ¬ function_like q) chain)
   ∨ Forall (λ q, ¬ block_scope q) chain →
   VariableDeclaration_visitor node parents h = (Throw null_locals, h))
  ∧ ((∃ q, q ∈ chain ∧ type q = "Program") →
     supported_declarators (declarations node) = true →
     (VariableDeclaration_visitor node parents h).1 = Return tt).
Proof.
  intros Hchain. rewrite (VariableDeclaration_run _ _ _ _ Hchain). split.
  - intros Hnone%scope_test_false.
    by rewrite (nearest_below_none _ _ Hnone).
  - intros (q & Hq & Hty) Hsup.
    destruct (nearest_below (scope_test node) chain (length chain)) as [p|] eqn:Hn.
    + by rewrite (supported_declarators_effect _ Hsup).
    + apply nearest_below_None_inv in Hn. rewrite Forall_forall in Hn.
      specialize (Hn q Hq). simpl in Hn. unfold scope_test in Hn.
      destruct (String.eqb (kind node) "var");
        unfold isBlockScope, isScope in Hn; rewrite Hty in Hn; done.
Qed.

Lemma VariableDeclaration_scope_lookup_witness :
  VariableDeclaration_visitor Sample.a_decl 2%positive
    (Heap ∅ ∅ (<[2%positive := [Sample.a_block; Sample.a_decl]]> ∅))
  = (Throw null_locals, Heap ∅ ∅ (<[2%positive := [Sample.a_block; Sample.a_decl]]> ∅))
  ∧ (VariableDeclaration_visitor Sample.a_decl 2%positive Sample.a_heap).1 = Return tt.
Proof.
  split.
  - apply (VariableDeclaration_scope_lookup Sample.a_decl 2%positive _
             [Sample.a_block; Sample.a_decl]); [reflexivity|].
    left. split; [reflexivity|].
    repeat constructor; by apply not_function_like_by_type.
  - apply (VariableDeclaration_scope_lookup Sample.a_decl 2%positive Sample.a_heap
             [Sample.x_program; Sample.f_decl; Sample.f_body; Sample.a_block;
              Sample.a_decl]); [reflexivity| |reflexivity].
    exists Sample.x_program. split; [by left|reflexivity].
Defined.

(** X9: a function or class declaration with no scope strictly above it in
    the chain (the entries before the last) makes its visitor throw a
    TypeError and change nothing, also when the last entry, the declaration
    itself, is a scope, and when the array it receives is empty. *)
Theorem declaration_without_enclosing_scope (node : Node) (parents : positive)
    (h : heap) (chain : list Node) :
  h_arrays h !! parents = Some chain →
  (Forall (λ q, ¬ function_like q) (removelast chain) →
   FunctionDeclaration_visitor node parents h = (Throw null_locals, h))
  ∧ (Forall (λ q, ¬ block_scope q) (removelast chain) →
     ClassDeclaration_visitor node parents h = (Throw null_locals, h)).
Proof.
  intros Hchain.
  rewrite (FunctionDeclaration_run _ _ _ _ Hchain), (ClassDeclaration_run _ _ _ _ Hchain).
  destruct chain as [|x chain _] using rev_ind; [done|].
  rewrite removelast_last, !nearest_below_strict. split.
  - intros Hnone%not_function_like_isScope.
    by rewrite (nearest_below_none _ _ Hnone).
  - intros Hnone%not_block_scope_isBlockScope.
    by rewrite (nearest_below_none _ _ Hnone).
Qed.

Lemma declaration_without_enclosing_scope_witness :
  FunctionDeclaration_visitor Sample.f_decl 2%positive
    (Heap ∅ ∅ (<[2%positive := [Sample.f_body; Sample.f_decl]]> ∅))
  = (Throw null_locals, Heap ∅ ∅ (<[2%positive := [Sample.f_body; Sample.f_decl]]> ∅)).
Proof.
  apply (declaration_without_enclosing_scope Sample.f_decl 2%positive _
           [Sample.f_body; Sample.f_decl]).
  - reflexivity.
  - repeat constructor. by apply not_function_like_by_type.
Defined.

(** ** Catch clauses *)

(** Names declared into one table are bound for the chains that contain its
    node, and change nothing for the chains that do not. *)
Lemma declare_scoping k names h h' :
  h_locals h' = declare k names (h_locals h) →
  (∀ x chain, x ∈ names → (∃ q, q ∈ chain ∧ nid q = k) →
     identifier_loop x chain h' = (Return true, h'))
  ∧ (∀ x chain, (∀ q, q ∈ chain → nid q ≠ k) →
       (identifier_loop x chain h').1 = (identifier_loop x chain h).1).
Proof.
  intros HL. split.
  - intros x chain Hx (q & Hq & Hid).
    rewrite identifier_loop_run. do 2 f_equal.
    apply bound_in_spec. left.
    assert (declared_in (h_locals h') k x) as (t & Ht & Hxt).
    { rewrite HL. apply declared_in_declare. by right. }
    exists q, t. by rewrite Hid.
  - intros x chain Hout. rewrite !identifier_loop_run. simpl. f_equal.
    apply bound_in_outside. intros q Hq. rewrite HL.
    apply lookup_declare_ne, not_eq_sym. by apply Hout.
Qed.

(** X10: a try statement without a catch clause changes nothing; with a
    catch clause whose parameter is a supported pattern, the names of the
    pattern go into the table of the catch clause itself, so that they are
    bound for the references whose chain contains the clause and make no
    difference to the references whose chain does not. *)
Theorem catch_parameter_scoped (node : Node) (parents : positive) (h : heap) :
  (handler node = None → TryStatement_visitor node parents h = (Return tt, h))
  ∧ ∀ clause pattern,
      handler node = Some clause → param clause = Some pattern →
      supported_pattern pattern = true →
      ∃ h',
        TryStatement_visitor node parents h = (Return tt, h')
        ∧ h_locals h' = declare (nid clause) (bound_names pattern) (h_locals h)
        ∧ h_parents h' = h_parents h ∧ h_arrays h' = h_arrays h
        ∧ (∀ x chain, x ∈ bound_names pattern →
             (∃ q, q ∈ chain ∧ nid q = nid clause) →
             identifier_loop x chain h' = (Return true, h'))
        ∧ (∀ x chain, (∀ q, q ∈ chain → nid q ≠ nid clause) →
             (identifier_loop x chain h').1 = (identifier_loop x chain h).1).
Proof.
  split; [apply TryStatement_without_handler|].
  intros clause pattern Hh Hp Hsup.
  rewrite (TryStatement_declares_param _ _ _ _ _ Hh Hp Hsup).
  eexists. split; [done|]. split; [done|]. split; [done|]. split; [done|].
  by apply declare_scoping.
Qed.

(** ** Parsing *)
Section parse.
Context (acorn_parse : string → gmap string jsval → acorn_error + Node)
        (acornLoose_parse : string → gmap string jsval → Node)
        (base : Node → list visit).

Local Abbreviation parseWithGlobals := (parseWithGlobals acorn_parse acornLoose_parse base).
Local Abbreviation reallyParse := (reallyParse acorn_parse acornLoose_parse).

(** X11: when the strict parse succeeds, [reallyParse] returns its AST and
    no parsing error whatever the fallback flag, and the analysis of the
    string is the analysis of that AST given as an object, for which the
    options and the flag play no part. *)
Theorem strict_parse_success (source : string) (options : option (gmap string jsval))
    (fallbackToLoose : bool) (program : Node) (h : heap) :
  acorn_parse source (forced_options ∪ default ∅ options) = inr program →
  reallyParse source (default ∅ options) fallbackToLoose
  = Return (mkParsed (Some program) None)
  ∧ ∀ options' fallbackToLoose',
      parseWithGlobals (SourceText source) options fallbackToLoose h
      = parseWithGlobals (SourceObject program) options' fallbackToLoose' h.
Proof.
  intros Hparse.
  assert (reallyParse source (default ∅ options) fallbackToLoose
          = Return (mkParsed (Some program) None)) as Hreally.
  { unfold reallyParse. by rewrite Hparse. }
  split; [done|]. intros options' fallbackToLoose'.
  unfold parseWithGlobals, bind, new_array, ret. by rewrite Hreally.
Qed.

(** X12: the four parser options the program sets cannot be overridden:
    the options handed to the parsers hold them as [true] whatever the
    caller passes, every other option is the caller's, and two option
    objects that differ on those four keys only give the same result. *)
Theorem forced_options_win (source : string) (options options' : gmap string jsval)
    (fallbackToLoose : bool) :
  (∀ k, k ∈ forced_keys → (forced_options ∪ options) !! k = Some (JBool true))
  ∧ (∀ k, k ∉ forced_keys → (forced_options ∪ options) !! k = options !! k)
  ∧ ((∀ k, k ∉ forced_keys → options !! k = options' !! k) →
     reallyParse source options fallbackToLoose
     = reallyParse source options' fallbackToLoose).
Proof.
  assert (∀ k, k ∈ forced_keys → forced_options !! k = Some (JBool true)) as Hin.
  { intros k Hk. unfold forced_keys in Hk.
    repeat (apply elem_of_cons in Hk as [->|Hk]; [reflexivity|]).
    by apply not_elem_of_nil in Hk. }
  assert (∀ k, k ∉ forced_keys → forced_options !! k = None) as Hout.
  { intros k Hk. unfold forced_keys in Hk. unfold forced_options.
    rewrite !not_elem_of_cons in Hk. destruct Hk as (H1 & H2 & H3 & H4 & _).
    by rewrite !lookup_insert_ne by done. }
  assert (∀ o k, k ∉ forced_keys → (forced_options ∪ o) !! k = o !! k) as Hunion.
  { intros o k Hk. rewrite lookup_union, (Hout k Hk). by destruct (o !! k). }
  split; [|split; [by apply Hunion|]].
  - intros k Hk. by rewrite (lookup_union_Some_l _ _ _ _ (Hin k Hk)).
  - intros Hsame.
    assert (forced_options ∪ options = forced_options ∪ options') as Heq.
    { apply map_eq. intros k. destruct (decide (k ∈ forced_keys)) as [Hk|Hk].
      - by rewrite !(lookup_union_Some_l _ _ _ _ (Hin k Hk)).
      - rewrite !Hunion by done. by apply Hsame. }
    unfold reallyParse. by rewrite Heq.
Qed.

(** X13: the analysis returns a result for Program-rooted ASTs only.  A
    source that is neither a string nor an object, or an object whose type
    is not [Program], makes it throw the TypeError before any walk: no
    binding table, no [parents] field and no existing array is changed.
    When it returns, the AST of the result is a Program, and for an AST
    given as an object it is that object, with no parsing error. *)
Theorem analysis_accepts_programs_only (source : Source)
    (options : option (gmap string jsval)) (fallbackToLoose : bool) (h : heap) :
  ((source = SourceOther ∨ ∃ node, source = SourceObject node ∧ type node ≠ "Program") →
   ∃ h',
     parseWithGlobals source options fallbackToLoose h = (Throw not_a_program, h')
     ∧ h_locals h' = h_locals h ∧ h_parents h' = h_parents h
     ∧ ∀ a, is_Some (h_arrays h !! a) → h_arrays h' !! a = h_arrays h !! a)
  ∧ ∀ out h',
      parseWithGlobals source options fallbackToLoose h = (Return out, h') →
      type (out_ast out) = "Program"
      ∧ ∀ node, source = SourceObject node →
                out_ast out = node ∧ out_parsingError out = None.
Proof.
  split.
  - intros Hbad.
    exists (with_arrays <[fresh (dom (h_arrays h)) := []]> h).
    split; [|split; [done|split; [done|]]].
    + destruct Hbad as [->|(node & -> & Hty)]; [done|].
      unfold parseWithGlobals, bind, new_array, ret, throw. simpl.
      apply String.eqb_neq in Hty. by rewrite Hty.
    + intros a Ha. simpl. apply lookup_insert_ne, not_eq_sym. by apply fresh_array_ne.
  - intros out h'. unfold parseWithGlobals, bind, new_array, ret, throw.
    destruct source as [s|node|]; simpl; [| |done].
    + destruct (reallyParse s (default ∅ options) fallbackToLoose)
        as [[[ast|] pe]|e]; simpl; [| done | done].
      destruct (String.eqb_spec (type ast) "Program") as [Hty|Hty]; simpl; [|done].
      destruct (build_scopes base ast _) as [[[]|e] h1]; [|done].
      destruct (classify_references base ast _ h1) as [[[]|e] h2]; [|done].
      intros [= <- <-]. by split.
    + destruct (String.eqb_spec (type node) "Program") as [Hty|Hty]; simpl; [|done].
      destruct (build_scopes base node _) as [[[]|e] h1]; [|done].
      destruct (classify_references base node _ h1) as [[[]|e] h2]; [|done].
      intros [= <- <-]. split; [done|]. by intros ? [= <-].
Qed.
End parse.

Lemma catch_parameter_scoped_witness :
  ∃ h',
    TryStatement_visitor Patterns.try_e 2%positive Sample.empty_heap = (Return tt, h')
    ∧ h_locals h' !! nid Patterns.catch_e = Some {["e"]}.
Proof.
  destruct (proj2 (catch_parameter_scoped Patterns.try_e 2%positive Sample.empty_heap)
              Patterns.catch_e (Sample.Identifier 42 "e"))
    as (h' & Hrun & HL & _).
  - reflexivity.
  - reflexivity.
  - reflexivity.
  - exists h'. split; [exact Hrun|]. rewrite HL. reflexivity.
Defined.

Lemma strict_parse_success_witness :
  reallyParse Patterns.ok_parser Sample.loose_program "x;" ∅ true
  = Return (mkParsed (Some Sample.x_program) None)
  ∧ parseWithGlobals Patterns.ok_parser Sample.loose_program Sample.x_base
      (SourceText "x;") None true Sample.empty_heap
    = parseWithGlobals Patterns.ok_parser Sample.loose_program Sample.x_base
        (SourceObject Sample.x_program) None false Sample.empty_heap.
Proof.
  destruct (strict_parse_success Patterns.ok_parser Sample.loose_program Sample.x_base
              "x;" None true Sample.x_program Sample.empty_heap) as [Hparse Hsame].
  - reflexivity.
  - split; [exact Hparse|apply Hsame].
Defined.

Lemma forced_options_win_witness :
  reallyParse Sample.no_parser Sample.loose_program "x x"
    (<["locations" := JBool false]> ∅) true
  = reallyParse Sample.no_parser Sample.loose_program "x x" ∅ true.
Proof.
  apply (forced_options_win Sample.no_parser Sample.loose_program).
  intros k Hk. apply lookup_insert_ne. intros <-. apply Hk.
  unfold forced_keys. set_solver.
Defined.

Lemma analysis_accepts_programs_only_witness :
  ∃ h',
    parseWithGlobals Sample.no_parser Sample.loose_program Sample.x_base
      SourceOther None false Sample.empty_heap = (Throw not_a_program, h')
    ∧ h_locals h' = ∅.
Proof.
  destruct (proj1 (analysis_accepts_programs_only Sample.no_parser Sample.loose_program
                     Sample.x_base SourceOther None false Sample.empty_heap))
    as (h' & Hrun & HL & _).
  - left. reflexivity.
  - exists h'. split; [exact Hrun|exact HL].
Defined.

(** ** The report as a partition *)

Lemma filter_or_disjoint {A} (P Q : A → Prop) `{∀ x, Decision (P x), ∀ x, Decision (Q x)}
    (l : list A) :
  (∀ x, P x → Q x → False) →
  filter (λ x, P x ∨ Q x) l ≡ₚ filter P l ++ filter Q l.
Proof.
  intros Hdisj. induction l as [|x l IH]; [done|].
  destruct (decide (P x)) as [HP|HP]; destruct (decide (Q x)) as [HQ|HQ].
  - destruct (Hdisj x HP HQ).
  - rewrite (filter_cons_True (λ x, P x ∨ Q x)) by by left.
    rewrite (filter_cons_True P), (filter_cons_False Q) by done.
    simpl. by rewrite IH.
  - rewrite (filter_cons_True (λ x, P x ∨ Q x)) by by right.
    rewrite (filter_cons_False P), (filter_cons_True Q) by done.
    rewrite IH. apply Permutation_middle.
  - rewrite (filter_cons_False (λ x, P x ∨ Q x)) by by intros [|].
    by rewrite (filter_cons_False P), (filter_cons_False Q) by done.
Qed.

Lemma groups_partition (keys : list string) (l : list Node) :
  NoDup keys →
  mjoin ((λ k, filter (λ n, global_name n = k) l) <$> keys)
  ≡ₚ filter (λ n, global_name n ∈ keys) l.
Proof.
  induction 1 as [|k keys Hk Hnd IH]; simpl.
  - induction l as [|x l IHl]; [done|].
    rewrite filter_cons_False; [done|]. apply not_elem_of_nil.
  - rewrite IH.
    rewrite (list_filter_iff (λ n, global_name n ∈ k :: keys)
               (λ n, global_name n = k ∨ global_name n ∈ keys))
      by (intros n; apply elem_of_cons).
    symmetry. apply filter_or_disjoint. by intros n -> Hin.
Qed.

Lemma filter_all {A} (P : A → Prop) `{∀ x, Decision (P x)} (l : list A) :
  (∀ x, x ∈ l → P x) → filter P l = l.
Proof.
  induction l as [|x l IH]; intros Hall; [done|].
  rewrite filter_cons_True by (apply Hall; by left).
  f_equal. apply IH. intros y Hy. apply Hall. by right.
Qed.

Lemma report_nodes recorded :
  group_nodes <$> report recorded
  = (λ k, filter (λ n, global_name n = k) recorded)
    <$> sorted_keys (groupedGlobals recorded).
Proof.
  unfold report. rewrite <- list_fmap_compose. apply list_fmap_ext.
  intros i k _. simpl. rewrite groupedGlobals_lookup.
  by destruct (filter _ recorded).
Qed.

(** X14: the report is a partition of the recorded nodes: the groups have
    pairwise different names, none is empty, every node of a group has the
    name of the group, and the groups put end to end are a permutation of
    the recorded nodes (none is lost, none is reported twice). *)
Theorem report_partitions (recorded : list Node) :
  NoDup (group_name <$> report recorded)
  ∧ (∀ g, g ∈ report recorded → group_nodes g ≠ [])
  ∧ (∀ g n, g ∈ report recorded → n ∈ group_nodes g → global_name n = group_name g)
  ∧ mjoin (group_nodes <$> report recorded) ≡ₚ recorded.
Proof.
  assert (NoDup (sorted_keys (groupedGlobals recorded))) as Hnd.
  { rewrite sorted_keys_perm. apply NoDup_fst_map_to_list. }
  split; [by rewrite report_names|]. split; [|split].
  - intros g Hg. by apply report_elem in Hg as [].
  - intros g n Hg Hn. apply report_elem in Hg as [Hnodes _].
    rewrite Hnodes in Hn. by apply list_elem_of_filter in Hn as [].
  - rewrite report_nodes, (groups_partition _ _ Hnd).
    rewrite filter_all; [done|].
    intros n Hn. apply sorted_keys_elem. rewrite groupedGlobals_lookup.
    assert (n ∈ filter (λ m, global_name m = global_name n) recorded) as Hf
      by by apply list_elem_of_filter.
    destruct (filter _ recorded); [by apply not_elem_of_nil in Hf|eauto].
Qed.

(** ** The loop of [identifier] *)

(** X15: whether [identifier] finds a name bound does not depend on the
    order of the chain: the loop scans from the root inwards, and scanning
    from the innermost ancestor outwards, or in any other order, decides
    the same. *)
Theorem identifier_loop_order (x : string) (chain chain' : list Node) (h : heap) :
  chain ≡ₚ chain' →
  identifier_loop x chain h = identifier_loop x chain' h
  ∧ identifier_loop x (reverse chain) h = identifier_loop x chain h.
Proof.
  assert (∀ c c', c ≡ₚ c' → identifier_loop x c h = identifier_loop x c' h) as Hperm.
  { intros c c' Hp. rewrite !identifier_loop_run. do 2 f_equal.
    apply eq_true_iff_eq. rewrite !bound_in_spec.
    by setoid_rewrite Hp. }
  intros Hp. split; [by apply Hperm|].
  apply Hperm. by rewrite reverse_Permutation.
Qed.

Lemma identifier_loop_order_witness :
  identifier_loop "x" Sample.x_chain Sample.x_heap
  = identifier_loop "x" [Sample.x_ref; Sample.x_stmt; Sample.x_program] Sample.x_heap.
Proof.
  apply (identifier_loop_order "x" Sample.x_chain
           [Sample.x_ref; Sample.x_stmt; Sample.x_program] Sample.x_heap).
  unfold Sample.x_chain.
  change [Sample.x_ref; Sample.x_stmt; Sample.x_program]
    with (reverse [Sample.x_program; Sample.x_stmt; Sample.x_ref]).
  symmetry. apply reverse_Permutation.
Defined.

(** ** Snapshots of the ancestor chain *)
Section snapshots.
Context (g anc : positive) (Hne : anc ≠ g).

Lemma classified_dom chain refs h h' a :
  classified g anc chain refs h h' → is_Some (h_arrays h !! g) →
  is_Some (h_arrays h !! a) → is_Some (h_arrays h' !! a).
Proof.
  intros Hc Hg Ha.
  destruct (decide (a = anc)) as [->|Haa].
  { destruct Hc as (_ & -> & _). eauto. }
  destruct (decide (a = g)) as [->|Hag].
  { by apply (classified_is_Some _ _ _ _ _ _ Hc). }
  destruct Hc as (_ & _ & _ & _ & Ho). by rewrite Ho.
Qed.

Lemma snapshot_of_earlier chain refs start h0 h h' n :
  classified g anc chain refs h0 h → is_Some (h_arrays h0 !! g) →
  snapshot_of g anc start h h' n → snapshot_of g anc start h0 h' n.
Proof.
  intros Hc Hg (a & c & top & Hp & Haa & Hag & Hnew & Hrest).
  exists a, c, top. repeat (split; [done|]). split; [|done].
  destruct (h_arrays h0 !! a) as [l0|] eqn:Ha; [|done].
  destruct (classified_dom _ _ _ _ a Hc Hg) as [l Hl]; [eauto|]. congruence.
Qed.

Lemma snapshot_of_later chain refs start h h1 h2 n :
  classified g anc chain refs h1 h2 →
  nid n ∉ nid <$> refs →
  snapshot_of g anc start h h1 n → snapshot_of g anc start h h2 n.
Proof.
  intros (_ & _ & _ & Hparents & Ho) Hn (a & c & top & Hp & Haa & Hag & Hnew & Hc & Hrest).
  exists a, c, top. split; [by rewrite Hparents|].
  repeat (split; [done|]). split; [|done]. rewrite Ho; eauto.
Qed.

Lemma snapshot_of_start start start' h h' n :
  start' `prefix_of` start →
  snapshot_of g anc start h h' n → snapshot_of g anc start' h h' n.
Proof.
  intros Hpre (a & c & top & Hp & Haa & Hag & Hnew & Hc & Hstart & Hrest).
  exists a, c, top. repeat (split; [done|]). split; [by etrans|done].
Qed.

Lemma snapshots_trans c1 c2 r1 r2 start h h1 h2 :
  classified g anc c1 r1 h h1 → classified g anc c2 r2 h1 h2 →
  is_Some (h_arrays h !! g) →
  Forall (snapshot_of g anc start h h1) r1 →
  Forall (snapshot_of g anc start h1 h2) r2 →
  Forall (snapshot_of g anc start h h2) (r1 ++ r2).
Proof.
  intros H1 H2 Hg Hr1 Hr2.
  assert (Forall (snapshot_of g anc start h h2) r2) as Hr2'.
  { eapply Forall_impl; [exact Hr2|]. intros n. by apply (snapshot_of_earlier _ _ _ _ _ _ _ H1). }
  apply Forall_app. split; [|done].
  rewrite Forall_forall in Hr1, Hr2'. apply Forall_forall. intros n Hn.
  destruct (decide (nid n ∈ nid <$> r2)) as [Hin|Hout].
  - apply list_elem_of_fmap in Hin as (n2 & Hid & Hn2).
    destruct (Hr2' n2 Hn2) as (a & c & top & Hp & Hrest).
    exists a, c, top. rewrite Hid. done.
  - apply (snapshot_of_later _ _ _ _ _ _ _ H2 Hout). by apply Hr1.
Qed.

Lemma chain_at_prefix chain node : chain `prefix_of` chain_at chain node.
Proof.
  unfold chain_at. destruct (is_new chain node); [|done]. by apply prefix_app_r.
Qed.

Lemma record_global_snapshot chain node h :
  h_arrays h !! anc = Some (chain_at chain node) → is_Some (h_arrays h !! g) →
  snapshot_of g anc (chain_at chain node) h
    (record_global g node (chain_at chain node) h) node.
Proof.
  intros Hanc Hg.
  destruct (chain_at_last chain node) as (top & Hlast & Hsame).
  exists (fresh (dom (h_arrays h))), (chain_at chain node), top.
  split; [by rewrite record_global_parents, lookup_insert_eq|].
  split; [apply not_eq_sym, fresh_array_ne; eauto|].
  split; [apply not_eq_sym, fresh_array_ne; eauto|].
  split; [apply fresh_array_None|].
  split; [by apply record_global_copy|].
  split; [done|]. split; [done|].
  symmetry. by apply Pos.eqb_eq.
Qed.

Lemma walk_c_snapshots v :
  ∀ chain h h',
    h_arrays h !! anc = Some chain → is_Some (h_arrays h !! g) →
    walk_c (reference_visitors g) anc v h = (Return tt, h') →
    Forall (snapshot_of g anc (chain_at chain (visit_node v)) h h')
           (free_references (h_locals h) chain v).
Proof.
  induction v as [override node inner IH] using visit_ind.
  intros chain h h4 Hanc Hg. simpl.
  rewrite (bind_return _ _ _ _ _ (array_elems_run _ _ _ Hanc)).
  set (c1 := chain_at chain node).
  (* the push *)
  set (h1 := if is_new chain node
             then with_arrays (alter (λ l, l ++ [node]) anc) h else h).
  assert (classified g anc c1 [] h h1) as H1.
  { unfold h1, c1, chain_at. destruct (is_new chain node).
    - by apply classified_push.
    - by apply classified_refl. }
  assert ((if is_new chain node then array_push anc node else ret tt) h
          = (Return tt, h1)) as Hpush.
  { unfold h1. by destruct (is_new chain node). }
  rewrite (bind_return _ _ _ _ _ Hpush).
  assert (h_arrays h1 !! anc = Some c1) as Hanc1 by by destruct H1 as (_ & ? & _).
  assert (is_Some (h_arrays h1 !! g)) as Hg1 by by apply (classified_is_Some _ _ _ _ _ _ H1).
  assert (h_locals h1 = h_locals h) as HL1 by by destruct H1.
  (* the inner visits *)
  assert (∃ h2,
    forEach (walk_c (reference_visitors g) anc) inner h1 = (Return tt, h2)
    ∧ classified g anc c1 (flat_map (free_references (h_locals h) c1) inner) h1 h2
    ∧ Forall (snapshot_of g anc c1 h1 h2)
        (flat_map (free_references (h_locals h) c1) inner))
    as (h2 & Hinner & H2 & Hs2).
  { clear Hpush H1. rewrite <- HL1. clear HL1. revert Hanc1 Hg1. generalize h1. clear h1.
    induction inner as [|v inner IHinner]; intros h1 Hanc1 Hg1; simpl.
    - exists h1. split; [done|]. split; [by apply classified_refl|constructor].
    - apply Forall_cons in IH as [IHv IHrest].
      destruct (walk_c_references g anc Hne v c1 h1 Hanc1 Hg1) as (hv & Hv & Hcv).
      rewrite (bind_return _ _ _ _ _ Hv).
      pose proof (IHv c1 h1 hv Hanc1 Hg1 Hv) as Hsv.
      assert (h_arrays hv !! anc = Some c1) as Hancv by by destruct Hcv as (_ & ? & _).
      assert (is_Some (h_arrays hv !! g)) as Hgv
        by by apply (classified_is_Some _ _ _ _ _ _ Hcv).
      assert (h_locals hv = h_locals h1) as HLv by by destruct Hcv.
      destruct (IHinner IHrest hv Hancv Hgv) as (h2 & Hrest & Hc2 & Hs2).
      rewrite HLv in Hc2, Hs2.
      exists h2. split; [done|].
      split; [by apply (classified_trans _ _ _ _ _ _ _ _ _ Hcv)|].
      apply (snapshots_trans _ _ _ _ _ _ _ _ Hcv Hc2 Hg1); [|done].
      eapply Forall_impl; [exact Hsv|]. intros n.
      apply snapshot_of_start, chain_at_prefix. }
  rewrite (bind_return _ _ _ _ _ Hinner).
  (* the visitor *)
  assert (h_arrays h2 !! anc = Some c1) as Hanc2 by by destruct H2 as (_ & ? & _).
  assert (is_Some (h_arrays h2 !! g)) as Hg2 by by apply (classified_is_Some _ _ _ _ _ _ H2).
  assert (h_locals h2 = h_locals h) as HL2 by (destruct H2 as (-> & _); done).
  rewrite (bind_return _ _ _ _ _ (reference_visitor_run g anc _ node _ _ Hanc2)).
  rewrite HL2.
  set (ty := default (type node) override).
  set (own := if is_global (h_locals h) ty node c1 then [node] else []).
  set (h3 := if is_global (h_locals h) ty node c1
             then record_global g node c1 h2 else h2).
  assert (classified g anc c1 own h2 h3 ∧ Forall (snapshot_of g anc c1 h2 h3) own)
    as [H3 Hs3].
  { unfold h3, own. destruct (is_global _ _ _ _).
    - split; [by apply classified_record|]. apply Forall_singleton.
      by apply record_global_snapshot.
    - split; [by apply classified_refl|constructor]. }
  (* the pop *)
  assert (h_arrays h3 !! anc = Some c1) as Hanc3 by by destruct H3 as (_ & ? & _).
  set (h4' := if is_new chain node
              then with_arrays (alter (λ l, removelast l) anc) h3 else h3).
  assert ((if is_new chain node then array_pop anc else ret tt) h3 = (Return tt, h4'))
    as Hpop.
  { unfold h4'. by destruct (is_new chain node). }
  assert (classified g anc chain [] h3 h4') as H4.
  { unfold h4'. unfold c1, chain_at in Hanc3. destruct (is_new chain node).
    - pose proof (classified_pop g anc Hne _ _ Hanc3) as H.
      by rewrite removelast_last in H.
    - by apply classified_refl. }
  rewrite Hpop. intros [= <-].
  pose proof (classified_trans _ _ _ _ _ _ _ _ _ H1 H2) as H12.
  pose proof (classified_trans _ _ _ _ _ _ _ _ _ H12 H3) as H123.
  pose proof (snapshots_trans _ _ _ _ c1 _ _ _ H1 H2 Hg (Forall_nil_2 _) Hs2) as Hs12.
  pose proof (snapshots_trans _ _ _ _ c1 _ _ _ H12 H3 Hg Hs12 Hs3) as Hs123.
  pose proof (snapshots_trans _ _ _ _ c1 _ _ _ H123 H4 Hg Hs123 (Forall_nil_2 _)) as Hs.
  by rewrite (right_id_L [] (++)) in Hs.
Qed.
End snapshots.

(** ** The heap after an analysis *)
Section frame.
Context (acorn_parse : string → gmap string jsval → acorn_error + Node)
        (acornLoose_parse : string → gmap string jsval → Node)
        (base : Node → list visit).

Local Abbreviation parseWithGlobals := (parseWithGlobals acorn_parse acornLoose_parse base).

Lemma classify_references_snapshots ast g h found :
  h_arrays h !! g = Some found →
  ∀ h', classify_references base ast g h = (Return tt, h') →
  Forall (λ n, carries_chain ast h h' n ∧ h_parents h' !! nid n ≠ Some g)
         (free_references (h_locals h) [] (root_visit base ast)).
Proof.
  intros Hg h'. unfold classify_references, walk_ancestor, bind, new_array.
  set (anc := fresh (dom (h_arrays h))). intros Hrun.
  assert (anc ≠ g) as Hne by (apply not_eq_sym, fresh_array_ne; eauto).
  pose proof (walk_c_snapshots g anc Hne (Visit None ast (base ast)) []
                (with_arrays <[anc := []]> h) h') as Hsnap.
  simpl h_arrays in Hsnap. simpl h_locals in Hsnap.
  rewrite lookup_insert_eq, lookup_insert_ne in Hsnap by done.
  specialize (Hsnap eq_refl ltac:(eauto) Hrun).
  eapply Forall_impl; [exact Hsnap|].
  intros n (a & chain & top & Hp & Haa & Hag & Hnew & Hchain & Hstart & Hlast & Htop).
  split; [|rewrite Hp; congruence].
  exists a, chain, top. split; [done|]. split.
  { simpl in Hnew. by rewrite lookup_insert_ne in Hnew. }
  split; [done|]. split; [|done].
  destruct Hstart as [rest ->]. done.
Qed.

(** What the two walks leave, started on a heap [h] where [g] is the empty
    array of globals. *)
Lemma passes_frame ast g h :
  h_arrays h !! g = Some [] →
  ∃ r h',
    (build_scopes base ast >>> classify_references base ast g) h = (r, h')
    ∧ (∀ a, is_Some (h_arrays h !! a) → a ≠ g → h_arrays h' !! a = h_arrays h !! a)
    ∧ (∀ k x, declared_in (h_locals h) k x → declared_in (h_locals h') k x)
    ∧ (r = Return tt →
       let refs := free_references (h_locals h') [] (root_visit base ast) in
       h_arrays h' !! g = Some refs
       ∧ (∀ k, k ∉ nid <$> refs → h_parents h' !! k = h_parents h !! k)
       ∧ Forall (λ n, carries_chain ast h h' n ∧ h_parents h' !! nid n ≠ Some g) refs).
Proof.
  intros Hg.
  destruct (build_scopes_static base ast) as (r & ops & Hbuild).
  destruct (Hbuild h) as (h1 & Hrun1 & HL1 & Hp1 & Ho1).
  assert (∀ k x, declared_in (h_locals h) k x → declared_in (h_locals h1) k x) as Hmono.
  { intros k x Hx. rewrite HL1. by apply declared_in_apply_ops. }
  destruct r as [[]|e].
  - assert (h_arrays h1 !! g = Some []) as Hg1 by (rewrite Ho1; eauto).
    destruct (classify_references_run base ast g h1 [] Hg1)
      as (h2 & Hrun2 & HL2 & Hg2 & Hp2 & Ho2).
    exists (Return tt), h2. rewrite (bind_return _ _ _ _ _ Hrun1).
    split; [done|]. split; [|split].
    + intros a Ha Hag. rewrite Ho2, Ho1; try done. by rewrite Ho1.
    + intros k x Hx. rewrite HL2. by apply Hmono.
    + intros _. rewrite HL2. split; [done|]. split.
      * intros k Hk. by rewrite Hp2, Hp1.
      * pose proof (classify_references_snapshots ast g h1 [] Hg1 h2 Hrun2) as Hs.
        eapply Forall_impl; [exact Hs|].
        intros n [(a & chain & top & Hp & Hnew & Hrest) Hnot]. split; [|done].
        exists a, chain, top. split; [done|]. split; [|done].
        destruct (h_arrays h !! a) as [l|] eqn:Ha; [|done].
        rewrite Ho1 in Hnew by eauto. congruence.
  - exists (Throw e), h1. rewrite (bind_throw _ _ _ _ _ Hrun1).
    split; [done|]. split; [|split; [done|done]].
    intros a Ha _. by apply Ho1.
Qed.

(** Either the analysis throws before the walks, or the AST is a Program
    and the walks decide. *)
Lemma parseWithGlobals_cases source options fallbackToLoose h :
  let g := fresh (dom (h_arrays h)) in
  let h0 := with_arrays <[g := []]> h in
  (∃ e, parseWithGlobals source options fallbackToLoose h = (Throw e, h0))
  ∨ ∃ ast pe,
      type ast = "Program"
      ∧ (∀ node, source = SourceObject node → ast = node)
      ∧ parseWithGlobals source options fallbackToLoose h =
          match (build_scopes base ast >>> classify_references base ast g) h0 with
          | (Return _, h') =>
            (Return (mkOutput ast (report (default [] (h_arrays h' !! g))) pe), h')
          | (Throw e, h') => (Throw e, h')
          end.
Proof.
  intros g h0. unfold parseWithGlobals, bind, new_array, ret, throw. fold g. fold h0.
  destruct source as [s|node|]; simpl; [| |by left; eauto].
  - destruct (reallyParse acorn_parse acornLoose_parse s (default ∅ options) fallbackToLoose)
      as [[[ast|] pe]|e]; simpl; [| by left; eauto | by left; eauto].
    destruct (String.eqb_spec (type ast) "Program") as [Hty|Hty]; simpl;
      [|by left; eauto].
    right. exists ast, pe. split; [done|]. split; [done|].
    destruct (build_scopes base ast _) as [[[]|e] h1]; [|done].
    by destruct (classify_references base ast _ h1) as [[[]|e] h2].
  - destruct (String.eqb_spec (type node) "Program") as [Hty|Hty]; simpl;
      [|by left; eauto].
    right. exists node, None. split; [done|]. split; [by intros ? [= <-]|].
    destruct (build_scopes base node _) as [[[]|e] h1]; [|done].
    by destruct (classify_references base node _ h1) as [[[]|e] h2].
Qed.

(** X16: after an analysis that returns, every node of every group carries
    its ancestor chain: its [parents] is an array that did not exist
    before the analysis, is not the array of globals, and holds a chain that
    starts at the root of the AST and ends with the node itself; the pushes
    and pops of the walker after the node was recorded have not changed
    it. *)
Theorem reported_nodes_carry_their_chain (source : Source)
    (options : option (gmap string jsval)) (fallbackToLoose : bool)
    (h h' : heap) (out : Output) :
  parseWithGlobals source options fallbackToLoose h = (Return out, h') →
  ∀ g n, g ∈ out_globals out → n ∈ group_nodes g →
    ∃ a chain top,
      h_parents h' !! nid n = Some a
      ∧ h_arrays h !! a = None
      ∧ a ≠ fresh (dom (h_arrays h))
      ∧ h_arrays h' !! a = Some chain
      ∧ head chain = Some (out_ast out)
      ∧ last chain = Some top ∧ nid top = nid n.
Proof.
  intros Hrun grp n Hgrp Hn.
  destruct (parseWithGlobals_cases source options fallbackToLoose h)
    as [[e He]|(ast & pe & Hty & _ & Hcase)]; [congruence|].
  rewrite Hcase in Hrun. clear Hcase.
  set (g := fresh (dom (h_arrays h))) in *.
  destruct (passes_frame ast g (with_arrays <[g := []]> h))
    as (r & h2 & Hpasses & _ & _ & Hret).
  { simpl. apply lookup_insert_eq. }
  rewrite Hpasses in Hrun. destruct r as [[]|e]; [|done].
  injection Hrun as <- <-. simpl in *.
  destruct (Hret eq_refl) as (Hg & _ & Hsnap).
  rewrite Hg in Hgrp. simpl in Hgrp.
  apply report_elem in Hgrp as [Hnodes _]. rewrite Hnodes in Hn.
  apply list_elem_of_filter in Hn as [_ Hn].
  rewrite Forall_forall in Hsnap.
  destruct (Hsnap n Hn) as [(a & chain & top & Hp & Hnew & Hchain & Hrest) Hnot].
  exists a, chain, top. split; [done|]. split.
  { simpl in Hnew. destruct (decide (a = g)) as [->|Hag]; [congruence|].
    by rewrite lookup_insert_ne in Hnew. }
  split; [congruence|]. done.
Qed.

(** X17: whatever its outcome, an analysis changes no array that existed
    before it (so the chains attached by an earlier analysis stay as they
    were) and removes no name from any binding table; when it returns, the
    [parents] of every node that is in no group is what it was. *)
Theorem analysis_frame (source : Source) (options : option (gmap string jsval))
    (fallbackToLoose : bool) (h : heap) :
  let run := parseWithGlobals source options fallbackToLoose h in
  (∀ a, is_Some (h_arrays h !! a) → h_arrays run.2 !! a = h_arrays h !! a)
  ∧ (∀ k x, declared_in (h_locals h) k x → declared_in (h_locals run.2) k x)
  ∧ ∀ out, run.1 = Return out →
      ∀ k, (∀ g n, g ∈ out_globals out → n ∈ group_nodes g → nid n ≠ k) →
           h_parents run.2 !! k = h_parents h !! k.
Proof.
  intros run. unfold run.
  set (g := fresh (dom (h_arrays h))).
  assert (∀ a, is_Some (h_arrays h !! a) →
    a ≠ g ∧ h_arrays (with_arrays <[g := []]> h) !! a = h_arrays h !! a) as Hfresh.
  { intros a Ha. assert (a ≠ g) as Hag by by apply fresh_array_ne.
    split; [done|]. simpl. by rewrite lookup_insert_ne. }
  destruct (parseWithGlobals_cases source options fallbackToLoose h)
    as [[e ->]|(ast & pe & Hty & _ & ->)]; fold g.
  { simpl. split; [|split; [done|done]]. intros a Ha. by apply Hfresh. }
  destruct (passes_frame ast g (with_arrays <[g := []]> h))
    as (r & h2 & -> & Harrays & Hmono & Hret).
  { simpl. apply lookup_insert_eq. }
  assert (∀ a, is_Some (h_arrays h !! a) → h_arrays h2 !! a = h_arrays h !! a) as Hkeep.
  { intros a Ha. destruct (Hfresh a Ha) as [Hag Ha0].
    rewrite Harrays; [done| |done]. by rewrite Ha0. }
  destruct r as [[]|e]; [|by simpl].
  destruct (Hret eq_refl) as (Hg & Hparents & _). clear Hret.
  remember (free_references (h_locals h2) [] (root_visit base ast)) as refs eqn:Hrefs.
  clear Hrefs. simpl. rewrite Hg. simpl.
  split; [done|]. split; [done|].
  intros out [= <-] k Hk. simpl in Hk.
  apply Hparents. intros (n & -> & Hn)%list_elem_of_fmap.
  destruct (report_sorted_in_discovery_order refs) as (_ & Hnodes & Hall).
  destruct (Hall n Hn) as (grp & Hgrp & Hname).
  apply (Hk grp n Hgrp); [|done].
  rewrite (Hnodes grp Hgrp). by apply list_elem_of_filter.
Qed.

End frame.

Lemma analysis_frame_witness :
  ∃ out,
    (parseWithGlobals Sample.no_parser Sample.loose_program Sample.x_base
       (SourceObject Sample.x_program) None false Sample.empty_heap).1 = Return out
    ∧ h_parents (parseWithGlobals Sample.no_parser Sample.loose_program Sample.x_base
         (SourceObject Sample.x_program) None false Sample.empty_heap).2
        !! nid Sample.x_program = None.
Proof.
  assert (∃ out,
    (parseWithGlobals Sample.no_parser Sample.loose_program Sample.x_base
       (SourceObject Sample.x_program) None false Sample.empty_heap).1 = Return out
    ∧ out_globals out = [mkGroup "x" [Sample.x_ref]]) as (out & Hrun & Hgroups).
  { vm_compute. eauto. }
  exists out. split; [exact Hrun|].
  apply (proj2 (proj2 (analysis_frame Sample.no_parser Sample.loose_program
           Sample.x_base (SourceObject Sample.x_program) None false
           Sample.empty_heap)) out Hrun).
  intros g n Hg Hn. rewrite Hgroups in Hg.
  apply list_elem_of_singleton in Hg. subst g.
  apply list_elem_of_singleton in Hn. subst n. done.
Defined.

Lemma reported_nodes_carry_their_chain_witness :
  ∃ out h' a chain,
    parseWithGlobals Sample.no_parser Sample.loose_program Sample.x_base
      (SourceObject Sample.x_program) None false Sample.empty_heap = (Return out, h')
    ∧ h_parents h' !! nid Sample.x_ref = Some a
    ∧ h_arrays h' !! a = Some chain
    ∧ head chain = Some Sample.x_program.
Proof.
  assert (∃ out h',
    parseWithGlobals Sample.no_parser Sample.loose_program Sample.x_base
      (SourceObject Sample.x_program) None false Sample.empty_heap = (Return out, h')
    ∧ out_globals out = [mkGroup "x" [Sample.x_ref]]
    ∧ out_ast out = Sample.x_program) as (out & h' & Hrun & Hgroups & Hast).
  { vm_compute. eauto. }
  destruct (reported_nodes_carry_their_chain Sample.no_parser Sample.loose_program
              Sample.x_base _ _ _ _ _ _ Hrun (mkGroup "x" [Sample.x_ref]) Sample.x_ref)
    as (a & chain & top & Hp & _ & _ & Hchain & Hhead & _).
  - rewrite Hgroups. by left.
  - by left.
  - exists out, h', a, chain. rewrite Hast in Hhead. done.
Defined.

(** ** Boundness and the growth of tables *)

(** X18: a name that [identifier] finds bound stays bound when binding
    tables grow: if every name the tables of [h] hold is held by the same
    table in [h'], the loop that returns "bound" on [h] does so on [h'].
    No declaration made later in the first walk can turn a bound reference
    into a global. *)
Theorem bound_stays_bound (x : string) (chain : list Node) (h h' : heap) :
  (∀ k y, declared_in (h_locals h) k y → declared_in (h_locals h') k y) →
  identifier_loop x chain h = (Return true, h) →
  identifier_loop x chain h' = (Return true, h').
Proof.
  intros Hgrow. rewrite !identifier_loop_run. intros [= Hbound]. do 2 f_equal.
  apply bound_in_spec. apply bound_in_spec in Hbound as [(p & t & Hp & Ht & Hxt)|Harg].
  - left. destruct (Hgrow (nid p) x) as (t' & Ht' & Hxt'); [by exists t|]. eauto.
  - by right.
Qed.

Lemma bound_stays_bound_witness :
  identifier_loop "a" [Sample.x_program] (Heap (<[1%positive := {["a"; "b"]}]> ∅) ∅ ∅)
  = (Return true, Heap (<[1%positive := {["a"; "b"]}]> ∅) ∅ ∅).
Proof.
  apply (bound_stays_bound "a" [Sample.x_program] (Heap (<[1%positive := {["a"]}]> ∅) ∅ ∅)).
  - intros k y (t & Ht & Hy). simpl in Ht.
    apply lookup_insert_Some in Ht as [[<- <-]|[_ Ht]]; [|by rewrite lookup_empty in Ht].
    eexists. split; [apply lookup_insert_eq|]. set_solver.
  - reflexivity.
Defined.
(** ** The kinds of scope *)

(** X19: the four node tests nest: a node that declares [this] is one that
    declares [arguments], such a node is a scope, and a scope is a block
    scope.  So, over any chain, the scope found for a [let], [const] or
    class declaration is the scope found for a [var] or function declaration
    or lies deeper in the chain than it; in particular it is found whenever
    that one is. *)
Theorem let_scope_within_var_scope (chain : list Node) :
  (∀ n, declaresThis n = declaresArguments n)
  ∧ (∀ n, declaresArguments n = true → isScope n = true)
  ∧ (∀ n, isScope n = true → isBlockScope n = true)
  ∧ ∀ p, nearest_below isScope chain (length chain) = Some p →
      ∃ l1 q l2,
        chain = l1 ++ q :: l2
        ∧ nearest_below isBlockScope chain (length chain) = Some q
        ∧ Forall (λ r, isBlockScope r = false) l2
        ∧ (q = p ∨ p ∈ l1).
Proof.
  split; [done|].
  split. { intros n. unfold declaresArguments, isScope. intros H.
           apply orb_true_iff in H as [->| ->]; [done|]. by rewrite !orb_true_r. }
  assert (Hsb : ∀ n, isScope n = true → isBlockScope n = true).
  { intros n H. unfold isBlockScope. rewrite H. by rewrite orb_true_r. }
  split; [exact Hsb|].
  induction chain as [|x chain IH] using rev_ind; [done|].
  intros p. rewrite !nearest_below_snoc.
  destruct (isBlockScope x) eqn:Hb.
  - intros Hp. exists chain, x, []. split; [done|]. split; [done|].
    split; [constructor|].
    destruct (isScope x) eqn:Hs.
    + left. congruence.
    + right. destruct (IH p Hp) as (l1 & q & l2 & -> & _ & _ & [->|Hin]).
      * rewrite elem_of_app. right. by left.
      * rewrite elem_of_app. by left.
  - destruct (isScope x) eqn:Hs; [by rewrite (Hsb x Hs) in Hb|].
    intros Hp. destruct (IH p Hp) as (l1 & q & l2 & -> & Hq & Hl2 & Hpq).
    exists l1, q, (l2 ++ [x]). split; [by rewrite <- app_assoc|].
    split; [exact Hq|]. split; [|exact Hpq].
    apply Forall_app. split; [exact Hl2|]. by apply Forall_singleton.
Qed.

Lemma let_scope_within_var_scope_witness :
  ∃ l1 q l2,
    [Sample.x_program; Sample.f_decl; Sample.f_body; Sample.a_block; Sample.a_decl]
    = l1 ++ q :: l2
    ∧ nearest_below isBlockScope
        [Sample.x_program; Sample.f_decl; Sample.f_body; Sample.a_block; Sample.a_decl] 5
      = Some q
    ∧ Forall (λ r, isBlockScope r = false) l2
    ∧ (q = Sample.f_decl ∨ Sample.f_decl ∈ l1).
Proof.
  apply (proj2 (proj2 (proj2 (let_scope_within_var_scope
    [Sample.x_program; Sample.f_decl; Sample.f_body; Sample.a_block; Sample.a_decl])))).
  reflexivity.
Defined.
(** * The order of the report *)

Lemma in_source_order_filter (P : Node → Prop) `{∀ n, Decision (P n)} (l : list Node) :
  in_source_order l → in_source_order (filter P l).
Proof.
  unfold in_source_order. induction l as [|x l IH]; [done|].
  rewrite fmap_cons. intros [Hl Hx]%StronglySorted_inv.
  destruct (decide (P x)).
  - rewrite filter_cons_True by done. rewrite fmap_cons.
    constructor; [by apply IH|].
    rewrite Forall_fmap in Hx |- *. rewrite Forall_forall in Hx.
    apply Forall_forall. intros y [_ Hy]%list_elem_of_filter. by apply Hx.
  - rewrite filter_cons_False by done. by apply IH.
Qed.

Section order.
Context (acorn_parse : string → gmap string jsval → acorn_error + Node)
        (acornLoose_parse : string → gmap string jsval → Node)
        (base : Node → list visit).

Local Abbreviation parseWithGlobals := (parseWithGlobals acorn_parse acornLoose_parse base).

(** C6, as the program has it: the groups of a result come in ascending
    order of their names as sequences of UTF-16 code units, no two groups
    have the same name, and every recorded node is in the group of its name;
    the nodes of a group are the recorded nodes of that name in the order in
    which the second walk recorded them, which is the order of its visitor
    calls, the pre-order of the walk when the visits of identifiers and
    [this] are leaves.  That is the order of the source text in the groups
    whenever the walk records the references in the order of the source
    text, which depends on the walker alone. *)
Theorem groups_sorted_in_discovery_order (source : Source)
    (options : option (gmap string jsval)) (fallbackToLoose : bool)
    (h h' : heap) (out : Output) :
  parseWithGlobals source options fallbackToLoose h = (Return out, h') →
  let recorded := free_references (h_locals h') [] (root_visit base (out_ast out)) in
  h_arrays h' !! fresh (dom (h_arrays h)) = Some recorded
  ∧ StronglySorted string_le (group_name <$> out_globals out)
  ∧ NoDup (group_name <$> out_globals out)
  ∧ (∀ n, n ∈ recorded →
       ∃ g, g ∈ out_globals out ∧ group_name g = global_name n ∧ n ∈ group_nodes g)
  ∧ (∀ g, g ∈ out_globals out →
       group_nodes g ≠ []
       ∧ group_nodes g = filter (λ n, global_name n = group_name g) recorded)
  ∧ (reference_leaves (root_visit base (out_ast out)) = true →
     recorded
     = globals_of (h_locals h') (preorder_calls [] (root_visit base (out_ast out))))
  ∧ (in_source_order recorded →
     ∀ g, g ∈ out_globals out → in_source_order (group_nodes g)).
Proof.
  intros Hrun recorded.
  destruct (parseWithGlobals_cases acorn_parse acornLoose_parse base
              source options fallbackToLoose h)
    as [[e He]|(ast & pe & Hty & _ & Hcase)]; [congruence|].
  rewrite Hcase in Hrun. clear Hcase.
  set (g := fresh (dom (h_arrays h))) in *.
  destruct (passes_frame base ast g (with_arrays <[g := []]> h))
    as (r & h2 & Hpasses & _ & _ & Hret).
  { simpl. apply lookup_insert_eq. }
  rewrite Hpasses in Hrun. destruct r as [[]|e]; [|done].
  injection Hrun as <- <-.
  destruct (Hret eq_refl) as (Hg & _ & _).
  unfold recorded. cbn [out_ast out_globals]. rewrite Hg. cbn [default].
  assert (reference_leaves (root_visit base ast) = true →
          free_references (h_locals h2) [] (root_visit base ast)
          = globals_of (h_locals h2) (preorder_calls [] (root_visit base ast)))
    as Hpre by (intros Hleaf; by apply free_references_preorder).
  revert Hpre.
  generalize (free_references (h_locals h2) [] (root_visit base ast)).
  intros refs Hpre.
  assert (∀ grp, grp ∈ report refs →
            group_nodes grp ≠ []
            ∧ group_nodes grp = filter (λ n, global_name n = group_name grp) refs)
    as Hgroups.
  { intros grp Hgrp. apply report_elem in Hgrp as [? ?]. done. }
  split; [done|].
  split. { rewrite report_names. apply sorted_keys_sorted. }
  split. { rewrite report_names. apply sorted_keys_NoDup. }
  split.
  { intros n Hn.
    assert (n ∈ filter (λ m, global_name m = global_name n) refs) as Hf
      by by apply list_elem_of_filter.
    exists (mkGroup (global_name n) (filter (λ m, global_name m = global_name n) refs)).
    split; [|done]. apply report_elem. simpl. split; [done|].
    intros Hnil. rewrite Hnil in Hf. by apply not_elem_of_nil in Hf. }
  split; [exact Hgroups|].
  split; [done|].
  intros Hsorted grp Hgrp. destruct (Hgroups grp Hgrp) as [_ ->].
  by apply in_source_order_filter.
Qed.
End order.
Lemma groups_sorted_in_discovery_order_witness :
  (parseWithGlobals Sample.no_parser Sample.loose_program Names.walk_base
     (SourceObject Names.program) None false Sample.empty_heap).1
  = Return (mkOutput Names.program
              [mkGroup "𝑥" [Names.math]; mkGroup "ｘ" [Names.wide_1; Names.wide_2]]
              None)
  ∧ StronglySorted string_le ["𝑥"; "ｘ"]
  ∧ in_source_order [Names.wide_1; Names.wide_2].
Proof.
  pose (out := mkOutput Names.program
                 [mkGroup "𝑥" [Names.math]; mkGroup "ｘ" [Names.wide_1; Names.wide_2]]
                 None).
  pose (run := parseWithGlobals Sample.no_parser Sample.loose_program Names.walk_base
                 (SourceObject Names.program) None false Sample.empty_heap).
  assert (run = (Return out, run.2)) as Hrun by (vm_compute; reflexivity).
  unfold run, out in Hrun.
  destruct (groups_sorted_in_discovery_order Sample.no_parser Sample.loose_program
              Names.walk_base _ _ _ _ _ _ Hrun)
    as (_ & Hsorted & _ & _ & _ & _ & Hsource).
  split; [exact (f_equal fst Hrun)|]. split; [exact Hsorted|].
  apply (Hsource ltac:(vm_compute; repeat constructor; discriminate)
           (mkGroup "ｘ" [Names.wide_1; Names.wide_2])).
  right. left.
Defined.

(** C6 as stated fails: in [do { x; } while (x);] the walk reaches the [x]
    of the test before the [x] of the body, and the group of [x] lists them
    in that order, the later position first. *)
Lemma discovery_order_is_not_source_order :
  (parseWithGlobals Sample.no_parser Sample.loose_program Loops.walk_base
     (SourceObject Loops.program) None false Sample.empty_heap).1
  = Return (mkOutput Loops.program [mkGroup "x" [Loops.test_x; Loops.body_x]] None)
  ∧ ¬ in_source_order [Loops.test_x; Loops.body_x].
Proof.
  split; [by vm_compute|].
  intros [_ Hle]%StronglySorted_inv.
  apply Forall_inv in Hle. by vm_compute in Hle.
Qed.
(** * What the second walk attaches *)

Lemma recorded_chains_fst L v :
  ∀ anc, (recorded_chains L anc v).*1 = free_references L anc v.
Proof.
  induction v as [override node inner IH] using visit_ind. intros anc. simpl.
  rewrite fmap_app. f_equal.
  - generalize (chain_at anc node). intros chain.
    induction inner as [|v inner IHinner]; [done|]. simpl.
    apply Forall_cons in IH as [IHv IHrest].
    rewrite fmap_app, IHv. f_equal. by apply IHinner.
  - by destruct (is_global _ _ _ _).
Qed.

Lemma last_chain_of_app_r k calls1 calls2 chain :
  last_chain_of k calls2 chain → last_chain_of k (calls1 ++ calls2) chain.
Proof.
  intros (before & n & after & -> & Hn & Hafter).
  exists (calls1 ++ before), n, after. by rewrite <- (assoc_L (++)).
Qed.

Lemma last_chain_of_app_l k calls1 calls2 chain :
  last_chain_of k calls1 chain → k ∉ nid <$> calls2.*1 →
  last_chain_of k (calls1 ++ calls2) chain.
Proof.
  intros (before & n & after & -> & Hn & Hafter) Hk.
  exists before, n, (after ++ calls2). split; [by rewrite <- (assoc_L (++))|].
  split; [done|]. apply Forall_app. split; [done|].
  apply Forall_forall. intros c Hc Heq. apply Hk.
  apply list_elem_of_fmap. exists c.1. split; [done|].
  apply list_elem_of_fmap. by exists c.
Qed.

Section copies.
Context (g anc : positive) (Hne : anc ≠ g).

Lemma holds_copy_trans c1 c2 calls1 calls2 h h1 h2 :
  classified g anc c1 calls1.*1 h h1 → classified g anc c2 calls2.*1 h1 h2 →
  is_Some (h_arrays h !! g) →
  Forall (holds_copy g anc calls1 h h1) calls1.*1 →
  Forall (holds_copy g anc calls2 h1 h2) calls2.*1 →
  Forall (holds_copy g anc (calls1 ++ calls2) h h2) (calls1 ++ calls2).*1.
Proof.
  intros H1 H2 Hg Hr1 Hr2.
  assert (∀ n, holds_copy g anc calls2 h1 h2 n →
               holds_copy g anc (calls1 ++ calls2) h h2 n) as Hsecond.
  { intros n (copy & chain & Hp & Haa & Hag & Hnew & Hchain & Hlast).
    exists copy, chain. repeat (split; [done|]).
    split; [|split; [done|by apply last_chain_of_app_r]].
    destruct (h_arrays h !! copy) as [l0|] eqn:Ha; [|done].
    destruct (classified_dom g anc _ _ _ _ copy H1 Hg) as [l Hl]; [eauto|]. congruence. }
  rewrite fmap_app. apply Forall_app. split.
  - rewrite Forall_forall in Hr1, Hr2. apply Forall_forall. intros n Hn.
    destruct (decide (nid n ∈ nid <$> calls2.*1)) as [Hin|Hout].
    + apply list_elem_of_fmap in Hin as (n2 & Hid & Hn2).
      destruct (Hsecond n2 (Hr2 n2 Hn2)) as (copy & chain & Hp & Hrest).
      exists copy, chain. rewrite Hid. done.
    + destruct (Hr1 n Hn) as (copy & chain & Hp & Haa & Hag & Hnew & Hchain & Hlast).
      destruct H2 as (_ & _ & _ & Hparents & Ho).
      exists copy, chain. split; [by rewrite Hparents|].
      repeat (split; [done|]).
      split; [rewrite Ho; eauto|]. by apply last_chain_of_app_l.
  - eapply Forall_impl; [exact Hr2|]. exact Hsecond.
Qed.

Lemma record_global_holds_copy chain node h :
  h_arrays h !! anc = Some chain → is_Some (h_arrays h !! g) →
  holds_copy g anc [(node, chain)] h (record_global g node chain h) node.
Proof.
  intros Hanc Hg.
  exists (fresh (dom (h_arrays h))), chain.
  split; [by rewrite record_global_parents, lookup_insert_eq|].
  split; [apply not_eq_sym, fresh_array_ne; eauto|].
  split; [apply not_eq_sym, fresh_array_ne; eauto|].
  split; [apply fresh_array_None|].
  split; [by apply record_global_copy|].
  exists [], node, []. done.
Qed.

Lemma walk_c_holds_copy v :
  ∀ chain h h',
    h_arrays h !! anc = Some chain → is_Some (h_arrays h !! g) →
    walk_c (reference_visitors g) anc v h = (Return tt, h') →
    Forall (holds_copy g anc (recorded_chains (h_locals h) chain v) h h')
           (recorded_chains (h_locals h) chain v).*1.
Proof.
  induction v as [override node inner IH] using visit_ind.
  intros chain h h4 Hanc Hg. simpl.
  rewrite (bind_return _ _ _ _ _ (array_elems_run _ _ _ Hanc)).
  set (c1 := chain_at chain node).
  (* the push *)
  set (h1 := if is_new chain node
             then with_arrays (alter (λ l, l ++ [node]) anc) h else h).
  assert (classified g anc c1 [] h h1) as H1.
  { unfold h1, c1, chain_at. destruct (is_new chain node).
    - by apply classified_push.
    - by apply classified_refl. }
  assert ((if is_new chain node then array_push anc node else ret tt) h
          = (Return tt, h1)) as Hpush.
  { unfold h1. by destruct (is_new chain node). }
  rewrite (bind_return _ _ _ _ _ Hpush).
  assert (h_arrays h1 !! anc = Some c1) as Hanc1 by by destruct H1 as (_ & ? & _).
  assert (is_Some (h_arrays h1 !! g)) as Hg1 by by apply (classified_is_Some _ _ _ _ _ _ H1).
  assert (h_locals h1 = h_locals h) as HL1 by by destruct H1.
  (* the inner visits *)
  assert (∃ h2,
    forEach (walk_c (reference_visitors g) anc) inner h1 = (Return tt, h2)
    ∧ classified g anc c1 (flat_map (recorded_chains (h_locals h) c1) inner).*1 h1 h2
    ∧ Forall (holds_copy g anc (flat_map (recorded_chains (h_locals h) c1) inner) h1 h2)
        (flat_map (recorded_chains (h_locals h) c1) inner).*1)
    as (h2 & Hinner & H2 & Hs2).
  { clear Hpush H1. rewrite <- HL1. clear HL1. revert Hanc1 Hg1. generalize h1. clear h1.
    induction inner as [|v inner IHinner]; intros h1 Hanc1 Hg1; simpl.
    - exists h1. split; [done|]. split; [by apply classified_refl|constructor].
    - apply Forall_cons in IH as [IHv IHrest].
      destruct (walk_c_references g anc Hne v c1 h1 Hanc1 Hg1) as (hv & Hv & Hcv).
      rewrite (bind_return _ _ _ _ _ Hv).
      pose proof (IHv c1 h1 hv Hanc1 Hg1 Hv) as Hsv.
      rewrite <- recorded_chains_fst in Hcv.
      assert (h_arrays hv !! anc = Some c1) as Hancv by by destruct Hcv as (_ & ? & _).
      assert (is_Some (h_arrays hv !! g)) as Hgv
        by by apply (classified_is_Some _ _ _ _ _ _ Hcv).
      assert (h_locals hv = h_locals h1) as HLv by by destruct Hcv.
      destruct (IHinner IHrest hv Hancv Hgv) as (h2 & Hrest & Hc2 & Hs2).
      rewrite HLv in Hc2, Hs2.
      exists h2. split; [done|].
      split; [rewrite fmap_app; by apply (classified_trans _ _ _ _ _ _ _ _ _ Hcv)|].
      by apply (holds_copy_trans _ _ _ _ _ _ _ Hcv Hc2 Hg1). }
  rewrite (bind_return _ _ _ _ _ Hinner).
  (* the visitor *)
  assert (h_arrays h2 !! anc = Some c1) as Hanc2 by by destruct H2 as (_ & ? & _).
  assert (is_Some (h_arrays h2 !! g)) as Hg2 by by apply (classified_is_Some _ _ _ _ _ _ H2).
  assert (h_locals h2 = h_locals h) as HL2 by (destruct H2 as (-> & _); done).
  rewrite (bind_return _ _ _ _ _ (reference_visitor_run g anc _ node _ _ Hanc2)).
  rewrite HL2.
  set (ty := default (type node) override).
  set (own := if is_global (h_locals h) ty node c1 then [(node, c1)] else []).
  set (h3 := if is_global (h_locals h) ty node c1
             then record_global g node c1 h2 else h2).
  assert (classified g anc c1 own.*1 h2 h3 ∧ Forall (holds_copy g anc own h2 h3) own.*1)
    as [H3 Hs3].
  { unfold h3, own. destruct (is_global _ _ _ _).
    - split; [by apply classified_record|]. apply Forall_singleton.
      by apply record_global_holds_copy.
    - split; [by apply classified_refl|constructor]. }
  (* the pop *)
  assert (h_arrays h3 !! anc = Some c1) as Hanc3 by by destruct H3 as (_ & ? & _).
  set (h4' := if is_new chain node
              then with_arrays (alter (λ l, removelast l) anc) h3 else h3).
  assert ((if is_new chain node then array_pop anc else ret tt) h3 = (Return tt, h4'))
    as Hpop.
  { unfold h4'. by destruct (is_new chain node). }
  assert (classified g anc chain [] h3 h4') as H4.
  { unfold h4'. unfold c1, chain_at in Hanc3. destruct (is_new chain node).
    - pose proof (classified_pop g anc Hne _ _ Hanc3) as H.
      by rewrite removelast_last in H.
    - by apply classified_refl. }
  rewrite Hpop. intros [= <-].
  pose proof (holds_copy_trans c1 c1 [] _ h h1 h2 H1 H2 Hg (Forall_nil_2 _) Hs2) as Hs12.
  pose proof (classified_trans _ _ _ _ _ _ _ _ _ H1 H2) as H12.
  simpl in Hs12, H12.
  pose proof (holds_copy_trans c1 c1 _ _ h h2 h3 H12 H3 Hg Hs12 Hs3) as Hs123.
  pose proof (classified_trans _ _ _ _ _ _ _ _ _ H12 H3) as H123.
  rewrite <- fmap_app in H123.
  pose proof (holds_copy_trans c1 chain _ [] h h3 h4' H123 H4 Hg Hs123 (Forall_nil_2 _))
    as Hs.
  by rewrite (right_id_L [] (++)) in Hs.
Qed.
End copies.
Section attaches.
Context (base : Node → list visit).

(** C8, as the program has it: the first walk changes binding tables
    only, and a table keeps what it holds; the second walk changes no
    binding table and no array that existed but the one of globals, and the
    only nodes it changes are the ones it records: the [parents] of each of
    them becomes a new array, a copy of the chain of ancestors under which
    the node was recorded (last, should the walk record one object twice). *)
Theorem passes_mutate_tables_then_recorded_nodes (ast : Node) :
  (∀ h,
     h_parents (build_scopes base ast h).2 = h_parents h
     ∧ ∀ k x, declared_in (h_locals h) k x →
              declared_in (h_locals (build_scopes base ast h).2) k x)
  ∧ (∀ g h found,
       h_arrays h !! g = Some found →
       let calls := recorded_chains (h_locals h) [] (root_visit base ast) in
       ∃ h',
         classify_references base ast g h = (Return tt, h')
         ∧ h_arrays h' !! g = Some (found ++ calls.*1)
         ∧ h_locals h' = h_locals h
         ∧ (∀ a, is_Some (h_arrays h !! a) → a ≠ g → h_arrays h' !! a = h_arrays h !! a)
         ∧ (∀ k, k ∉ nid <$> calls.*1 → h_parents h' !! k = h_parents h !! k)
         ∧ (∀ n, n ∈ calls.*1 →
              ∃ copy chain,
                h_parents h' !! nid n = Some copy
                ∧ copy ≠ g
                ∧ h_arrays h !! copy = None
                ∧ h_arrays h' !! copy = Some chain
                ∧ last_chain_of (nid n) calls chain)).
Proof.
  split.
  - intros h. destruct (build_scopes_static base ast) as (r & ops & Hbuild).
    destruct (Hbuild h) as (h' & -> & HL & Hp & _). simpl. split; [done|].
    intros k x Hx. rewrite HL. by apply declared_in_apply_ops.
  - intros g h found Hg calls.
    destruct (classify_references_run base ast g h found Hg)
      as (h' & Hrun & HL & Hg' & Hp & Ho).
    unfold calls. rewrite recorded_chains_fst.
    exists h'. do 5 (split; [done|]).
    intros n Hn. rewrite <- recorded_chains_fst in Hn.
    revert Hrun. unfold classify_references, walk_ancestor, bind, new_array.
    set (anc := fresh (dom (h_arrays h))). intros Hrun.
    assert (anc ≠ g) as Hne by (apply not_eq_sym, fresh_array_ne; eauto).
    pose proof (walk_c_holds_copy g anc Hne (Visit None ast (base ast)) []
                  (with_arrays <[anc := []]> h) h') as Hcopies.
    simpl h_arrays in Hcopies. simpl h_locals in Hcopies.
    rewrite lookup_insert_eq, lookup_insert_ne in Hcopies by done.
    specialize (Hcopies eq_refl ltac:(eauto) Hrun).
    rewrite Forall_forall in Hcopies.
    destruct (Hcopies n Hn) as (copy & chain & Hpn & Haa & Hag & Hnew & Hchain & Hlast).
    exists copy, chain. do 2 (split; [done|]).
    split; [|done]. simpl in Hnew. by rewrite lookup_insert_ne in Hnew.
Qed.
End attaches.

Lemma passes_mutate_tables_then_recorded_nodes_witness :
  ∃ h' copy,
    classify_references Sample.x_base Sample.x_program 1%positive Sample.x_heap
      = (Return tt, h')
    ∧ h_arrays h' !! 1%positive = Some [Sample.x_ref]
    ∧ h_locals h' = h_locals Sample.x_heap
    ∧ h_parents h' !! nid Sample.x_ref = Some copy
    ∧ h_arrays h' !! copy = Some [Sample.x_program; Sample.x_stmt; Sample.x_ref].
Proof.
  destruct (proj2 (passes_mutate_tables_then_recorded_nodes Sample.x_base Sample.x_program)
              1%positive Sample.x_heap [] eq_refl)
    as (h' & Hrun & Hrefs & HL & _ & _ & Hcopies).
  destruct (Hcopies Sample.x_ref) as (copy & chain & Hp & _ & _ & Hchain & Hlast).
  { by left. }
  exists h', copy. split; [exact Hrun|]. split; [exact Hrefs|]. split; [exact HL|].
  split; [exact Hp|]. rewrite Hchain. f_equal.
  destruct Hlast as (before & n & after & Hcalls & _ & _).
  vm_compute in Hcalls.
  destruct before as [|c before]; [by injection Hcalls as _ <-|].
  injection Hcalls as _ Hcalls. by destruct before.
Defined.

(** C8 as stated fails: the second walk sets the [parents] field of the
    identifier it records in [x;]. *)
Lemma classification_sets_parents :
  h_parents (classify_references Sample.x_base Sample.x_program 1%positive
               Sample.x_heap).2 !! nid Sample.x_ref
  ≠ h_parents Sample.x_heap !! nid Sample.x_ref.
Proof. by vm_compute. Qed.
